(** * virtual-launch: chain indexing and reconstruction engine

    A shallow embedding of the indexer core (trade reconstruction, log
    reader, first-active-block locator, tax extractor, cost ledger, AMM
    simulator, graduation detector, trade insertion loop) together with
    the properties stated about it in the design document.

    Conventions of the embedding
    - a JavaScript [bigint] is a [Z];
    - a JavaScript [number] that holds a block number, a log index or a
      count is a [Z]; a [number] that holds a price is an IEEE-754
      binary64 [float], and [Number(b)] on a bigint is the correctly
      rounded conversion [Number];
    - an address is the 160-bit number it denotes: the source compares
      addresses through [toLowerCase()] on both sides and renders them
      through [getAddress] (EIP-55 letter case), so two address strings
      are identified exactly when they denote the same number;
    - a decimal string that stores a bigint in a row ([quoteIn],
      [tokensSold], ...) is the integer it prints; a nullable column is
      an [option];
    - a JavaScript [Map] iterated in insertion order is an association
      list; a table with a unique index is a [gmap] from the key to the
      row; a [Set] that is only tested for membership is a [gset]. *)

From Stdlib Require Import ZArith NArith List Bool Floats Lia.
From stdpp Require Import gmap strings list fin_maps.
Import ListNotations.
Open Scope Z_scope.

(** Decimal literals such as [0.099] denote the nearest binary64 value,
    as they do in JavaScript. *)
Set Warnings "-inexact-float".

(** ** Shared data model (src/types.ts, src/chain/constants.ts) *)

Definition Address := N.

Definition VIRTUAL_ADDRESS : Address :=
  0x0b3e328455c4059EEb9e3f84b5543F74E24e7E1b%N.

Inductive Venue := INTERNAL | EXTERNAL.
Inductive Side := BUY | SELL.

(** [ParsedTransfer] of src/types.ts. *)
Record ParsedTransfer := mkTransfer {
  address : Address;
  from : Address;
  to : Address;
  value : Z;
  txHash : string;
  logIndex : Z;
  blockNumber : Z
}.

(** [Number(b)] for a bigint [b]: round to nearest, ties to even. *)
Definition Number (z : Z) : float :=
  SF2Prim (binary_normalize prec emax z 0 false).

Module Trade.
(** [Trade] of src/types.ts (the auto-increment [id] is assigned by
    the store and is not part of a reconstructed trade). *)
Record t := mk {
  projectId : string;
  venue : Venue;
  marketAddress : Address;
  txHash : string;
  logIndex : Z;
  blockNumber : Z;
  ts : Z;
  trader : Address;
  side : Side;
  quoteIn : option Z;
  quoteInGross : option Z;
  quoteOut : option Z;
  tokenIn : option Z;
  tokenOut : option Z;
  priceQuotePerToken : option float
}.
End Trade.

(** ** bigint division *)

Module BigInt.

(** bigint [a / b]: truncating, and a [RangeError] on a zero divisor. *)
Definition bigDiv (a b : Z) : option Z :=
  if b =? 0 then None else Some (Z.quot a b).

(** bigint [a % b]. *)
Definition bigMod (a b : Z) : option Z :=
  if b =? 0 then None else Some (Z.rem a b).

End BigInt.

(** ** Launch-path inference (src/indexer/launch-path-parser.ts) *)

Module LaunchPath.

Record TxTransferGroup := mkGroup {
  token : list ParsedTransfer;
  virtual : list ParsedTransfer
}.

Definition LAUNCH_PATH_NET_ADDRESS : Address :=
  0x0000000071727de22e5e9d8baf0edac6f37da032%N.
Definition LAUNCH_PATH_TAX_ADDRESS : Address :=
  0xc3538ddd84619e761b4c03caf2f785f79889958d%N.

Definition LAUNCH_PATH_ADDRESSES : gset Address :=
  {[ LAUNCH_PATH_NET_ADDRESS; LAUNCH_PATH_TAX_ADDRESS ]}.

Definition isLaunchPath (a : Address) : bool :=
  bool_decide (a ∈ LAUNCH_PATH_ADDRESSES).

Definition hasLaunchPathTransfers (group : TxTransferGroup) : bool :=
  existsb (fun v => isLaunchPath (from v) || isLaunchPath (to v))
          (virtual group).

(** Loop state of [inferLaunchPathBuyQuote]. *)
Record BuyAcc := mkBuyAcc {
  gross : Z;
  netToPrimary : Z;
  maxSingleRecipient : Z;
  byRecipient : gmap Address Z
}.

Definition inferBuyStep (traderLower : Address) (acc : BuyAcc)
           (v : ParsedTransfer) : BuyAcc :=
  if negb (N.eqb (from v) traderLower) || negb (isLaunchPath (to v))
  then acc
  else
    let next := default 0 (byRecipient acc !! to v) + value v in
    {| gross := gross acc + value v;
       netToPrimary :=
         if N.eqb (to v) LAUNCH_PATH_NET_ADDRESS
         then netToPrimary acc + value v else netToPrimary acc;
       maxSingleRecipient :=
         if next >? maxSingleRecipient acc
         then next else maxSingleRecipient acc;
       byRecipient := <[to v := next]> (byRecipient acc) |}.

Definition inferLaunchPathBuyQuote (group : TxTransferGroup)
           (traderLower : Address) : Z * Z :=
  let acc := fold_left (inferBuyStep traderLower) (virtual group)
                       (mkBuyAcc 0 0 0 ∅) in
  let net := if netToPrimary acc >? 0
             then netToPrimary acc else maxSingleRecipient acc in
  let net := if net <=? 0 then gross acc else net in
  let net := if net >? gross acc then gross acc else net in
  (gross acc, net).

Definition inferLaunchPathSellQuoteOut (group : TxTransferGroup)
           (traderLower : Address) : Z :=
  fold_left
    (fun quoteOut v =>
       if N.eqb (to v) traderLower && isLaunchPath (from v)
       then quoteOut + value v else quoteOut)
    (virtual group) 0.

End LaunchPath.

(** ** Trade Reconstructor (src/indexer/trade-parser.ts) *)

Module Candidate.
(** [TradeCandidate]; [trader] is already the result of
    [getAddress(trader)]. *)
Record t := mk {
  txHash : string;
  blockNumber : Z;
  trader : Address;
  side : Side;
  quoteIn : option Z;
  quoteInGross : option Z;
  quoteOut : option Z;
  tokenIn : option Z;
  tokenOut : option Z;
  priceQuotePerToken : option float;
  minLogIndex : Z
}.
End Candidate.

Module TradeParser.
Import LaunchPath.

(** [txGroups : Map<string, TxTransferGroup>], in insertion order. *)
Definition TxGroups := list (string * TxTransferGroup).

Fixpoint groupsGet (h : string) (gs : TxGroups) : option TxTransferGroup :=
  match gs with
  | [] => None
  | (k, g) :: rest => if String.eqb k h then Some g else groupsGet h rest
  end.

(** [Map.set]: an existing key keeps its position. *)
Fixpoint groupsSet (h : string) (g : TxTransferGroup) (gs : TxGroups)
  : TxGroups :=
  match gs with
  | [] => [(h, g)]
  | (k, g0) :: rest =>
      if String.eqb k h then (k, g) :: rest
      else (k, g0) :: groupsSet h g rest
  end.

Definition touchesMarket (m : Address) (t : ParsedTransfer) : bool :=
  N.eqb (from t) m || N.eqb (to t) m.

(** Body of the first loop (token transfers). *)
Definition addToken (m : Address) (gs : TxGroups) (t : ParsedTransfer)
  : TxGroups :=
  if touchesMarket m t then
    let gs1 := match groupsGet (txHash t) gs with
               | Some _ => gs
               | None => groupsSet (txHash t) (mkGroup [] []) gs
               end in
    match groupsGet (txHash t) gs1 with
    | Some g => groupsSet (txHash t) (mkGroup (token g ++ [t]) (virtual g)) gs1
    | None => gs1
    end
  else gs.

(** Body of the second loop (quote transfers). *)
Definition addVirtual (m : Address) (gs : TxGroups) (v : ParsedTransfer)
  : TxGroups :=
  match groupsGet (txHash v) gs with
  | Some g => groupsSet (txHash v) (mkGroup (token g) (virtual g ++ [v])) gs
  | None =>
      if touchesMarket m v
      then groupsSet (txHash v) (mkGroup [] [v]) gs
      else gs
  end.

Definition buildGroups (m : Address)
           (tokenTransfers virtualTransfers : list ParsedTransfer)
  : TxGroups :=
  fold_left (addVirtual m) virtualTransfers
            (fold_left (addToken m) tokenTransfers []).

(** [.reduce((sum, t) => sum + t.value, 0n)] *)
Definition sumValue (l : list ParsedTransfer) : Z :=
  fold_left (fun sum t => sum + value t) l 0.

(** Body of the two delta loops: an inflow adds, an outflow subtracts. *)
Definition deltaStep (m : Address) (d : Z) (t : ParsedTransfer) : Z :=
  let d1 := if N.eqb (to t) m then d + value t else d in
  if N.eqb (from t) m then d1 - value t else d1.

(** Net flow of one asset relative to the market. *)
Definition netDelta (m : Address) (l : list ParsedTransfer) : Z :=
  fold_left (deltaStep m) l 0.

(** [Math.min(...xs)]; the only call site is reached with a non-empty
    list (an empty group has both deltas zero and was skipped). *)
Definition Math_min (xs : list Z) : Z :=
  match xs with
  | [] => 0
  | x :: rest => fold_left Z.min rest x
  end.

(** The local [trader] string once the look-ups are done: an address
    taken from a transfer, or the literal ['unknown']. *)
Inductive TraderRef := TAddr (a : Address) | TUnknown.

(** [getAddress(trader)] throws on ['unknown']. *)
Definition getAddress (t : TraderRef) : option Address :=
  match t with TAddr a => Some a | TUnknown => None end.

Inductive Outcome :=
| Skip                       (* [continue], or no branch matched *)
| Emit (c : Candidate.t)
| Throw.                     (* [getAddress] rejected the trader *)

Definition emitWith (trader : TraderRef) (k : Address -> Candidate.t)
  : Outcome :=
  match getAddress trader with
  | Some a => Emit (k a)
  | None => Throw
  end.

Definition price (quote tokens : Z) : float :=
  PrimFloat.div (Number quote) (Number tokens).

(** Body of the loop over [txGroups]. *)
Definition processGroup (m : Address) (h : string)
           (group : TxTransferGroup) : Outcome :=
  let deltaVirtual := netDelta m (virtual group) in
  let deltaToken := netDelta m (token group) in
  if (deltaVirtual =? 0) && (deltaToken =? 0) then Skip else
  let allLogs := token group ++ virtual group in
  let minLogIndex := Math_min (map logIndex allLogs) in
  let blockNumber := match allLogs with
                     | l :: _ => blockNumber l
                     | [] => 0
                     end in
  if (deltaVirtual >? 0) && (deltaToken <? 0) then
    (* BUY: market received quote, market sent token *)
    let quoteInNet := deltaVirtual in
    let tokenOutTotal := - deltaToken in
    let quoteInGross :=
      sumValue (List.filter (fun v => N.eqb (to v) m) (virtual group)) in
    let quoteInGross :=
      if quoteInGross <? quoteInNet then quoteInNet else quoteInGross in
    let trader :=
      match List.find (fun t => N.eqb (from t) m) (token group) with
      | Some t => TAddr (to t)
      | None =>
          match List.find (fun v => N.eqb (to v) m) (virtual group) with
          | Some v => TAddr (from v)
          | None => TUnknown
          end
      end in
    let '(tokenOut, quoteInGrossTrader) :=
      match trader with
      | TAddr traderLower =>
          let tokenToTrader :=
            sumValue (List.filter (fun t => N.eqb (from t) m
                                            && N.eqb (to t) traderLower)
                             (token group)) in
          let virtualFromTraderToMarket :=
            sumValue (List.filter (fun v => N.eqb (to v) m
                                            && N.eqb (from v) traderLower)
                             (virtual group)) in
          let virtualFromTraderTotal :=
            sumValue (List.filter (fun v => N.eqb (from v) traderLower)
                             (virtual group)) in
          (if tokenToTrader >? 0 then tokenToTrader else tokenOutTotal,
           if virtualFromTraderTotal >? 0 then virtualFromTraderTotal
           else if virtualFromTraderToMarket >? 0
                then virtualFromTraderToMarket
                else quoteInGross)
      | TUnknown => (tokenOutTotal, quoteInGross)
      end in
    if tokenOut <=? 0 then Skip else
    emitWith trader (fun a =>
      Candidate.mk h blockNumber a BUY
        (Some quoteInNet) (Some quoteInGrossTrader) None None
        (Some tokenOut) (Some (price quoteInNet tokenOut)) minLogIndex)
  else if (deltaToken >? 0) && (deltaVirtual <? 0) then
    (* SELL: market received token, market sent quote *)
    let trader :=
      match List.find (fun t => N.eqb (to t) m) (token group) with
      | Some t => TAddr (from t)
      | None =>
          match List.find (fun v => N.eqb (from v) m) (virtual group) with
          | Some v => TAddr (to v)
          | None => TUnknown
          end
      end in
    let '(tokenIn, quoteOut) :=
      match trader with
      | TAddr traderLower =>
          let tokenFromTrader :=
            sumValue (List.filter (fun t => N.eqb (to t) m
                                            && N.eqb (from t) traderLower)
                             (token group)) in
          let virtualToTrader :=
            sumValue (List.filter (fun v => N.eqb (from v) m
                                            && N.eqb (to v) traderLower)
                             (virtual group)) in
          (if tokenFromTrader >? 0 then tokenFromTrader else deltaToken,
           if virtualToTrader >? 0 then virtualToTrader
           else - deltaVirtual)
      | TUnknown => (deltaToken, - deltaVirtual)
      end in
    if (tokenIn <=? 0) || (quoteOut <=? 0) then Skip else
    emitWith trader (fun a =>
      Candidate.mk h blockNumber a SELL
        None None (Some quoteOut) (Some tokenIn) None
        (Some (price quoteOut tokenIn)) minLogIndex)
  else if (deltaToken >? 0) && hasLaunchPathTransfers group then
    (* launch-specific SELL fallback *)
    match List.find (fun t => N.eqb (to t) m) (token group) with
    | None => Skip
    | Some sender =>
        let traderLower := from sender in
        let tokenIn :=
          sumValue (List.filter (fun t => N.eqb (to t) m
                                          && N.eqb (from t) traderLower)
                           (token group)) in
        if tokenIn <=? 0 then Skip else
        let quoteOut := inferLaunchPathSellQuoteOut group traderLower in
        if quoteOut <=? 0 then Skip else
        emitWith (TAddr traderLower) (fun a =>
          Candidate.mk h blockNumber a SELL
            None None (Some quoteOut) (Some tokenIn) None
            (Some (price quoteOut tokenIn)) minLogIndex)
    end
  else if deltaToken <? 0 then
    (* router-like BUY fallback *)
    match List.find (fun t => N.eqb (from t) m) (token group) with
    | None => Skip
    | Some recipient =>
        let traderLower := to recipient in
        let tokenOut :=
          sumValue (List.filter (fun t => N.eqb (from t) m
                                          && N.eqb (to t) traderLower)
                           (token group)) in
        if tokenOut <=? 0 then Skip else
        let quoteInGross :=
          sumValue (List.filter (fun v => N.eqb (from v) traderLower)
                           (virtual group)) in
        let quoteInNetFallback := quoteInGross in
        let '(quoteInGross, quoteInNetFallback) :=
          if (quoteInGross <=? 0) && hasLaunchPathTransfers group
          then inferLaunchPathBuyQuote group traderLower
          else (quoteInGross, quoteInNetFallback) in
        if quoteInGross <=? 0 then Skip else
        let quoteInNet :=
          if deltaVirtual >? 0 then deltaVirtual else quoteInNetFallback in
        let quoteInNet :=
          if quoteInNet <=? 0 then quoteInGross else quoteInNet in
        let quoteInNet :=
          if quoteInNet >? quoteInGross then quoteInGross else quoteInNet in
        emitWith (TAddr traderLower) (fun a =>
          Candidate.mk h blockNumber a BUY
            (Some quoteInNet) (Some quoteInGross) None None
            (Some tokenOut) (Some (price quoteInNet tokenOut)) minLogIndex)
    end
  else Skip.

(** [trades.push({...})] for a candidate. *)
Definition toTrade (projectId : string) (venue : Venue)
           (marketAddress : Address) (blockTimestamp : Z)
           (c : Candidate.t) : Trade.t :=
  Trade.mk projectId venue marketAddress
    (Candidate.txHash c) (Candidate.minLogIndex c) (Candidate.blockNumber c)
    blockTimestamp (Candidate.trader c) (Candidate.side c)
    (Candidate.quoteIn c) (Candidate.quoteInGross c) (Candidate.quoteOut c)
    (Candidate.tokenIn c) (Candidate.tokenOut c)
    (Candidate.priceQuotePerToken c).

(** The loop over [txGroups]; [None] is an exception leaving the
    function. *)
Fixpoint emitTrades (m : Address) (mk : Candidate.t -> Trade.t)
         (gs : TxGroups) : option (list Trade.t) :=
  match gs with
  | [] => Some []
  | (h, g) :: rest =>
      match processGroup m h g with
      | Throw => None
      | Skip => emitTrades m mk rest
      | Emit c =>
          match emitTrades m mk rest with
          | Some trades => Some (mk c :: trades)
          | None => None
          end
      end
  end.

Definition reconstructTrades
           (tokenTransfers virtualTransfers : list ParsedTransfer)
           (marketAddress tokenAddress : Address)
           (projectId : string) (venue : Venue) (blockTimestamp : Z)
  : option (list Trade.t) :=
  emitTrades marketAddress
    (toTrade projectId venue marketAddress blockTimestamp)
    (buildGroups marketAddress tokenTransfers virtualTransfers).

(** *** Vocabulary of the properties *)

(** Amounts as the chain emits them: [uint256], never negative. *)
Definition nonNegative (l : list ParsedTransfer) : Prop :=
  forall t, In t l -> 0 <= value t.

(** Every group only holds token transfers of the input list [ts]. *)
Definition tokensWithin (ts : list ParsedTransfer) (gs : TxGroups) : Prop :=
  forall e, In e gs -> forall t, In t (token (snd e)) -> In t ts.

End TradeParser.

(** ** Failure telemetry (src/indexer/observability.ts) *)

Module Observability.

(** [TransferLogFailureStat]; the wall-clock stamp [lastFailureAt] is
    not part of the model. *)
Record TransferLogFailureStat := mkStat {
  contractAddress : Address;
  failureCount : Z;
  lastFailureRange : Z * Z;
  lastError : string
}.

Definition Stats := gmap Address TransferLogFailureStat.

Definition recordTransferLogFailure (contract : Address)
           (fromBlock toBlock : Z) (errorMessage : string)
           (stats : Stats) : Stats :=
  let existing := stats !! contract in
  <[contract :=
      {| contractAddress := contract;
         failureCount :=
           match existing with Some s => failureCount s | None => 0 end + 1;
         lastFailureRange := (fromBlock, toBlock);
         lastError := String.substring 0 300 errorMessage |}]> stats.

Definition getTransferLogFailureStat (contract : Address) (stats : Stats)
  : option TransferLogFailureStat :=
  stats !! contract.

End Observability.

(** ** Effects of the chain-facing code

    The asynchronous functions run against an RPC client, sleep, and
    write telemetry.  [M A] threads the observable effects and carries
    the three ways a call can end: a value, a thrown error, or the
    loop budget of the model running out. *)

Module Rpc.

Record RpcError := mkError { message : string }.

(** A raw log as returned by [getLogs]. *)
Record Log := mkLog {
  blockNumber : Z;
  transactionHash : string;
  logIndex : Z
}.

Record Client := mkClient {
  getLogs : Address -> Z -> Z -> list Log + RpcError;
  getBlockNumber : Z + RpcError
}.

Record World := mkWorld {
  sleeps : list Z;                (* [sleep(ms)] calls, oldest first *)
  failureStats : Observability.Stats
}.

Definition emptyWorld : World := mkWorld [] ∅.

Inductive Outcome (A : Type) :=
| Ok (a : A)
| Throw (e : RpcError)
| OutOfFuel.
Arguments Ok {A} a.
Arguments Throw {A} e.
Arguments OutOfFuel {A}.

Definition M (A : Type) := World -> Outcome A * World.

Definition ret {A} (a : A) : M A := fun w => (Ok a, w).

Definition bind {A B} (m : M A) (k : A -> M B) : M B :=
  fun w =>
    match m w with
    | (Ok a, w1) => k a w1
    | (Throw e, w1) => (Throw e, w1)
    | (OutOfFuel, w1) => (OutOfFuel, w1)
    end.

Definition throw {A} (e : RpcError) : M A := fun w => (Throw e, w).

Definition outOfFuel {A} : M A := fun w => (OutOfFuel, w).

(** [try { m } catch (e) { ... }], with the handler left to the
    caller: a thrown error becomes a value. *)
Definition attempt {A} (m : M A) : M (A + RpcError) :=
  fun w =>
    match m w with
    | (Ok a, w1) => (Ok (inl a), w1)
    | (Throw e, w1) => (Ok (inr e), w1)
    | (OutOfFuel, w1) => (OutOfFuel, w1)
    end.

Definition sleep (ms : Z) : M unit :=
  fun w => (Ok tt, mkWorld (sleeps w ++ [ms]) (failureStats w)).

Definition recordFailure (contract : Address) (fromBlock toBlock : Z)
           (msg : string) : M unit :=
  fun w =>
    (Ok tt,
     mkWorld (sleeps w)
             (Observability.recordTransferLogFailure
                contract fromBlock toBlock msg (failureStats w))).

Definition liftResult {A} (r : A + RpcError) : M A :=
  match r with inl a => ret a | inr e => throw e end.

End Rpc.

Notation "'let!' x ':=' m 'in' k" := (Rpc.bind m (fun x => k))
  (at level 10, x name, m at level 100, k at level 200).
Notation "'run!' m 'in' k" := (Rpc.bind m (fun _ => k))
  (at level 10, m at level 100, k at level 200).

(** ** Log Reader (src/chain/utils.ts) *)

Module LogReader.
Import Rpc.

(** [hay.includes(needle)] *)
Fixpoint includes (needle hay : string) : bool :=
  String.prefix needle hay
  || match hay with
     | EmptyString => false
     | String _ rest => includes needle rest
     end.

Definition isRangeError (msg : string) : bool :=
  includes "range" msg
  || includes "limit" msg
  || includes "too many" msg
  || includes "block range" msg
  || includes "Log response size exceeded" msg.

Section WithClient.
Variable client : Client.

Definition clientGetLogs (contract : Address) (fromBlock toBlock : Z)
  : M (list Log) :=
  liftResult (getLogs client contract fromBlock toBlock).

(** [for (let i = 0; i < 3; i++)] of the give-up path, entered with
    [n] iterations left at index [i]; [None] when every retry
    failed. *)
Fixpoint retryLoop (n : nat) (i : Z) (contract : Address)
         (fromBlock toBlock : Z) : M (option (list Log)) :=
  match n with
  | O => ret None
  | S n' =>
      run! sleep (500 * (i + 1)) in
      let! r := attempt (clientGetLogs contract fromBlock toBlock) in
      match r with
      | inl logs => ret (Some logs)
      | inr _ => retryLoop n' (i + 1) contract fromBlock toBlock
      end
  end.

(** [fetchTransferLogs], recursion bounded by [fuel].  The two
    halves of [Promise.all] are run left then right and their results
    are concatenated in that order, as in the source.  When the left
    half throws, the model stops there; in the source the right half
    has been started as well and its sleeps and failure records may
    still take place after the rejection. *)
Fixpoint fetchTransferLogsFuel (fuel : nat) (contract : Address)
         (fromBlock toBlock : Z) : M (list Log) :=
  let! r := attempt (clientGetLogs contract fromBlock toBlock) in
  match r with
  | inl logs => ret logs
  | inr error =>
      let msg := message error in
      if isRangeError msg then
        if toBlock - fromBlock <=? 1 then
          let! retried := retryLoop 3 0 contract fromBlock toBlock in
          match retried with
          | Some logs => ret logs
          | None =>
              run! recordFailure contract fromBlock toBlock
                     (if String.eqb msg "" then "unknown getLogs error"
                      else msg) in
              ret []
          end
        else
          match fuel with
          | O => outOfFuel
          | S fuel' =>
              let mid := fromBlock + Z.quot (toBlock - fromBlock) 2 in
              let! left :=
                fetchTransferLogsFuel fuel' contract fromBlock mid in
              let! right :=
                fetchTransferLogsFuel fuel' contract (mid + 1) toBlock in
              ret (left ++ right)
          end
      else throw error
  end.

(** Every split strictly shortens the range, so the width of the
    range bounds the recursion depth. *)
Definition fetchTransferLogs (contract : Address)
           (fromBlock toBlock : Z) : M (list Log) :=
  fetchTransferLogsFuel (Z.to_nat (toBlock - fromBlock))
                        contract fromBlock toBlock.

End WithClient.

(** *** A chain and a provider with a log-count cap *)

(** [n] consecutive block numbers starting at [b]. *)
Fixpoint blocksFrom (n : nat) (b : Z) : list Z :=
  match n with
  | O => []
  | S n' => b :: blocksFrom n' (b + 1)
  end.

(** The logs of the blocks [fromBlock .. toBlock], in block order. *)
Definition logsInRange (logsAt : Z -> list Log) (fromBlock toBlock : Z)
  : list Log :=
  flat_map logsAt (blocksFrom (Z.to_nat (toBlock - fromBlock + 1)) fromBlock).

Definition rangeTooLarge : RpcError :=
  mkError "query exceeds max results: block range too large".

(** [getLogs] of a provider that rejects a request exactly when the
    answer would hold more than [cap] logs. *)
Definition cappedGetLogs (logsAt : Address -> Z -> list Log) (cap : nat)
           (contract : Address) (fromBlock toBlock : Z)
  : list Log + RpcError :=
  let logs := logsInRange (logsAt contract) fromBlock toBlock in
  if (cap <? length logs)%nat then inr rangeTooLarge else inl logs.

Definition cappedClient (logsAt : Address -> Z -> list Log) (cap : nat)
           (latest : Z) : Client :=
  mkClient (cappedGetLogs logsAt cap) (inl latest).

(** A provider without any limit: the single unrestricted fetch. *)
Definition unrestrictedClient (logsAt : Address -> Z -> list Log)
           (latest : Z) : Client :=
  mkClient (fun c f t => inl (logsInRange (logsAt c) f t)) (inl latest).

End LogReader.

(** ** First-Active-Block Locator (src/indexer/first-block.ts) *)

Module FirstBlock.
Import Rpc.

(** The two tuning constants of src/config.ts the locator reads. *)
Record Config := mkConfig {
  initialScanWindow : Z;
  maxScanWindow : Z
}.

Definition config : Config := mkConfig 20000 1000000.

Section WithClient.
Variable client : Client.
Variable cfg : Config.

(** Phase 1, [while (!found && toBlock > 0)]: [Some (hitFromBlock,
    hitToBlock)] when a window with logs was found, [None] when the
    scan reached block 0 without a hit. *)
Fixpoint scanBackward (fuel : nat) (tokenAddress : Address)
         (windowSize toBlock : Z) : M (option (Z * Z)) :=
  if toBlock >? 0 then
    match fuel with
    | O => outOfFuel
    | S fuel' =>
        let fromBlock := Z.max 0 (toBlock - windowSize) in
        let! r := attempt (LogReader.fetchTransferLogs
                             client tokenAddress fromBlock toBlock) in
        match r with
        | inl logs =>
            if (0 <? length logs)%nat
            then ret (Some (fromBlock, toBlock))
            else scanBackward fuel' tokenAddress
                   (Z.min (windowSize * 2) (maxScanWindow cfg))
                   (fromBlock - 1)
        | inr _ =>
            scanBackward fuel' tokenAddress
              (Z.max (windowSize / 2) 1000) toBlock
        end
    end
  else ret None.

(** [Math.min(...logs.map((l) => Number(l.blockNumber)))] on a
    non-empty list. *)
Definition earliestLogBlock (logs : list Log) : Z :=
  match logs with
  | [] => 0
  | l :: rest => fold_left Z.min (map blockNumber rest) (blockNumber l)
  end.

(** Phase 2, [while (lo <= hi)]. *)
Fixpoint binarySearch (fuel : nat) (tokenAddress : Address)
         (lo hi firstBlock : Z) : M Z :=
  if lo <=? hi then
    match fuel with
    | O => outOfFuel
    | S fuel' =>
        let mid := (lo + hi) / 2 in
        let! r := attempt (LogReader.fetchTransferLogs
                             client tokenAddress lo mid) in
        match r with
        | inl logs =>
            if (0 <? length logs)%nat then
              let earliest := earliestLogBlock logs in
              binarySearch fuel' tokenAddress lo (earliest - 1) earliest
            else
              binarySearch fuel' tokenAddress (mid + 1) hi firstBlock
        | inr _ =>
            binarySearch fuel' tokenAddress lo ((lo + hi) / 2) firstBlock
        end
    end
  else ret firstBlock.

(** [fuel] bounds the number of iterations of each of the two
    loops; neither loop has a bound of its own in the source. *)
Definition findFirstActiveBlock (fuel : nat) (tokenAddress : Address)
  : M Z :=
  let! latestBlock := liftResult (getBlockNumber client) in
  let! hit := scanBackward fuel tokenAddress
                (initialScanWindow cfg) latestBlock in
  match hit with
  | None => ret 0
  | Some (hitFromBlock, hitToBlock) =>
      binarySearch fuel tokenAddress hitFromBlock hitToBlock hitToBlock
  end.

End WithClient.

(** A synthetic transfer history: the blocks that hold a transfer of
    the token, one log each. *)
Definition historyLogs (blocks : list Z) (contract : Address) (b : Z)
  : list Log :=
  if existsb (Z.eqb b) blocks then [mkLog b "0xtransfer" 0] else [].

(** The chain of that history behind a provider that never fails, with
    its head at block [latest]. *)
Definition historyClient (blocks : list Z) (latest : Z) : Client :=
  LogReader.unrestrictedClient (historyLogs blocks) latest.

End FirstBlock.

(** ** AMM Simulator (src/metrics/buyback.ts) *)

Module Amm.

Inductive Mode := IDEAL | REALISTIC.
Inductive PriceAnchor := RESERVE | SPOT.

Record Assumptions := mkAssumptions {
  noExternalSells : bool;
  useCurrentLpReserves : bool;
  mode : Mode;
  sellPressureBpsPerStep : Z;
  priceAnchor : PriceAnchor;
  spotPriceAnchor : option float
}.

(** One entry of [priceTrajectory]; [elapsed] is the number of
    seconds the source renders into the label. *)
Record TrajectoryPoint := mkPoint {
  step : Z;
  price : float;
  tokensBought : Z;
  elapsed : Z
}.

Record BuybackSimulation := mkBuyback {
  budget : Z;
  amountPerStep : Z;
  remainderAmount : Z;
  steps : Z;
  stepIntervalSeconds : Z;
  totalTokensBought : Z;
  avgPrice : float;
  maxSlippage : float;
  initialPrice : float;
  priceTrajectory : list TrajectoryPoint;
  finalPrice : float;
  priceImpactPercent : float;
  reserveVirtual : Z;
  reserveToken : Z;
  assumptions : Assumptions
}.

Import BigInt.

Definition isIdeal (m : Mode) : bool :=
  match m with IDEAL => true | REALISTIC => false end.

(** Values fixed before the loop of [simulateBuyback] starts. *)
Record Params := mkParams {
  p_sellPressureBpsPerStep : Z;
  p_amountPerStep : Z;
  p_remainderAmount : Z;
  p_steps : Z;
  p_stepIntervalSeconds : Z;
  p_initialPriceRaw : float;
  p_priceScale : float
}.

(** The variables the loop updates. *)
Record LoopState := mkLoop {
  l_reserveVirtual : Z;
  l_reserveToken : Z;
  l_totalTokensBought : Z;
  l_totalSpent : Z;
  l_maxSlippage : float;
  l_trajectory : list TrajectoryPoint
}.

Definition buyAmountAt (P : Params) (i : Z) : Z :=
  if (i =? p_steps P - 1) && (p_remainderAmount P >? 0)
  then p_remainderAmount P else p_amountPerStep P.

(** Synthetic sell pressure of REALISTIC mode, applied to the
    reserves after a buy of [tokenOut]. *)
Definition applySellPressure (bps tokenOut : Z) (rv rt : Z)
  : option (Z * Z) :=
  if (bps >? 0) && (tokenOut >? 0) then
    let sellIn := Z.quot (tokenOut * bps) 10000 in
    if sellIn >? 0 then
      let kAfterBuy := rv * rt in
      let postSellReserveToken := rt + sellIn in
      match bigDiv kAfterBuy postSellReserveToken with
      | Some postSellReserveVirtual =>
          Some (postSellReserveVirtual, postSellReserveToken)
      | None => None
      end
    else Some (rv, rt)
  else Some (rv, rt).

(** Body of [for (let i = 0; i < steps; i++)]; [None] is a thrown
    [RangeError]. *)
Definition buybackStep (P : Params) (i : Z) (st : LoopState)
  : option LoopState :=
  let buyAmount := buyAmountAt P i in
  let k := l_reserveVirtual st * l_reserveToken st in
  let newReserveVirtual := l_reserveVirtual st + buyAmount in
  match bigDiv k newReserveVirtual with
  | None => None
  | Some newReserveToken =>
      let tokenOut := l_reserveToken st - newReserveToken in
      if tokenOut <=? 0 then Some st else
      match applySellPressure (p_sellPressureBpsPerStep P) tokenOut
                              newReserveVirtual newReserveToken with
      | None => None
      | Some (rv, rt) =>
          let currentPriceRaw := (Number rv / Number rt)%float in
          let currentPrice := (currentPriceRaw * p_priceScale P)%float in
          let slippage :=
            ((currentPriceRaw - p_initialPriceRaw P)
             / p_initialPriceRaw P)%float in
          Some {| l_reserveVirtual := rv;
                  l_reserveToken := rt;
                  l_totalTokensBought := l_totalTokensBought st + tokenOut;
                  l_totalSpent := l_totalSpent st + buyAmount;
                  l_maxSlippage :=
                    if (l_maxSlippage st <? slippage)%float
                    then slippage else l_maxSlippage st;
                  l_trajectory :=
                    l_trajectory st ++
                      [mkPoint (i + 1) currentPrice tokenOut
                               ((i + 1) * p_stepIntervalSeconds P)] |}
      end
  end.

(** [n] iterations of the loop starting at index [i]. *)
Fixpoint runSteps (P : Params) (n : nat) (i : Z) (st : LoopState)
  : option LoopState :=
  match n with
  | O => Some st
  | S n' =>
      match buybackStep P i st with
      | Some st' => runSteps P n' (i + 1) st'
      | None => None
      end
  end.

(** [typeof a === 'number' && Number.isFinite(a) && a > 0 &&
    initialPriceRaw > 0] *)
Definition shouldAnchor (anchor : option float) (initialPriceRaw : float)
  : bool :=
  match anchor with
  | Some a => is_finite a && (0 <? a)%float && (0 <? initialPriceRaw)%float
  | None => false
  end.

Definition sellPressureOf (m : Mode) : Z :=
  match m with REALISTIC => 3000 | IDEAL => 0 end.

Definition startReserves (reserve0 reserve1 : Z) (isToken0 : bool)
  : Z * Z :=
  (if isToken0 then reserve1 else reserve0,
   if isToken0 then reserve0 else reserve1).

(** The constants of a run that passed the guard.  The step count is
    a JavaScript number; the model keeps it exact, which it is below
    2^53. *)
Definition paramsOf (reserve0 reserve1 : Z) (isToken0 : bool)
           (amountPerStepIn totalTaxInput stepInterval : Z) (m : Mode)
           (anchor : option float) : Params :=
  let '(rv, rt) := startReserves reserve0 reserve1 isToken0 in
  let fullSteps := Z.quot totalTaxInput amountPerStepIn in
  let remainder := Z.rem totalTaxInput amountPerStepIn in
  let initialPriceRaw := (Number rv / Number rt)%float in
  {| p_sellPressureBpsPerStep := sellPressureOf m;
     p_amountPerStep := amountPerStepIn;
     p_remainderAmount := remainder;
     p_steps := fullSteps + (if remainder >? 0 then 1 else 0);
     p_stepIntervalSeconds := stepInterval;
     p_initialPriceRaw := initialPriceRaw;
     p_priceScale :=
       match anchor with
       | Some a => if shouldAnchor anchor initialPriceRaw
                   then (a / initialPriceRaw)%float else 1%float
       | None => 1%float
       end |}.

Definition startState (reserve0 reserve1 : Z) (isToken0 : bool)
  : LoopState :=
  let '(rv, rt) := startReserves reserve0 reserve1 isToken0 in
  mkLoop rv rt 0 0 0%float [].

Definition simulateBuyback (reserve0 reserve1 : Z) (isToken0 : bool)
           (amountPerStepIn totalTaxInput : Z) (stepInterval : Z)
           (m : Mode) (anchor : option float)
  : option BuybackSimulation :=
  let sellPressure := sellPressureOf m in
  if (amountPerStepIn =? 0) || (totalTaxInput =? 0)
     || (reserve0 =? 0) || (reserve1 =? 0)
  then
    Some {| budget := 0;
            amountPerStep := amountPerStepIn;
            remainderAmount := 0;
            steps := 0;
            stepIntervalSeconds := stepInterval;
            totalTokensBought := 0;
            avgPrice := 0%float;
            maxSlippage := 0%float;
            initialPrice := 0%float;
            priceTrajectory := [];
            finalPrice := 0%float;
            priceImpactPercent := 0%float;
            reserveVirtual := 0;
            reserveToken := 0;
            assumptions :=
              mkAssumptions (isIdeal m) true m sellPressure RESERVE None |}
  else
    let P := paramsOf reserve0 reserve1 isToken0 amountPerStepIn
                      totalTaxInput stepInterval m anchor in
    match runSteps P (Z.to_nat (p_steps P)) 0
                   (startState reserve0 reserve1 isToken0) with
    | None => None
    | Some st =>
        let initialPriceRaw := p_initialPriceRaw P in
        let anchored := shouldAnchor anchor initialPriceRaw in
        let finalPriceRaw :=
          (Number (l_reserveVirtual st) / Number (l_reserveToken st))%float in
        let avgPriceRaw :=
          if l_totalTokensBought st >? 0
          then (Number (l_totalSpent st)
                / Number (l_totalTokensBought st))%float
          else 0%float in
        Some {| budget := l_totalSpent st;
                amountPerStep := amountPerStepIn;
                remainderAmount := p_remainderAmount P;
                steps := p_steps P;
                stepIntervalSeconds := stepInterval;
                totalTokensBought := l_totalTokensBought st;
                avgPrice := (avgPriceRaw * p_priceScale P)%float;
                maxSlippage := l_maxSlippage st;
                initialPrice := (initialPriceRaw * p_priceScale P)%float;
                priceTrajectory := l_trajectory st;
                finalPrice := (finalPriceRaw * p_priceScale P)%float;
                priceImpactPercent :=
                  if (0 <? initialPriceRaw)%float
                  then ((finalPriceRaw - initialPriceRaw)
                        / initialPriceRaw * 100)%float
                  else 0%float;
                reserveVirtual := l_reserveVirtual st;
                reserveToken := l_reserveToken st;
                assumptions :=
                  mkAssumptions (isIdeal m) true m sellPressure
                    (if anchored then SPOT else RESERVE)
                    (if anchored then anchor else None) |}
    end.

Record DumpSimulationResult := mkDump {
  d_reserveVirtual : Z;
  d_reserveToken : Z;
  d_sellAmountToken : Z;
  d_virtualOut : Z;
  d_initialPrice : float;
  d_finalPrice : float;
  d_priceImpactPercent : float;
  d_requiredBuybackVirtual : Z
}.

Definition simulateDump (reserveVirtualIn reserveTokenIn sellAmountToken : Z)
  : option DumpSimulationResult :=
  if (reserveVirtualIn <=? 0) || (reserveTokenIn <=? 0)
     || (sellAmountToken <=? 0)
  then
    Some (mkDump reserveVirtualIn reserveTokenIn sellAmountToken
                 0 0%float 0%float 0%float 0)
  else
    let k := reserveVirtualIn * reserveTokenIn in
    let newReserveToken := reserveTokenIn + sellAmountToken in
    match bigDiv k newReserveToken with
    | None => None
    | Some newReserveVirtual =>
        let virtualOut :=
          if reserveVirtualIn >? newReserveVirtual
          then reserveVirtualIn - newReserveVirtual else 0 in
        let initialPrice :=
          (Number reserveVirtualIn / Number reserveTokenIn)%float in
        let finalPrice :=
          (Number newReserveVirtual / Number newReserveToken)%float in
        let priceImpactPercent :=
          if (0 <? initialPrice)%float
          then ((finalPrice - initialPrice) / initialPrice * 100)%float
          else 0%float in
        let requiredBuybackVirtual :=
          if newReserveVirtual <? reserveVirtualIn
          then reserveVirtualIn - newReserveVirtual else 0 in
        Some (mkDump reserveVirtualIn reserveTokenIn sellAmountToken
                     virtualOut initialPrice finalPrice priceImpactPercent
                     requiredBuybackVirtual)
    end.

(** *** Vocabulary of the constant-product property *)

(** Reserves a run reaches from positive starting reserves: the quote
    side stays positive, the token side may be bought down to zero. *)
Definition reachable (st : LoopState) : Prop :=
  0 < l_reserveVirtual st /\ 0 <= l_reserveToken st.

(** [reserveVirtual * reserveToken] *)
Definition product (st : LoopState) : Z :=
  l_reserveVirtual st * l_reserveToken st.

(** The reserve-implied price [reserveVirtual / reserveToken] of [st]
    is at most that of [st'], compared without dividing; a token
    reserve of zero in [st'] is a price of +infinity. *)
Definition priceLe (st st' : LoopState) : Prop :=
  l_reserveVirtual st * l_reserveToken st'
  <= l_reserveVirtual st' * l_reserveToken st.

(** Every field of a dump result is zero. *)
Definition allZeroDump (r : DumpSimulationResult) : Prop :=
  d_reserveVirtual r = 0 /\ d_reserveToken r = 0
  /\ d_sellAmountToken r = 0 /\ d_virtualOut r = 0
  /\ d_initialPrice r = 0%float /\ d_finalPrice r = 0%float
  /\ d_priceImpactPercent r = 0%float
  /\ d_requiredBuybackVirtual r = 0.

End Amm.

(** ** Graduation Detector (src/indexer/graduation.ts) *)

Module Graduation.
Import Rpc.

Record GraduationResult := mkResult {
  graduated : bool;
  pairAddress : option Address;
  token0 : option Address;
  token1 : option Address
}.

(** The contract reads [checkGraduation] performs; [inr] is a read
    that throws (missing function, revert, transport error). *)
Record Chain := mkChain {
  uniswapV2Pair : Address -> Address + RpcError;
  getCode : Address -> option string + RpcError;
  pairToken0 : Address -> Address + RpcError;
  pairToken1 : Address -> Address + RpcError;
  getReserves : Address -> (Z * Z * Z) + RpcError
}.

Definition ZERO_ADDRESS : Address := 0%N.

Definition notGraduated : GraduationResult :=
  mkResult false None None None.

(** [isContract] of src/chain/utils.ts: [!!code && code !== '0x']. *)
Definition isContract (chain : Chain) (a : Address) : bool + RpcError :=
  match getCode chain a with
  | inl (Some code) =>
      inl (negb (String.eqb code "") && negb (String.eqb code "0x"))
  | inl None => inl false
  | inr e => inr e
  end.

Definition checkGraduation (chain : Chain) (tokenAddress : Address)
  : GraduationResult :=
  match uniswapV2Pair chain tokenAddress with
  | inr _ => notGraduated
  | inl pairAddr =>
      if N.eqb pairAddr ZERO_ADDRESS then notGraduated else
      match isContract chain pairAddr with
      | inr _ => notGraduated
      | inl false => notGraduated
      | inl true =>
          match pairToken0 chain pairAddr, pairToken1 chain pairAddr,
                getReserves chain pairAddr with
          | inl t0, inl t1, inl (reserve0, reserve1, _) =>
              if (reserve0 =? 0) && (reserve1 =? 0)
              then mkResult false (Some pairAddr) (Some t0) (Some t1)
              else mkResult true (Some pairAddr) (Some t0) (Some t1)
          | _, _, _ => notGraduated
          end
      end
  end.

End Graduation.

(** ** JavaScript array helpers *)

Module JsArray.

(** [Array.prototype.sort] with a comparator is stable; [le x y]
    stands for [cmp(x, y) <= 0]. *)
Fixpoint insertBy {A} (le : A -> A -> bool) (x : A) (l : list A)
  : list A :=
  match l with
  | [] => [x]
  | y :: rest =>
      if le x y then x :: y :: rest else y :: insertBy le x rest
  end.

Definition sortBy {A} (le : A -> A -> bool) (l : list A) : list A :=
  fold_right (insertBy le) [] l.

End JsArray.

(** ** Tax Inflow Extractor (src/indexer/tax-tracker.ts) *)

Module TaxInflow.
Record t := mk {
  projectId : string;
  txHash : string;
  blockNumber : Z;
  ts : Z;
  token : Address;
  amount : Z;
  logIndex : Z
}.
End TaxInflow.

Module TaxTracker.

(** [Map<string, ParsedTransfer[]>], in insertion order. *)
Definition ByTx := list (string * list ParsedTransfer).

Fixpoint byTxGet (h : string) (m : ByTx) : option (list ParsedTransfer) :=
  match m with
  | [] => None
  | (k, l) :: rest => if String.eqb k h then Some l else byTxGet h rest
  end.

(** [if (!m.has(h)) m.set(h, []); m.get(h).push(t)] *)
Fixpoint byTxPush (h : string) (t : ParsedTransfer) (m : ByTx) : ByTx :=
  match m with
  | [] => [(h, [t])]
  | (k, l) :: rest =>
      if String.eqb k h then (k, l ++ [t]) :: rest
      else (k, l) :: byTxPush h t rest
  end.

Definition groupByTx (transfers : list ParsedTransfer) : ByTx :=
  fold_left (fun m t => byTxPush (txHash t) t m) transfers [].

(** [(a, b) => b.value > a.value ? 1 : b.value < a.value ? -1 : 0] *)
Definition byValueDesc (a b : ParsedTransfer) : Z :=
  if value b >? value a then 1
  else if value b <? value a then -1 else 0.

(** [`${v.txHash}:${v.logIndex}`] *)
Definition logKey (v : ParsedTransfer) : string * Z :=
  (txHash v, logIndex v).

(** The legs the split-tax rule selects in one transaction: the body
    of the loop over [tokenByTx] up to the point where the legs are
    recorded.  Empty when the transaction is passed over. *)
Definition splitTaxTransfers (normalizedRecipient : Address)
           (txTokenTransfers txVirtual : list ParsedTransfer)
  : list ParsedTransfer :=
  match txVirtual with
  | [] => []
  | _ =>
      match JsArray.sortBy (fun a b => byValueDesc a b <=? 0)
                           txTokenTransfers with
      | [] => []
      | tokenOut :: _ =>
          let marketLower := from tokenOut in
          let traderLower := to tokenOut in
          let hasMainBuyLeg :=
            existsb (fun v => N.eqb (from v) traderLower
                              && N.eqb (to v) marketLower
                              && (value v >? 0)) txVirtual in
          if negb hasMainBuyLeg then [] else
          List.filter (fun v => N.eqb (from v) traderLower
                                && negb (N.eqb (to v) marketLower)
                                && negb (N.eqb (to v) normalizedRecipient)
                                && (value v >? 0)) txVirtual
      end
  end.

Definition virtualInflow (projectId : string) (blockTimestamp : Z)
           (v : ParsedTransfer) : TaxInflow.t :=
  TaxInflow.mk projectId (txHash v) (blockNumber v) blockTimestamp
               VIRTUAL_ADDRESS (value v) (logIndex v).

Definition tokenInflow (projectId : string) (blockTimestamp : Z)
           (t : ParsedTransfer) : TaxInflow.t :=
  TaxInflow.mk projectId (txHash t) (blockNumber t) blockTimestamp
               (address t) (value t) (logIndex t).

(** State of the split-tax loop. *)
Record SplitState := mkSplit {
  specialSplitTaxTx : gset string;
  consumedVirtualLogKeys : gset (string * Z);
  splitLegs : list ParsedTransfer   (* legs pushed so far, in order *)
}.

Definition splitStep (normalizedRecipient : Address) (virtualByTx : ByTx)
           (st : SplitState) (entry : string * list ParsedTransfer)
  : SplitState :=
  let '(h, txTokenTransfers) := entry in
  let txVirtual := default [] (byTxGet h virtualByTx) in
  match splitTaxTransfers normalizedRecipient txTokenTransfers txVirtual with
  | [] => st
  | legs =>
      {| specialSplitTaxTx := {[ h ]} ∪ specialSplitTaxTx st;
         consumedVirtualLogKeys :=
           list_to_set (map logKey legs) ∪ consumedVirtualLogKeys st;
         splitLegs := splitLegs st ++ legs |}
  end.

(** The first loop of [extractTaxInflows]. *)
Definition runSplitRule (tokenTransfers virtualTransfers : list ParsedTransfer)
           (normalizedRecipient : Address) : SplitState :=
  fold_left (splitStep normalizedRecipient (groupByTx virtualTransfers))
            (groupByTx tokenTransfers)
            (mkSplit ∅ ∅ []).

Definition extractTaxInflows
           (tokenTransfers virtualTransfers : list ParsedTransfer)
           (taxRecipient : Address) (projectId : string)
           (blockTimestamp : Z) : list TaxInflow.t :=
  let normalizedRecipient := taxRecipient in
  let tokenTxHashes : gset string :=
    list_to_set (map txHash tokenTransfers) in
  let st := runSplitRule tokenTransfers virtualTransfers
                         normalizedRecipient in
  map (virtualInflow projectId blockTimestamp) (splitLegs st)
  ++ map (tokenInflow projectId blockTimestamp)
       (List.filter (fun t => N.eqb (to t) normalizedRecipient) tokenTransfers)
  ++ map (virtualInflow projectId blockTimestamp)
       (List.filter (fun v =>
                       negb (bool_decide (logKey v ∈ consumedVirtualLogKeys st))
                       && negb (bool_decide (txHash v ∈ specialSplitTaxTx st))
                       && N.eqb (to v) normalizedRecipient
                       && bool_decide (txHash v ∈ tokenTxHashes))
               virtualTransfers).

(** *** Vocabulary of the split-tax property *)

(** [t] belongs to transaction [h]. *)
Definition inTx (h : string) (t : ParsedTransfer) : bool :=
  String.eqb (txHash t) h.

(** A [Map] entry exists only for a non-empty group. *)
Definition nonEmpty {A} (l : list A) : option (list A) :=
  match l with [] => None | _ => Some l end.

End TaxTracker.

(** ** Cost Ledger (src/metrics/address-cost.ts, src/metrics/cost-summary.ts) *)

Module AddressCost.
(** A row of [address_costs].  [spentQuoteGross] is the legacy name
    of the NET spend, [spentQuoteGrossActual] the GROSS spend. *)
Record t := mk {
  projectId : string;
  address : Address;
  spentQuoteGross : Z;
  spentQuoteGrossActual : Z;
  tokensReceived : Z;
  tokensSold : Z;
  quoteReceived : Z;
  avgCost : option float;
  avgCostGross : option float;
  lastUpdatedBlock : option Z
}.
End AddressCost.

Module CostLedger.

(** The [address_costs] table, rows in insertion order, at most one
    row per (project, address). *)
Definition Table := list AddressCost.t.

Definition isRow (projectId : string) (a : Address) (r : AddressCost.t)
  : bool :=
  String.eqb (AddressCost.projectId r) projectId
  && N.eqb (AddressCost.address r) a.

Definition selectRow (projectId : string) (a : Address) (tbl : Table)
  : option AddressCost.t :=
  List.find (isRow projectId a) tbl.

(** [db.update(...).set(row).where(project, address)] *)
Definition updateRow (row : AddressCost.t) (tbl : Table) : Table :=
  map (fun r => if isRow (AddressCost.projectId row)
                         (AddressCost.address row) r
                then row else r) tbl.

Definition updateAddressCost (trade : Trade.t) (tbl : Table) : Table :=
  let projectId := Trade.projectId trade in
  let trader := Trade.trader trade in
  let existing := selectRow projectId trader tbl in
  let field (f : AddressCost.t -> Z) :=
    match existing with Some r => f r | None => 0 end in
  let spentQuoteNet := field AddressCost.spentQuoteGross in
  let spentQuoteGrossActual := field AddressCost.spentQuoteGrossActual in
  let tokensReceived := field AddressCost.tokensReceived in
  let tokensSold := field AddressCost.tokensSold in
  let quoteReceived := field AddressCost.quoteReceived in
  let '(spentQuoteNet, spentQuoteGrossActual, tokensReceived,
        tokensSold, quoteReceived) :=
    match Trade.side trade, Trade.quoteIn trade, Trade.tokenOut trade,
          Trade.tokenIn trade, Trade.quoteOut trade with
    | BUY, Some quoteIn, Some tokenOut, _, _ =>
        let gross := match Trade.quoteInGross trade with
                     | Some g => g
                     | None => quoteIn
                     end in
        (spentQuoteNet + quoteIn, spentQuoteGrossActual + gross,
         tokensReceived + tokenOut, tokensSold, quoteReceived)
    | SELL, _, _, Some tokenIn, Some quoteOut =>
        (spentQuoteNet, spentQuoteGrossActual, tokensReceived,
         tokensSold + tokenIn, quoteReceived + quoteOut)
    | _, _, _, _, _ =>
        (spentQuoteNet, spentQuoteGrossActual, tokensReceived,
         tokensSold, quoteReceived)
    end in
  let avgCost :=
    if tokensReceived >? 0
    then Some (Number spentQuoteNet / Number tokensReceived)%float
    else None in
  let avgCostGross :=
    if tokensReceived >? 0
    then Some (Number spentQuoteGrossActual / Number tokensReceived)%float
    else None in
  let row :=
    AddressCost.mk projectId trader spentQuoteNet spentQuoteGrossActual
                   tokensReceived tokensSold quoteReceived
                   avgCost avgCostGross
                   (Some (Trade.blockNumber trade)) in
  match existing with
  | Some _ => updateRow row tbl
  | None => tbl ++ [row]
  end.

Definition updateAddressCosts (trades : list Trade.t) (tbl : Table)
  : Table :=
  fold_left (fun t trade => updateAddressCost trade t) trades tbl.

(** *** computeCostSummary *)

Record CostSummary := mkSummary {
  weightedAvgCost : option float;
  equalWeightAvgCost : option float;
  p50 : option float;
  p75 : option float;
  p90 : option float;
  addressCount : Z
}.

Definition emptySummary : CostSummary :=
  mkSummary None None None None None 0.

(** The [token_balances] table as the look-up [balanceMap] built
    from it: balance by (project, address). *)
Definition Balances := gmap (string * Address) Z.

(** [tokensSold > 0n ? (spentGrossActual * tokensSold) / tokensReceived
    : 0n]; [None] is the [RangeError] of a division by zero.
    [spentGrossActual] is [row.spentQuoteGrossActual ||
    row.spentQuoteGross]: the column is a non-empty decimal string,
    which is truthy, so it is always [spentQuoteGrossActual]. *)
Definition soldCostGross (row : AddressCost.t) : option Z :=
  if AddressCost.tokensSold row >? 0
  then BigInt.bigDiv (AddressCost.spentQuoteGrossActual row
                      * AddressCost.tokensSold row)
                     (AddressCost.tokensReceived row)
  else Some 0.

(** [spentGrossActual > soldCostGross ? spentGrossActual -
    soldCostGross : 0n] *)
Definition remainingCostGross (row : AddressCost.t) : option Z :=
  match soldCostGross row with
  | Some sold =>
      Some (if AddressCost.spentQuoteGrossActual row >? sold
            then AddressCost.spentQuoteGrossActual row - sold
            else 0)
  | None => None
  end.

Definition remainingTokens (row : AddressCost.t) : Z :=
  if AddressCost.tokensReceived row >? AddressCost.tokensSold row
  then AddressCost.tokensReceived row - AddressCost.tokensSold row
  else 0.

(** The accumulators of the loop over [costRows]. *)
Record Acc := mkAcc {
  totalRemainingCostGross : Z;
  totalRemainingTokens : Z;
  openCosts : list float
}.

(** Body of the loop over [costRows]; a row that hits a [continue]
    leaves the accumulators unchanged, [None] is a thrown error. *)
Definition summaryStep (balances : Balances) (acc : Acc)
           (row : AddressCost.t) : option Acc :=
  let balance :=
    default 0 (balances !! (AddressCost.projectId row,
                            AddressCost.address row)) in
  if balance <=? 0 then Some acc else
  if AddressCost.tokensReceived row <=? 0 then Some acc else
  if remainingTokens row <=? 0 then Some acc else
  match remainingCostGross row with
  | None => None
  | Some remaining =>
      if remaining <=? 0 then Some acc else
      let openAvgCostGross :=
        (Number remaining / Number (remainingTokens row))%float in
      Some {| totalRemainingCostGross :=
                totalRemainingCostGross acc + remaining;
              totalRemainingTokens :=
                totalRemainingTokens acc + remainingTokens row;
              openCosts :=
                if is_finite openAvgCostGross
                   && (0 <? openAvgCostGross)%float
                then openCosts acc ++ [openAvgCostGross]
                else openCosts acc |}
  end.

Definition costRowsOf (projectId : string) (tbl : Table) : Table :=
  List.filter (fun r => String.eqb (AddressCost.projectId r) projectId) tbl.

Fixpoint accumulateFrom (balances : Balances) (rows : Table) (acc : Acc)
  : option Acc :=
  match rows with
  | [] => Some acc
  | row :: rest =>
      match summaryStep balances acc row with
      | Some acc' => accumulateFrom balances rest acc'
      | None => None
      end
  end.

Definition accumulate (balances : Balances) (rows : Table) : option Acc :=
  accumulateFrom balances rows (mkAcc 0 0 []).

(** [Math.ceil] on a finite number; the call site only passes
    finite numbers. *)
Definition Math_ceil (x : float) : Z :=
  match Prim2SF x with
  | S754_finite s m e =>
      let mag := if 0 <=? e then Z.pos m * 2 ^ e
                 else if s then Z.pos m / 2 ^ (- e)
                      else - ((- Z.pos m) / 2 ^ (- e)) in
      if s then - mag else mag
  | _ => 0
  end.

Definition percentile (arr : list float) (p : Z) : option float :=
  match arr with
  | [] => None
  | _ =>
      let idx :=
        Math_ceil (Number p / 100 * Number (Z.of_nat (length arr)))%float
        - 1 in
      nth_error arr (Z.to_nat (Z.max 0 idx))
  end.

Definition computeCostSummary (projectId : string) (tbl : Table)
           (balances : Balances) : option CostSummary :=
  let costRows := costRowsOf projectId tbl in
  match costRows with
  | [] => Some emptySummary
  | _ =>
      match accumulate balances costRows with
      | None => None
      | Some acc =>
          let costs := openCosts acc in
          if (length costs =? 0)%nat || (totalRemainingTokens acc <=? 0)
          then Some emptySummary
          else
            let sorted :=
              JsArray.sortBy (fun a b => (a - b <=? 0)%float) costs in
            Some {| weightedAvgCost :=
                      Some (Number (totalRemainingCostGross acc)
                            / Number (totalRemainingTokens acc))%float;
                    equalWeightAvgCost :=
                      Some (fold_left PrimFloat.add costs 0
                            / Number (Z.of_nat (length costs)))%float;
                    p50 := percentile sorted 50;
                    p75 := percentile sorted 75;
                    p90 := percentile sorted 90;
                    addressCount := Z.of_nat (length costs) |}
      end
  end.

End CostLedger.

(** ** Indexer Orchestrator: the per-block body of [processBlockRange]
    (src/indexer/index.ts) *)

Module Orchestrator.

(** [WsTrade] and [WsWhaleAlert] of src/types.ts. *)
Inductive WsEvent :=
| WsTrade (projectId : string) (trade : Trade.t)
| WsWhaleAlert (projectId : string) (address : Address) (quoteIn : Z)
               (side : Side).

(** [config.whaleThresholdSingleTrade]: 1000 VIRTUAL in wei. *)
Definition whaleThresholdSingleTrade : Z := 1000000000000000000000.

(** [BlockData] of src/indexer/block-scanner.ts. *)
Record BlockData := mkBlock {
  b_blockNumber : Z;
  b_timestamp : Z;
  b_tokenTransfers : list ParsedTransfer;
  b_virtualTransfers : list ParsedTransfer
}.

(** The columns of a [markets] row the block loop reads. *)
Record Market := mkMarket {
  m_marketAddress : Address;
  m_endBlock : option Z
}.

(** The tables the block loop writes, and the events handed to
    [eventBus.emit], oldest first. *)
Record State := mkState {
  trades : gmap (string * Z) Trade.t;        (* unique (tx_hash, log_index) *)
  taxInflows : gmap (string * Z) TaxInflow.t; (* unique (tx_hash, log_index) *)
  addressCosts : CostLedger.Table;
  emitted : list WsEvent
}.

Definition emptyState : State := mkState ∅ ∅ [] [].

(** [db.insert(schema.trades).values(trade).onConflictDoNothing().run()]:
    the number of rows changed and the table afterwards. *)
Definition insertTrade (trade : Trade.t) (tbl : gmap (string * Z) Trade.t)
  : Z * gmap (string * Z) Trade.t :=
  let key := (Trade.txHash trade, Trade.logIndex trade) in
  match tbl !! key with
  | Some _ => (0, tbl)
  | None => (1, <[key := trade]> tbl)
  end.

Definition insertTaxInflow (inflow : TaxInflow.t)
           (tbl : gmap (string * Z) TaxInflow.t)
  : gmap (string * Z) TaxInflow.t :=
  let key := (TaxInflow.txHash inflow, TaxInflow.logIndex inflow) in
  match tbl !! key with
  | Some _ => tbl
  | None => <[key := inflow]> tbl
  end.

(** The events one pass of the trade loop emits for [trade]. *)
Definition eventsFor (projectId : string) (trade : Trade.t)
  : list WsEvent :=
  let quoteAmount :=
    match Trade.quoteInGross trade, Trade.quoteIn trade with
    | Some g, _ => g
    | None, Some q => q
    | None, None => 0
    end in
  WsTrade projectId trade ::
  (if quoteAmount >=? whaleThresholdSingleTrade
   then [WsWhaleAlert projectId (Trade.trader trade) quoteAmount
                      (Trade.side trade)]
   else []).

(** Body of [for (const trade of allTrades)]: the state and the
    list [insertedInternalTrades]. *)
Definition insertAndEmit (projectId : string)
           (acc : State * list Trade.t) (trade : Trade.t)
  : State * list Trade.t :=
  let '(st, inserted) := acc in
  let '(changes, tbl) := insertTrade trade (trades st) in
  (mkState tbl (taxInflows st) (addressCosts st)
           (emitted st ++ eventsFor projectId trade),
   if changes >? 0 then inserted ++ [trade] else inserted).

(** The insert loop followed by the cost update of the newly
    inserted trades; shared by the internal and the external path. *)
Definition insertTrades (projectId : string) (allTrades : list Trade.t)
           (st : State) : State * list Trade.t :=
  let '(st1, inserted) :=
    fold_left (insertAndEmit projectId) allTrades (st, []) in
  (match inserted with
   | [] => st1
   | _ => mkState (trades st1) (taxInflows st1)
                  (CostLedger.updateAddressCosts inserted
                                                 (addressCosts st1))
                  (emitted st1)
   end, inserted).

Definition marketCovers (market : Market) (blockNumber : Z) : bool :=
  match m_endBlock market with
  | None => true
  | Some endBlock => (endBlock =? 0) || (blockNumber <=? endBlock)
  end.

(** Body of [for (const block of blockData)], without the token
    balance bookkeeping; [None] when [reconstructTrades] throws. *)
Definition processBlock (projectId : string) (tokenAddress : Address)
           (internalMarket : option Market) (taxRecipient : option Address)
           (st : State) (block : BlockData) : option (State * Z) :=
  let internalTrades :=
    match internalMarket with
    | Some market =>
        if marketCovers market (b_blockNumber block) then
          TradeParser.reconstructTrades
            (b_tokenTransfers block) (b_virtualTransfers block)
            (m_marketAddress market) tokenAddress projectId INTERNAL
            (b_timestamp block)
        else Some []
    | None => Some []
    end in
  match internalTrades with
  | None => None
  | Some allTrades =>
      let st1 :=
        match taxRecipient with
        | Some recipient =>
            mkState (trades st)
              (fold_left (fun tbl inflow => insertTaxInflow inflow tbl)
                 (TaxTracker.extractTaxInflows
                    (b_tokenTransfers block) (b_virtualTransfers block)
                    recipient projectId (b_timestamp block))
                 (taxInflows st))
              (addressCosts st) (emitted st)
        | None => st
        end in
      let '(st2, inserted) := insertTrades projectId allTrades st1 in
      Some (st2, Z.of_nat (length inserted))
  end.

(** The block loop: the final state and [totalTrades]. *)
Fixpoint processBlocks (projectId : string) (tokenAddress : Address)
         (internalMarket : option Market) (taxRecipient : option Address)
         (blockData : list BlockData) (st : State) (totalTrades : Z)
  : option (State * Z) :=
  match blockData with
  | [] => Some (st, totalTrades)
  | block :: rest =>
      match processBlock projectId tokenAddress internalMarket
                         taxRecipient st block with
      | None => None
      | Some (st', n) =>
          processBlocks projectId tokenAddress internalMarket taxRecipient
                        rest st' (totalTrades + n)
      end
  end.

Definition tradeEvents (events : list WsEvent) : list Trade.t :=
  flat_map (fun e => match e with
                     | WsTrade _ trade => [trade]
                     | WsWhaleAlert _ _ _ _ => []
                     end) events.

End Orchestrator.

(** ** Concrete inputs of the scenarios *)

Module Scenario.
Import Rpc.

Definition market : Address := 100%N.
Definition trader : Address := 200%N.
Definition taxAddr : Address := 300%N.
Definition router : Address := 400%N.
Definition tokenAddress : Address := 500%N.
Definition bystander : Address := 999%N.

(** The simple buy: 1000 tokens out, 99 quote to the market, 1 quote
    to the tax address, all in transaction ["0xa"]. *)
Definition buyTokenTransfers : list ParsedTransfer :=
  [mkTransfer tokenAddress market trader 1000 "0xa" 3 77].

Definition buyVirtualTransfers : list ParsedTransfer :=
  [mkTransfer VIRTUAL_ADDRESS trader market 99 "0xa" 1 77;
   mkTransfer VIRTUAL_ADDRESS trader taxAddr 1 "0xa" 2 77].

(** A buy whose quote reaches the market from a router while the
    trader only pays a side leg of 1. *)
Definition routedVirtualTransfers : list ParsedTransfer :=
  [mkTransfer VIRTUAL_ADDRESS router market 100 "0xa" 1 77;
   mkTransfer VIRTUAL_ADDRESS trader taxAddr 1 "0xa" 2 77].

(** A buy with a side leg to an address that is neither the market,
    nor the tax recipient, nor a launch-path address. *)
Definition sideLeg : ParsedTransfer :=
  mkTransfer VIRTUAL_ADDRESS trader bystander 1 "0xa" 2 77.

Definition sideLegVirtualTransfers : list ParsedTransfer :=
  [mkTransfer VIRTUAL_ADDRESS trader market 99 "0xa" 1 77; sideLeg].

(** One block with two logs; nothing else on the chain. *)
Definition burstChain (c : Address) (b : Z) : list Log :=
  if b =? 5 then [mkLog 5 "0xa" 0; mkLog 5 "0xa" 1] else [].

(** One log in block 5 and one in block 6. *)
Definition pairOfBlocksChain (c : Address) (b : Z) : list Log :=
  if (b =? 5) || (b =? 6) then [mkLog b "0xa" 0] else [].

(** Two logs in each of the blocks 2, 5 and 8. *)
Definition spreadChain (c : Address) (b : Z) : list Log :=
  if (b =? 2) || (b =? 5) || (b =? 8)
  then [mkLog b "0xa" 0; mkLog b "0xa" 1] else [].

(** A pair contract whose reserves are [(reserve0, reserve1)]. *)
Definition pairChain (reserve0 reserve1 : Z) : Graduation.Chain :=
  Graduation.mkChain
    (fun _ => inl 900%N) (fun _ => inl (Some "0x6080"%string))
    (fun _ => inl tokenAddress) (fun _ => inl VIRTUAL_ADDRESS)
    (fun _ => inl (reserve0, reserve1, 0)).

Definition sampleBlock : Orchestrator.BlockData :=
  Orchestrator.mkBlock 77 1700 buyTokenTransfers buyVirtualTransfers.

Definition sampleMarket : Orchestrator.Market :=
  Orchestrator.mkMarket market None.

(** One run of the block loop over [sampleBlock]. *)
Definition processSampleBlock (st : Orchestrator.State)
  : option (Orchestrator.State * Z) :=
  Orchestrator.processBlocks "p" tokenAddress (Some sampleMarket) None
                             [sampleBlock] st 0.

Definition sampleTrade : Trade.t :=
  Trade.mk "p" INTERNAL market "0xa" 1 77 1700 trader BUY
           (Some 99) (Some 100) None None (Some 1000) (Some 0.099%float).

(** A sale with no purchase before it. *)
Definition loneSell : Trade.t :=
  Trade.mk "p" INTERNAL market "0xb" 4 78 1701 trader SELL
           None None (Some 7) (Some 500) None (Some 0.014%float).

End Scenario.

(** ** Vocabulary of the further properties of the trade reconstructor *)

Module TradeShape.
Import TradeParser.

(** The columns of a purchase: quote paid (net and gross) and tokens
    received, all positive, nothing on the sale side. *)
Definition isBuy (t : Trade.t) : Prop :=
  Trade.side t = BUY
  /\ exists q gr o,
      Trade.quoteIn t = Some q /\ Trade.quoteInGross t = Some gr
      /\ Trade.tokenOut t = Some o
      /\ Trade.quoteOut t = None /\ Trade.tokenIn t = None
      /\ 0 < q /\ 0 < gr /\ 0 < o
      /\ Trade.priceQuotePerToken t = Some (price q o).

(** The columns of a sale. *)
Definition isSell (t : Trade.t) : Prop :=
  Trade.side t = SELL
  /\ exists qo ti,
      Trade.quoteOut t = Some qo /\ Trade.tokenIn t = Some ti
      /\ Trade.quoteIn t = None /\ Trade.quoteInGross t = None
      /\ Trade.tokenOut t = None
      /\ 0 < qo /\ 0 < ti
      /\ Trade.priceQuotePerToken t = Some (price qo ti).

(** A group of transaction [h] built from the inputs [ts] and [vs]:
    it holds transfers of [h] only, taken from the inputs, and at
    least one of them touches the market. *)
Definition groupOf (m : Address) (ts vs : list ParsedTransfer)
           (e : string * LaunchPath.TxTransferGroup) : Prop :=
  (forall x, In x (LaunchPath.token (snd e)) -> In x ts /\ txHash x = fst e)
  /\ (forall x, In x (LaunchPath.virtual (snd e)) ->
                In x vs /\ txHash x = fst e)
  /\ exists x, In x (LaunchPath.token (snd e) ++ LaunchPath.virtual (snd e))
               /\ touchesMarket m x = true.

End TradeShape.

(** ** Vocabulary of the launch-path properties *)

Module LaunchPathSums.
Import LaunchPath.

(** The quote transfers [inferLaunchPathBuyQuote] counts: sent by the
    trader to a launch-path address. *)
Definition toLaunchPath (trader : Address) (v : ParsedTransfer) : bool :=
  N.eqb (from v) trader && isLaunchPath (to v).

(** Those of them that go to the net address. *)
Definition toNetAddress (trader : Address) (v : ParsedTransfer) : bool :=
  N.eqb (from v) trader && N.eqb (to v) LAUNCH_PATH_NET_ADDRESS.

End LaunchPathSums.

(** ** Sums over lists *)

Module Sums.

(** The sum of a list of amounts. *)
Definition total (xs : list Z) : Z := fold_right Z.add 0 xs.

End Sums.

(** ** Retry with exponential backoff (src/chain/utils.ts) *)

Module Retry.
Import Rpc.

Section WithFn.
Context {A : Type}.

(** [fn k] is the call the loop makes at iteration [k]: the closure
    takes no argument, and what it does depends on when it runs. *)
Variable fn : Z -> M A.

(** [for (let attempt = 0; attempt <= maxRetries; attempt++)], entered
    with [n] iterations left at index [attempt].  The delay
    [baseDelayMs * Math.pow(2, attempt)] is a JavaScript number; the
    model keeps it exact, which it is below 2^53. *)
Fixpoint withRetryLoop (n : nat) (attemptNo : Z)
         (maxRetries baseDelayMs : Z) : M A :=
  match n with
  | O => throw (mkError "Unreachable")
  | S n' =>
      let! r := attempt (fn attemptNo) in
      match r with
      | inl a => ret a
      | inr error =>
          if attemptNo =? maxRetries then throw error
          else
            let delay := baseDelayMs * 2 ^ attemptNo in
            run! sleep delay in
            withRetryLoop n' (attemptNo + 1) maxRetries baseDelayMs
      end
  end.

Definition withRetry (maxRetries baseDelayMs : Z) : M A :=
  withRetryLoop (Z.to_nat (maxRetries + 1)) 0 maxRetries baseDelayMs.

End WithFn.

(** The delays slept before attempt [k]: [baseDelayMs * 2^j] for
    [j = 0 .. k-1], in that order. *)
Definition backoff (baseDelayMs : Z) (k : Z) : list Z :=
  map (fun j => baseDelayMs * 2 ^ j) (LogReader.blocksFrom (Z.to_nat k) 0).

(** A call that fails at the attempts before [k] and succeeds from
    attempt [k] on, without any effect of its own. *)
Definition failsUntil {A} (k : Z) (e : Z -> RpcError) (a : A) (j : Z)
  : M A :=
  if j <? k then throw (e j) else ret a.

End Retry.

(** ** Swap log reader (src/indexer/block-scanner.ts) *)

Module SwapLogs.
Import Rpc.

(** The test [fetchSwapLogs] applies to the message of a failed
    request. *)
Definition isRangeError (msg : string) : bool :=
  LogReader.includes "range" msg
  || LogReader.includes "limit" msg
  || LogReader.includes "too many" msg.

Section WithProvider.

(** [client.getLogs] with the [Swap] event filter. *)
Variable getSwapLogs : Address -> Z -> Z -> list Log + RpcError.

(** [fetchSwapLogs], recursion bounded by [fuel]; the block numbers
    are JavaScript numbers and [Math.floor((fromBlock + toBlock) / 2)]
    is the floor of the exact quotient. *)
Fixpoint fetchSwapLogsFuel (fuel : nat) (pairAddress : Address)
         (fromBlock toBlock : Z) : M (list Log) :=
  let! r := attempt (liftResult (getSwapLogs pairAddress fromBlock toBlock)) in
  match r with
  | inl logs => ret logs
  | inr error =>
      if isRangeError (message error) then
        if toBlock - fromBlock <=? 1 then ret []
        else
          match fuel with
          | O => outOfFuel
          | S fuel' =>
              let mid := (fromBlock + toBlock) / 2 in
              let! left :=
                fetchSwapLogsFuel fuel' pairAddress fromBlock mid in
              let! right :=
                fetchSwapLogsFuel fuel' pairAddress (mid + 1) toBlock in
              ret (left ++ right)
          end
      else throw error
  end.

(** Every split strictly shortens the range. *)
Definition fetchSwapLogs (pairAddress : Address) (fromBlock toBlock : Z)
  : M (list Log) :=
  fetchSwapLogsFuel (Z.to_nat (toBlock - fromBlock))
                    pairAddress fromBlock toBlock.

End WithProvider.

End SwapLogs.

(** ** Token balances (src/metrics/token-balance.ts) *)

Module TokenBalance.

(** The columns [updateTokenBalances] writes in a row of
    [token_balances]; the row is keyed by (project, address). *)
Record Row := mkRow {
  balance : Z;
  lastUpdatedBlock : Z
}.

Definition Table := gmap (string * Address) Row.

Definition ZERO_ADDRESS : Address := 0%N.

(** [deltas : Map<string, bigint>], in insertion order. *)
Definition Deltas := list (Address * Z).

(** [deltas.get(a) || 0n] *)
Fixpoint deltasGet (a : Address) (d : Deltas) : Z :=
  match d with
  | [] => 0
  | (k, v) :: rest => if N.eqb k a then v else deltasGet a rest
  end.

(** [Map.set]: an existing key keeps its position. *)
Fixpoint deltasSet (a : Address) (v : Z) (d : Deltas) : Deltas :=
  match d with
  | [] => [(a, v)]
  | (k, v0) :: rest =>
      if N.eqb k a then (k, v) :: rest else (k, v0) :: deltasSet a v rest
  end.

(** Body of the loop over [tokenTransfers]. *)
Definition applyTransfer (d : Deltas) (transfer : ParsedTransfer) : Deltas :=
  if value transfer =? 0 then d else
  let d1 :=
    if negb (N.eqb (from transfer) ZERO_ADDRESS)
    then deltasSet (from transfer)
                   (deltasGet (from transfer) d - value transfer) d
    else d in
  if negb (N.eqb (to transfer) ZERO_ADDRESS)
  then deltasSet (to transfer) (deltasGet (to transfer) d1 + value transfer) d1
  else d1.

(** [Math.max(...tokenTransfers.map((t) => t.blockNumber))] on a
    non-empty list. *)
Definition maxBlockOf (tokenTransfers : list ParsedTransfer) : Z :=
  match tokenTransfers with
  | [] => 0
  | t :: rest => fold_left Z.max (map blockNumber rest) (blockNumber t)
  end.

(** Body of the loop over [deltas]. *)
Definition flushDelta (projectId : string) (maxBlock : Z) (tbl : Table)
           (entry : Address * Z) : Table :=
  let '(a, delta) := entry in
  if delta =? 0 then tbl else
  match tbl !! (projectId, a) with
  | Some existing =>
      let newBalance := balance existing + delta in
      let finalBalance := if newBalance <? 0 then 0 else newBalance in
      <[(projectId, a) := mkRow finalBalance maxBlock]> tbl
  | None =>
      let finalBalance := if delta <? 0 then 0 else delta in
      <[(projectId, a) := mkRow finalBalance maxBlock]> tbl
  end.

Definition updateTokenBalances (projectId : string)
           (tokenTransfers : list ParsedTransfer) (tbl : Table) : Table :=
  match tokenTransfers with
  | [] => tbl
  | _ =>
      let deltas := fold_left applyTransfer tokenTransfers [] in
      let maxBlock := maxBlockOf tokenTransfers in
      fold_left (flushDelta projectId maxBlock) deltas tbl
  end.

(** *** Vocabulary of the balance properties *)

(** What one transfer moves into [a], less what it moves out of it. *)
Definition contribution (a : Address) (t : ParsedTransfer) : Z :=
  (if N.eqb (to t) a then value t else 0)
  - (if N.eqb (from t) a then value t else 0).

(** The same over a list of transfers. *)
Definition netFlow (a : Address) (tokenTransfers : list ParsedTransfer) : Z :=
  Sums.total (map (contribution a) tokenTransfers).

(** The balance stored for [a], zero when there is no row. *)
Definition balanceOf (projectId : string) (a : Address) (tbl : Table) : Z :=
  match tbl !! (projectId, a) with
  | Some row => balance row
  | None => 0
  end.

(** The row the flush leaves for [a] after a non-zero [delta]: the
    balance is floored at zero. *)
Definition flushed (projectId : string) (maxBlock : Z) (tbl : Table)
           (a : Address) (delta : Z) : Row :=
  mkRow (Z.max 0 (balanceOf projectId a tbl + delta)) maxBlock.

End TokenBalance.

(** ** Grouping the transfers of a range by block
    (src/indexer/block-scanner.ts, [scanBlockRange]) *)

Module BlockScanner.
Import Orchestrator.

(** [blockMap : Map<number, BlockData>], in insertion order. *)
Definition BlockMap := list (Z * BlockData).

Fixpoint blockMapHas (b : Z) (m : BlockMap) : bool :=
  match m with
  | [] => false
  | (k, _) :: rest => (k =? b) || blockMapHas b rest
  end.

(** [f(blockMap.get(b))] for a mutation [f] of the entry. *)
Fixpoint blockMapUpdate (b : Z) (f : BlockData -> BlockData) (m : BlockMap)
  : BlockMap :=
  match m with
  | [] => []
  | (k, blk) :: rest =>
      if k =? b then (k, f blk) :: rest
      else (k, blk) :: blockMapUpdate b f rest
  end.

(** [ensureBlock]: a missing block is entered with timestamp 0 and
    no transfers. *)
Definition ensureBlock (b : Z) (m : BlockMap) : BlockMap :=
  if blockMapHas b m then m else m ++ [(b, mkBlock b 0 [] [])].

(** [ensureBlock(t.blockNumber).tokenTransfers.push(t)] *)
Definition pushToken (m : BlockMap) (t : ParsedTransfer) : BlockMap :=
  blockMapUpdate (blockNumber t)
    (fun blk => mkBlock (b_blockNumber blk) (b_timestamp blk)
                        (b_tokenTransfers blk ++ [t])
                        (b_virtualTransfers blk))
    (ensureBlock (blockNumber t) m).

(** [ensureBlock(v.blockNumber).virtualTransfers.push(v)] *)
Definition pushVirtual (m : BlockMap) (v : ParsedTransfer) : BlockMap :=
  blockMapUpdate (blockNumber v)
    (fun blk => mkBlock (b_blockNumber blk) (b_timestamp blk)
                        (b_tokenTransfers blk)
                        (b_virtualTransfers blk ++ [v]))
    (ensureBlock (blockNumber v) m).

(** [(a, b) => a.blockNumber - b.blockNumber], as [cmp(a, b) <= 0]. *)
Definition byBlockNumber (a b : BlockData) : bool :=
  b_blockNumber a - b_blockNumber b <=? 0.

(** The part of [scanBlockRange] after the logs have been fetched and
    parsed.  [timestampOf b] is what the request for block [b] yields:
    the timestamp of the block, or the clock when the request
    fails. *)
Definition groupByBlock (timestampOf : Z -> Z)
           (tokenTransfers virtualTransfers : list ParsedTransfer)
  : list BlockData :=
  let blockMap :=
    fold_left pushVirtual virtualTransfers
              (fold_left pushToken tokenTransfers []) in
  let blocks := JsArray.sortBy byBlockNumber (map snd blockMap) in
  map (fun blk => mkBlock (b_blockNumber blk)
                          (timestampOf (b_blockNumber blk))
                          (b_tokenTransfers blk) (b_virtualTransfers blk))
      blocks.

(** *** Vocabulary of the grouping property *)

(** [t] was logged in block [b]. *)
Definition inBlock (b : Z) (t : ParsedTransfer) : bool :=
  blockNumber t =? b.

(** Strictly ascending: every number is below all that follow it. *)
Fixpoint ascending (l : list Z) : Prop :=
  match l with
  | [] => True
  | x :: rest => (forall y, In y rest -> x < y) /\ ascending rest
  end.

(** The entry of block [b] once the transfers [ts] and [vs] have been
    pushed. *)
Definition entryOf (b : Z) (ts vs : list ParsedTransfer) : BlockData :=
  mkBlock b 0 (List.filter (inBlock b) ts) (List.filter (inBlock b) vs).

(** What the map holds once [ts] and [vs] have been pushed: one
    entry per block that occurs, holding the transfers of that block
    in input order. *)
Definition grouped (m : BlockMap) (ts vs : list ParsedTransfer) : Prop :=
  List.NoDup (map fst m)
  /\ (forall b blk, In (b, blk) m -> blk = entryOf b ts vs)
  /\ (forall b, In b (map fst m)
                <-> exists t, In t (ts ++ vs) /\ blockNumber t = b).

End BlockScanner.

(** ** Swap events as trades (src/indexer/external-parser.ts) *)

Module ExternalParser.











End ExternalParser.

(** ** Vocabulary of the further AMM properties *)

Module AmmSums.
Import Amm.

(** The amounts the first [n] iterations of the buyback loop try to
    spend. *)
Definition stepAmounts (P : Params) (n : nat) : list Z :=
  map (buyAmountAt P) (LogReader.blocksFrom n 0).

(** Reserves of either mode: neither side is negative. *)
Definition nonNegativeReserves (st : LoopState) : Prop :=
  0 <= l_reserveVirtual st /\ 0 <= l_reserveToken st.

End AmmSums.

(** ** Vocabulary of the further tax-inflow properties *)

Module TaxKeys.

(** The columns of the unique index of [tax_inflows]. *)
Definition inflowKey (x : TaxInflow.t) : string * Z :=
  (TaxInflow.txHash x, TaxInflow.logIndex x).

End TaxKeys.

(** ** Vocabulary of the further cost-ledger properties *)

Module LedgerSums.

(** The key of a ledger row. *)
Definition rowKey (r : AddressCost.t) : string * Address :=
  (AddressCost.projectId r, AddressCost.address r).

(** [t] is a trade of address [a] in project [projectId]. *)
Definition traded (projectId : string) (a : Address) (t : Trade.t) : bool :=
  String.eqb (Trade.projectId t) projectId && N.eqb (Trade.trader t) a.

(** A purchase the ledger counts: both amounts are present. *)
Definition countedBuy (t : Trade.t) : bool :=
  match Trade.side t, Trade.quoteIn t, Trade.tokenOut t with
  | BUY, Some _, Some _ => true
  | _, _, _ => false
  end.

(** A sale the ledger counts. *)
Definition countedSell (t : Trade.t) : bool :=
  match Trade.side t, Trade.tokenIn t, Trade.quoteOut t with
  | SELL, Some _, Some _ => true
  | _, _, _ => false
  end.

(** The gross amount of a purchase, the net amount when the gross
    column is empty. *)
Definition grossOrNet (t : Trade.t) : option Z :=
  match Trade.quoteInGross t with
  | Some g => Some g
  | None => Trade.quoteIn t
  end.

(** The sum of one amount column over a list of trades. *)
Definition amount (column : Trade.t -> option Z) (l : list Trade.t) : Z :=
  Sums.total (map (fun t => default 0 (column t)) l).

End LedgerSums.

(** ** Vocabulary of the further orchestrator properties *)

Module TableKeys.

(** The columns of the unique index of [trades]. *)
Definition tradeKey (t : Trade.t) : string * Z :=
  (Trade.txHash t, Trade.logIndex t).

End TableKeys.

(** ** Further concrete inputs *)

Module Examples.
Import Scenario.

(** A buy paid through a router: the quote never reaches the market
    in this transaction. *)
Definition routerPathVirtualTransfers : list ParsedTransfer :=
  [mkTransfer VIRTUAL_ADDRESS trader router 100 "0xa" 1 77].

Definition routerPathTrade : Trade.t :=
  Trade.mk "p" INTERNAL market "0xa" 1 77 1700 trader BUY
           (Some 100) (Some 100) None None (Some 1000) (Some 0.1%float).

(** A launch-path buy: 70 to the net address, 30 to the tax address. *)
Definition launchPathGroup : LaunchPath.TxTransferGroup :=
  LaunchPath.mkGroup
    [mkTransfer tokenAddress market trader 1000 "0xa" 3 77]
    [mkTransfer VIRTUAL_ADDRESS trader LaunchPath.LAUNCH_PATH_NET_ADDRESS
                70 "0xa" 1 77;
     mkTransfer VIRTUAL_ADDRESS trader LaunchPath.LAUNCH_PATH_TAX_ADDRESS
                30 "0xa" 2 77].

(** The simple buy as a group: no launch-path address takes part. *)
Definition plainGroup : LaunchPath.TxTransferGroup :=
  LaunchPath.mkGroup buyTokenTransfers buyVirtualTransfers.

(** The quote leg that pays the tax recipient, in the transaction of
    the simple buy. *)
Definition recipientLeg : ParsedTransfer :=
  mkTransfer VIRTUAL_ADDRESS trader taxAddr 1 "0xa" 4 77.

(** A split-tax buy that also pays the tax recipient directly. *)
Definition splitTaxVirtualTransfers : list ParsedTransfer :=
  sideLegVirtualTransfers ++ [recipientLeg].

(** The tables and the events after one pass over [sampleBlock]. *)
Definition afterSampleBlock : Orchestrator.State :=
  Orchestrator.mkState
    (<[("0xa"%string, 1) := sampleTrade]> ∅) ∅
    (CostLedger.updateAddressCosts [sampleTrade] [])
    [Orchestrator.WsTrade "p" sampleTrade].

(** A balance table with one holder. *)
Definition oneHolder : TokenBalance.Table :=
  <[("p"%string, trader) := TokenBalance.mkRow 5 70]> ∅.



(** The simple buy followed, two blocks earlier in the list order, by
    a transfer of block 75. *)
Definition twoBlockTokenTransfers : list ParsedTransfer :=
  buyTokenTransfers
  ++ [mkTransfer tokenAddress trader bystander 10 "0x9" 0 75].

(** A provider whose every request fails with an error that does not
    mention a range. *)
Definition refusing : Rpc.RpcError := Rpc.mkError "connection refused".

Definition refusingClient : Rpc.Client :=
  Rpc.mkClient (fun _ _ _ => inr refusing) (inr refusing).

End Examples.

(** * Properties *)

(** ** Trade Reconstructor *)

Section TradeParserFacts.
Import LaunchPath TradeParser.

(** C1. Scenario "reconstruct a simple buy": for a transaction whose
    transfers are exactly the token transfer market -> trader of 1000
    and the quote transfers trader -> market of 99 and trader ->
    taxAddr of 1, [reconstructTrades] emits exactly one trade, a BUY
    with tokenOut = 1000, quoteInGross = 100, quoteIn = 99 and
    priceQuotePerToken = 0.099.  The trade carries the smallest log
    index of the three transfers. *)
Theorem reconstruct_simple_buy
        (market trader taxAddr tokenAddress : Address)
        (h projectId : string) (venue : Venue) (li1 li2 li3 bn ts : Z) :
  trader <> market -> taxAddr <> market ->
  reconstructTrades
    [mkTransfer tokenAddress market trader 1000 h li1 bn]
    [mkTransfer VIRTUAL_ADDRESS trader market 99 h li2 bn;
     mkTransfer VIRTUAL_ADDRESS trader taxAddr 1 h li3 bn]
    market tokenAddress projectId venue ts
  = Some [Trade.mk projectId venue market h (Z.min (Z.min li1 li2) li3)
            bn ts trader BUY (Some 99) (Some 100) None None (Some 1000)
            (Some 0.099%float)].
Proof.
  intros Htm Hxm.
  apply N.eqb_neq in Htm, Hxm.
  unfold reconstructTrades, buildGroups, addToken, addVirtual, touchesMarket.
  cbn [fold_left from to txHash groupsGet groupsSet].
  rewrite !N.eqb_refl. cbn [orb groupsGet groupsSet].
  rewrite !String.eqb_refl. cbn [groupsGet groupsSet token virtual app].
  rewrite !String.eqb_refl. cbn [groupsGet groupsSet token virtual app].
  rewrite !String.eqb_refl.
  cbn [groupsGet groupsSet token virtual app emitTrades].
  unfold processGroup, netDelta, deltaStep, sumValue.
  cbn [token virtual fold_left from to value List.filter List.find app map
       logIndex blockNumber Math_min].
  rewrite ?N.eqb_refl, ?Htm, ?Hxm. cbn.
  rewrite ?N.eqb_refl, ?Htm, ?Hxm. cbn.
  reflexivity.
Qed.

Lemma reconstruct_simple_buy_witness :
  reconstructTrades Scenario.buyTokenTransfers Scenario.buyVirtualTransfers
                    Scenario.market Scenario.tokenAddress "p" INTERNAL 1700
  = Some [Scenario.sampleTrade].
Proof.
  apply (reconstruct_simple_buy Scenario.market Scenario.trader
           Scenario.taxAddr Scenario.tokenAddress "0xa" "p" INTERNAL
           3 1 2 77 1700); discriminate.
Defined.

(** C2, at the failing input.  The market receives 100 quote from a
    router and the trader pays a side leg of 1: the direct BUY branch
    clamps the market-wide gross to the net before it replaces the
    gross by the trader's own outflow, so the emitted BUY has
    quoteIn = 100 above quoteInGross = 1. *)
Theorem direct_buy_net_exceeds_gross :
  exists t,
    reconstructTrades Scenario.buyTokenTransfers
                      Scenario.routedVirtualTransfers
                      Scenario.market Scenario.tokenAddress "p" INTERNAL 1700
    = Some [t]
    /\ Trade.side t = BUY
    /\ Trade.quoteIn t = Some 100
    /\ Trade.quoteInGross t = Some 1.
Proof.
  eexists. split; [vm_compute; reflexivity|].
  repeat split.
Qed.

(** *** The other branches, and totality *)

Lemma fold_no_outflow (m : Address) (l : list ParsedTransfer) :
  nonNegative l ->
  List.find (fun t => N.eqb (from t) m) l = None ->
  forall d, d <= fold_left (deltaStep m) l d.
Proof.
  induction l as [|t l IH]; intros Hnn Hfind d; cbn [fold_left]; [lia|].
  cbn [List.find] in Hfind.
  assert (0 <= value t) by (apply Hnn; left; reflexivity).
  unfold deltaStep at 2.
  destruct (N.eqb (from t) m); [discriminate|].
  etransitivity; [|apply IH; [intros x Hx; apply Hnn; right; exact Hx
                             | exact Hfind]].
  destruct (N.eqb (to t) m); lia.
Qed.

Lemma fold_no_inflow (m : Address) (l : list ParsedTransfer) :
  nonNegative l ->
  List.find (fun t => N.eqb (to t) m) l = None ->
  forall d, fold_left (deltaStep m) l d <= d.
Proof.
  induction l as [|t l IH]; intros Hnn Hfind d; cbn [fold_left]; [lia|].
  cbn [List.find] in Hfind.
  assert (0 <= value t) by (apply Hnn; left; reflexivity).
  unfold deltaStep at 2.
  destruct (N.eqb (to t) m); [discriminate|].
  etransitivity; [apply IH; [intros x Hx; apply Hnn; right; exact Hx
                            | exact Hfind]|].
  destruct (N.eqb (from t) m); lia.
Qed.

Lemma netDelta_no_outflow m l :
  nonNegative l -> List.find (fun t => N.eqb (from t) m) l = None ->
  0 <= netDelta m l.
Proof. intros. apply (fold_no_outflow m l); assumption. Qed.

Lemma netDelta_no_inflow m l :
  nonNegative l -> List.find (fun t => N.eqb (to t) m) l = None ->
  netDelta m l <= 0.
Proof. intros. apply (fold_no_inflow m l); assumption. Qed.

Lemma emitWith_addr a k : emitWith (TAddr a) k = Emit (k a).
Proof. reflexivity. Qed.

Ltac skip_or_emit :=
  repeat match goal with
         | |- context [if ?c then Skip else _] => destruct c; [discriminate|]
         | |- context [let '(_, _) := ?p in _] => destruct p
         end;
  rewrite ?emitWith_addr; try discriminate.

Lemma processGroup_no_throw (m : Address) (h : string) (g : TxTransferGroup) :
  nonNegative (token g) ->
  processGroup m h g <> Throw.
Proof.
  intros Hnn. unfold processGroup.
  destruct (_ && _); [discriminate|].
  destruct (Z.gtb_spec (netDelta m (virtual g)) 0) as [Hv|Hv];
    destruct (Z.ltb_spec (netDelta m (token g)) 0) as [Ht|Ht]; cbn [andb].
  - destruct (List.find (fun t => N.eqb (from t) m) (token g)) as [t|] eqn:E.
    + cbv zeta. skip_or_emit.
    + pose proof (netDelta_no_outflow m _ Hnn E). lia.
  - destruct (Z.gtb_spec (netDelta m (token g)) 0) as [Ht'|Ht'];
      destruct (Z.ltb_spec (netDelta m (virtual g)) 0) as [Hv'|Hv']; try lia;
      cbn [andb].
    + destruct (hasLaunchPathTransfers g).
      * destruct (List.find _ (token g)); [|discriminate].
        cbv zeta. skip_or_emit.
      * discriminate.
    + discriminate.
  - destruct (Z.gtb_spec (netDelta m (token g)) 0) as [Ht'|Ht']; try lia.
    cbn [andb].
    destruct (List.find _ (token g)); [|discriminate]. cbv zeta. skip_or_emit.
  - destruct (Z.gtb_spec (netDelta m (token g)) 0) as [Ht'|Ht'];
      destruct (Z.ltb_spec (netDelta m (virtual g)) 0) as [Hv'|Hv'];
      cbn [andb].
    + destruct (List.find (fun t => N.eqb (to t) m) (token g)) as [t|] eqn:E.
      * cbv zeta. skip_or_emit.
      * pose proof (netDelta_no_inflow m _ Hnn E). lia.
    + destruct (hasLaunchPathTransfers g).
      * destruct (List.find _ (token g)); [|discriminate].
        cbv zeta. skip_or_emit.
      * discriminate.
    + discriminate.
    + discriminate.
Qed.

Lemma groupsSet_In (h : string) (g : TxTransferGroup) (gs : TxGroups) e :
  In e (groupsSet h g gs) -> snd e = g \/ In e gs.
Proof.
  induction gs as [|[k g0] gs IH]; cbn [groupsSet].
  - intros [<-|[]]. left. reflexivity.
  - destruct (String.eqb k h); cbn [In].
    + intros [<-|H]; [left; reflexivity | right; right; exact H].
    + intros [<-|H]; [right; left; reflexivity|].
      destruct (IH H) as [?|?]; [left; assumption | right; right; assumption].
Qed.

Lemma groupsGet_In (h : string) (gs : TxGroups) g :
  groupsGet h gs = Some g -> exists k, In (k, g) gs.
Proof.
  induction gs as [|[k g0] gs IH]; cbn [groupsGet]; [discriminate|].
  destruct (String.eqb k h).
  - intros [= <-]. exists k. left. reflexivity.
  - intros H. destruct (IH H) as [k' Hk']. exists k'. right. exact Hk'.
Qed.

Lemma addToken_within ts m gs t :
  In t ts -> tokensWithin ts gs -> tokensWithin ts (addToken m gs t).
Proof.
  intros Ht Hgs. unfold addToken.
  destruct (touchesMarket m t); [|assumption].
  set (gs1 := match groupsGet (txHash t) gs with
              | Some _ => gs
              | None => groupsSet (txHash t) (mkGroup [] []) gs
              end).
  assert (Hgs1 : tokensWithin ts gs1).
  { unfold gs1. destruct (groupsGet (txHash t) gs); [assumption|].
    intros e He x Hx. apply groupsSet_In in He as [He|He].
    - rewrite He in Hx. destruct Hx.
    - eapply Hgs; eassumption. }
  clearbody gs1.
  destruct (groupsGet (txHash t) gs1) as [g|] eqn:Eg; [|assumption].
  intros e He x Hx. apply groupsSet_In in He as [He|He].
  - rewrite He in Hx. cbn [token] in Hx. apply in_app_or in Hx as [Hx|[<-|[]]].
    + apply groupsGet_In in Eg as [k Hk]. apply (Hgs1 _ Hk). exact Hx.
    + exact Ht.
  - eapply Hgs1; eassumption.
Qed.

Lemma addVirtual_within ts m gs v :
  tokensWithin ts gs -> tokensWithin ts (addVirtual m gs v).
Proof.
  intros Hgs. unfold addVirtual.
  destruct (groupsGet (txHash v) gs) as [g|] eqn:Eg.
  - intros e He x Hx. apply groupsSet_In in He as [He|He].
    + rewrite He in Hx. cbn [token] in Hx.
      apply groupsGet_In in Eg as [k Hk]. apply (Hgs _ Hk). exact Hx.
    + eapply Hgs; eassumption.
  - destruct (touchesMarket m v); [|assumption].
    intros e He x Hx. apply groupsSet_In in He as [He|He].
    + rewrite He in Hx. destruct Hx.
    + eapply Hgs; eassumption.
Qed.

Lemma buildGroups_within m ts vs : tokensWithin ts (buildGroups m ts vs).
Proof.
  unfold buildGroups.
  assert (Htok : forall l gs, (forall t, In t l -> In t ts) ->
                              tokensWithin ts gs ->
                              tokensWithin ts (fold_left (addToken m) l gs)).
  { induction l as [|t l IH]; intros gs Hl Hgs; [assumption|].
    cbn [fold_left]. apply IH.
    - intros x Hx. apply Hl. right. exact Hx.
    - apply addToken_within; [apply Hl; left; reflexivity | assumption]. }
  assert (Hvir : forall l gs, tokensWithin ts gs ->
                              tokensWithin ts (fold_left (addVirtual m) l gs)).
  { induction l as [|v l IH]; intros gs Hgs; [assumption|].
    cbn [fold_left]. apply IH, addVirtual_within, Hgs. }
  apply Hvir, Htok; [auto|]. intros e [].
Qed.

Lemma emitTrades_total m mk (gs : TxGroups) :
  (forall e, In e gs -> nonNegative (token (snd e))) ->
  exists trades, emitTrades m mk gs = Some trades.
Proof.
  induction gs as [|[h g] gs IH]; intros Hnn; cbn [emitTrades]; [eauto|].
  destruct IH as [trades E]; [intros e He; apply Hnn; right; exact He|].
  pose proof (processGroup_no_throw m h g (Hnn (h, g) (or_introl eq_refl))).
  destruct (processGroup m h g); [eauto | rewrite E; eauto | contradiction].
Qed.

(** On transfers as the chain emits them (amounts are unsigned)
    [reconstructTrades] returns: no group reaches [getAddress] with
    the placeholder trader. *)
Lemma reconstructTrades_total
      (tokenTransfers virtualTransfers : list ParsedTransfer)
      (marketAddress tokenAddress : Address) (projectId : string)
      (venue : Venue) (blockTimestamp : Z) :
  nonNegative tokenTransfers ->
  exists trades,
    reconstructTrades tokenTransfers virtualTransfers marketAddress
                      tokenAddress projectId venue blockTimestamp
    = Some trades.
Proof.
  intros Hnn. apply emitTrades_total.
  intros e He t Ht. apply Hnn.
  eapply buildGroups_within; eassumption.
Qed.

(** The router-like BUY branch clamps net to gross after every
    refinement: its trades satisfy net <= gross. *)
Lemma fallback_buy_net_le_gross (m : Address) (h : string)
      (g : TxTransferGroup) (c : Candidate.t) :
  (netDelta m (virtual g) >? 0) && (netDelta m (token g) <? 0) = false ->
  processGroup m h g = Emit c ->
  Candidate.side c = BUY ->
  exists net gross,
    Candidate.quoteIn c = Some net
    /\ Candidate.quoteInGross c = Some gross
    /\ net <= gross.
Proof.
  intros Hdirect. unfold processGroup. cbv zeta. rewrite Hdirect.
  destruct ((netDelta m (virtual g) =? 0) && (netDelta m (token g) =? 0));
    [discriminate|].
  destruct ((netDelta m (token g) >? 0) && (netDelta m (virtual g) <? 0)).
  { destruct (List.find (fun t => N.eqb (to t) m) (token g));
      [|destruct (List.find _ (virtual g))];
      repeat match goal with
             | |- context [if ?c then Skip else _] => destruct c
             end; try discriminate;
      unfold emitWith; cbn [getAddress]; try discriminate;
      intros [= <-]; discriminate. }
  destruct ((netDelta m (token g) >? 0) && hasLaunchPathTransfers g).
  { destruct (List.find _ (token g)); [|discriminate].
    repeat match goal with
           | |- context [if ?c then Skip else _] => destruct c
           end; try discriminate.
    rewrite emitWith_addr. intros [= <-]. discriminate. }
  destruct (netDelta m (token g) <? 0); [|discriminate].
  destruct (List.find _ (token g)) as [recipient|]; [|discriminate].
  match goal with
  | |- context [if ?c then Skip else _] => destruct c; [discriminate|]
  end.
  match goal with
  | |- context [let '(_, _) := ?p in _] => destruct p as [gross fallback]
  end.
  destruct (gross <=? 0); [discriminate|].
  rewrite emitWith_addr. intros [= <-] _. cbn.
  eexists. eexists. split; [reflexivity|]. split; [reflexivity|].
  match goal with
  | |- (if ?a >? gross then _ else _) <= _ =>
      destruct (Z.gtb_spec a gross); lia
  end.
Qed.

End TradeParserFacts.

(** ** Log Reader *)

Section LogReaderFacts.
Import Rpc LogReader.

Lemma blocksFrom_app (a b : nat) (x : Z) :
  blocksFrom (a + b) x = blocksFrom a x ++ blocksFrom b (x + Z.of_nat a).
Proof.
  revert x; induction a as [|a IH]; intros x.
  - simpl. f_equal. lia.
  - cbn [Nat.add blocksFrom app]. rewrite IH. do 3 f_equal. lia.
Qed.

(** Fetching two adjacent ranges and concatenating is fetching their
    union. *)
Lemma logsInRange_split (logsAt : Z -> list Log) (f mid t : Z) :
  f <= mid -> mid < t ->
  logsInRange logsAt f t
  = logsInRange logsAt f mid ++ logsInRange logsAt (mid + 1) t.
Proof.
  intros Hfm Hmt. unfold logsInRange.
  replace (Z.to_nat (t - f + 1))
    with (Z.to_nat (mid - f + 1) + Z.to_nat (t - (mid + 1) + 1))%nat by lia.
  rewrite blocksFrom_app, flat_map_app.
  do 3 f_equal. lia.
Qed.

Lemma logsInRange_single (logsAt : Z -> list Log) (b : Z) :
  logsInRange logsAt b b = logsAt b.
Proof.
  unfold logsInRange. replace (b - b + 1) with 1 by lia.
  cbn. apply app_nil_r.
Qed.

Variable client : Client.

(** The three paths of [fetchTransferLogs]. *)

Lemma fetch_ok fuel c f t w logs :
  getLogs client c f t = inl logs ->
  fetchTransferLogsFuel client fuel c f t w = (Ok logs, w).
Proof.
  intros H. destruct fuel; cbn; unfold bind, attempt, clientGetLogs;
    rewrite H; reflexivity.
Qed.

Lemma fetch_split fuel c f t w e :
  getLogs client c f t = inr e ->
  isRangeError (message e) = true ->
  1 < t - f ->
  fetchTransferLogsFuel client (S fuel) c f t w
  = (let mid := f + Z.quot (t - f) 2 in
     let! left := fetchTransferLogsFuel client fuel c f mid in
     let! right := fetchTransferLogsFuel client fuel c (mid + 1) t in
     ret (left ++ right)) w.
Proof.
  intros H Hr Hw. cbn [fetchTransferLogsFuel].
  unfold bind at 1. unfold attempt, clientGetLogs. rewrite H.
  cbn [liftResult throw].
  rewrite Hr. destruct (Z.leb_spec (t - f) 1); [lia|]. reflexivity.
Qed.

Lemma fetch_give_up fuel c f t w e :
  getLogs client c f t = inr e ->
  isRangeError (message e) = true ->
  t - f <= 1 ->
  fetchTransferLogsFuel client fuel c f t w
  = (Ok [],
     mkWorld (sleeps w ++ [500; 1000; 1500])
             (Observability.recordTransferLogFailure c f t
                (if String.eqb (message e) "" then "unknown getLogs error"
                 else message e) (failureStats w))).
Proof.
  intros H Hr Hw.
  assert (E : forall w0,
             attempt (clientGetLogs client c f t) w0 = (Ok (inr e), w0)).
  { intros w0. unfold attempt, clientGetLogs. rewrite H. reflexivity. }
  destruct fuel; cbn [fetchTransferLogsFuel];
    unfold bind at 1; rewrite E, Hr;
    (destruct (Z.leb_spec (t - f) 1); [|lia]);
    cbn [retryLoop]; unfold bind, sleep; rewrite !E; cbn;
    rewrite <- !app_assoc; reflexivity.
Qed.

Lemma fetch_rethrow fuel c f t w e :
  getLogs client c f t = inr e ->
  isRangeError (message e) = false ->
  fetchTransferLogsFuel client fuel c f t w = (Throw e, w).
Proof.
  intros H Hr. destruct fuel; cbn [fetchTransferLogsFuel];
    unfold bind, attempt, clientGetLogs; rewrite H; cbn; rewrite Hr;
    reflexivity.
Qed.

(** The width of the range is enough budget: [fetchTransferLogs]
    always ends with a value or a thrown error. *)
Lemma fetch_within_budget (c : Address) :
  forall (fuel : nat) (f t : Z) (w : World),
    (Z.to_nat (t - f) <= fuel)%nat ->
    fst (fetchTransferLogsFuel client fuel c f t w) <> OutOfFuel.
Proof.
  induction fuel as [|fuel IH]; intros f t w Hfuel;
    destruct (getLogs client c f t) as [logs|e] eqn:E;
    try (rewrite (fetch_ok _ c f t w logs E); discriminate);
    destruct (isRangeError (message e)) eqn:Er;
    try (rewrite (fetch_rethrow _ c f t w e E Er); discriminate);
    destruct (Z.le_gt_cases (t - f) 1) as [Hn|Hw];
    try (rewrite (fetch_give_up _ c f t w e E Er Hn); discriminate);
    try lia.
  rewrite (fetch_split fuel c f t w e E Er) by lia. cbv zeta.
  rewrite Z.quot_div_nonneg by lia.
  assert (Hmid : f <= f + (t - f) / 2 < t).
  { pose proof (Z.div_le_upper_bound (t - f) 2 (t - f - 1)).
    pose proof (Z.div_pos (t - f) 2). lia. }
  unfold bind.
  pose proof (IH f (f + (t - f) / 2) w ltac:(lia)) as Hl.
  destruct (fetchTransferLogsFuel client fuel c f (f + (t - f) / 2) w)
    as [[l | el | ] w1]; cbn [fst] in *; try discriminate; try congruence.
  pose proof (IH (f + (t - f) / 2 + 1) t w1 ltac:(lia)) as Hr.
  destruct (fetchTransferLogsFuel client fuel c (f + (t - f) / 2 + 1) t w1)
    as [[r | er | ] w2]; cbn [fst] in *; try discriminate; congruence.
Qed.

Lemma fetchTransferLogs_total (c : Address) (f t : Z) (w : World) :
  fst (fetchTransferLogs client c f t w) <> OutOfFuel.
Proof. apply fetch_within_budget. lia. Qed.

End LogReaderFacts.

Section CappedProvider.
Import Rpc LogReader.
Variable logsAt : Address -> Z -> list Log.
Variable cap : nat.
Variable latest : Z.

Lemma rangeTooLarge_is_range_error :
  isRangeError (message rangeTooLarge) = true.
Proof. reflexivity. Qed.

Lemma cappedGetLogs_fits c f t :
  (length (logsInRange (logsAt c) f t) <= cap)%nat ->
  getLogs (cappedClient logsAt cap latest) c f t
  = inl (logsInRange (logsAt c) f t).
Proof.
  intros H. cbn. unfold cappedGetLogs.
  destruct (Nat.ltb_spec cap (length (logsInRange (logsAt c) f t)));
    [lia | reflexivity].
Qed.

Lemma cappedGetLogs_overflows c f t :
  (cap < length (logsInRange (logsAt c) f t))%nat ->
  getLogs (cappedClient logsAt cap latest) c f t = inr rangeTooLarge.
Proof.
  intros H. cbn. unfold cappedGetLogs.
  destruct (Nat.ltb_spec cap (length (logsInRange (logsAt c) f t)));
    [reflexivity | lia].
Qed.

(** Bisection reassembles the full range as long as every range it
    cannot split any further fits under the cap. *)
Lemma capped_fetch_union (c : Address) :
  forall (fuel : nat) (f t : Z) (w : World),
    (Z.to_nat (t - f) <= fuel)%nat ->
    (forall a b, f <= a -> b <= t -> b - a <= 1 ->
                 (length (logsInRange (logsAt c) a b) <= cap)%nat) ->
    fetchTransferLogsFuel (cappedClient logsAt cap latest) fuel c f t w
    = (Ok (logsInRange (logsAt c) f t), w).
Proof.
  induction fuel as [|fuel IH]; intros f t w Hfuel Hwin.
  - apply fetch_ok, cappedGetLogs_fits, Hwin; lia.
  - destruct (Nat.le_gt_cases (length (logsInRange (logsAt c) f t)) cap)
      as [Hsmall|Hbig].
    + apply fetch_ok, cappedGetLogs_fits, Hsmall.
    + assert (Hwide : 1 < t - f).
      { destruct (Z.lt_ge_cases 1 (t - f)); [assumption|].
        specialize (Hwin f t). lia. }
      rewrite (fetch_split _ fuel c f t w rangeTooLarge
                 (cappedGetLogs_overflows c f t Hbig)
                 rangeTooLarge_is_range_error Hwide).
      cbv zeta. rewrite Z.quot_div_nonneg by lia.
      assert (Hmid : f <= f + (t - f) / 2 < t).
      { pose proof (Z.div_le_upper_bound (t - f) 2 (t - f - 1)).
        pose proof (Z.div_pos (t - f) 2). lia. }
      unfold bind.
      rewrite IH; [| lia | intros a b ? ? ?; apply Hwin; lia].
      rewrite IH; [| lia | intros a b ? ? ?; apply Hwin; lia].
      unfold ret. rewrite <- logsInRange_split by lia. reflexivity.
Qed.

(** C3, as the code has it.  Against a provider that rejects a
    request exactly when the answer holds more than [cap] logs:
    - if no range of one or two consecutive blocks inside
      [fromBlock .. toBlock] holds more than [cap] logs, then
      [fetchTransferLogs] returns exactly the logs of a single
      unrestricted fetch of the range, in the same order, without
      sleeping and without recording a failure;
    - a single block that alone holds more than [cap] logs is
      retried three times after sleeping 500, 1000 and 1500 ms and
      then comes back empty, with one failure observation (contract,
      range, message) recorded. *)
Theorem fetchTransferLogs_range_split (c : Address) :
  (forall (f t : Z) (w : World),
      (forall a b, f <= a -> b <= t -> b - a <= 1 ->
                   (length (logsInRange (logsAt c) a b) <= cap)%nat) ->
      fetchTransferLogs (cappedClient logsAt cap latest) c f t w
      = (Ok (logsInRange (logsAt c) f t), w)
      /\ fetchTransferLogs (unrestrictedClient logsAt latest) c f t w
         = (Ok (logsInRange (logsAt c) f t), w))
  /\ (forall (b : Z) (w : World),
        (cap < length (logsAt c b))%nat ->
        fetchTransferLogs (cappedClient logsAt cap latest) c b b w
        = (Ok [],
           mkWorld (sleeps w ++ [500; 1000; 1500])
                   (Observability.recordTransferLogFailure c b b
                      (message rangeTooLarge) (failureStats w)))).
Proof.
  split.
  - intros f t w Hwin. split.
    + apply capped_fetch_union; [lia | assumption].
    + apply fetch_ok. reflexivity.
  - intros b w Hbig. unfold fetchTransferLogs.
    rewrite (fetch_give_up _ _ c b b w rangeTooLarge);
      [reflexivity | | apply rangeTooLarge_is_range_error | lia].
    apply cappedGetLogs_overflows. rewrite logsInRange_single. exact Hbig.
Qed.

End CappedProvider.

Section LogReaderScenarios.
Import Rpc LogReader.

(** C3 as stated fails: a block that alone exceeds the cap is lost,
    whatever the bisection does. *)
Lemma fetch_loses_oversized_block :
  fst (fetchTransferLogs (cappedClient Scenario.burstChain 1 10)
                         Scenario.tokenAddress 5 5 emptyWorld)
  = Ok []
  /\ fst (fetchTransferLogs (unrestrictedClient Scenario.burstChain 10)
                            Scenario.tokenAddress 5 5 emptyWorld)
     = Ok [mkLog 5 "0xa" 0; mkLog 5 "0xa" 1]
  /\ fst (fetchTransferLogs (cappedClient Scenario.burstChain 1 10)
                            Scenario.tokenAddress 5 5 emptyWorld)
     <> fst (fetchTransferLogs (unrestrictedClient Scenario.burstChain 10)
                               Scenario.tokenAddress 5 5 emptyWorld).
Proof.
  repeat split; try (vm_compute; reflexivity).
  vm_compute. discriminate.
Qed.

(** The reader stops bisecting at [toBlock - fromBlock <= 1]: a range
    of two blocks that is over the cap is given up as a whole, also
    when each of its blocks fits under the cap. *)
Example fetch_gives_up_on_two_blocks :
  fst (fetchTransferLogs (cappedClient Scenario.pairOfBlocksChain 1 10)
                         Scenario.tokenAddress 5 6 emptyWorld)
  = Ok []
  /\ fst (fetchTransferLogs (cappedClient Scenario.pairOfBlocksChain 1 10)
                            Scenario.tokenAddress 5 5 emptyWorld)
     = Ok [mkLog 5 "0xa" 0]
  /\ fst (fetchTransferLogs (cappedClient Scenario.pairOfBlocksChain 1 10)
                            Scenario.tokenAddress 6 6 emptyWorld)
     = Ok [mkLog 6 "0xa" 0].
Proof. repeat split; vm_compute; reflexivity. Qed.

Lemma spreadChain_windows (a b : Z) :
  0 <= a -> b <= 10 -> b - a <= 1 ->
  (length (logsInRange (Scenario.spreadChain Scenario.tokenAddress) a b)
   <= 2)%nat.
Proof.
  intros Ha Hb Hab.
  destruct (Z.lt_ge_cases b a) as [Hlt|Hge].
  - unfold logsInRange. replace (Z.to_nat (b - a + 1)) with 0%nat by lia.
    cbn. lia.
  - assert (Hb' : b = a \/ b = a + 1) by lia.
    assert (Ha' : a = 0 \/ a = 1 \/ a = 2 \/ a = 3 \/ a = 4 \/ a = 5 \/
                  a = 6 \/ a = 7 \/ a = 8 \/ a = 9 \/ a = 10) by lia.
    destruct Hb' as [-> | ->];
      repeat (destruct Ha' as [-> | Ha']; [vm_compute; lia|]);
      subst; vm_compute; lia.
Qed.

Lemma fetchTransferLogs_range_split_witness :
  fst (fetchTransferLogs (cappedClient Scenario.spreadChain 2 10)
                         Scenario.tokenAddress 0 10 emptyWorld)
  = Ok [mkLog 2 "0xa" 0; mkLog 2 "0xa" 1; mkLog 5 "0xa" 0; mkLog 5 "0xa" 1;
        mkLog 8 "0xa" 0; mkLog 8 "0xa" 1]
  /\ sleeps (snd (fetchTransferLogs (cappedClient Scenario.burstChain 1 10)
                                    Scenario.tokenAddress 5 5 emptyWorld))
     = [500; 1000; 1500].
Proof.
  split.
  - rewrite (proj1 (proj1 (fetchTransferLogs_range_split
                             Scenario.spreadChain 2 10 Scenario.tokenAddress)
                      0 10 emptyWorld spreadChain_windows)).
    vm_compute. reflexivity.
  - rewrite (proj2 (fetchTransferLogs_range_split
                      Scenario.burstChain 1 10 Scenario.tokenAddress)
                   5 emptyWorld).
    + reflexivity.
    + vm_compute. lia.
Defined.

End LogReaderScenarios.

(** ** First-Active-Block Locator *)

Section FirstBlockFacts.
Import Rpc FirstBlock.
Variable client : Client.
Variable cfg : Config.

(** A larger loop budget never changes a run that ended within its
    budget. *)
Lemma scanBackward_fuel_mono (token : Address) :
  forall (n m : nat) (windowSize toBlock : Z) (w : World),
    (n <= m)%nat ->
    fst (scanBackward client cfg n token windowSize toBlock w) <> OutOfFuel ->
    scanBackward client cfg m token windowSize toBlock w
    = scanBackward client cfg n token windowSize toBlock w.
Proof.
  induction n as [|n IH]; intros m windowSize toBlock w Hle Hfin.
  - destruct m as [|m]; [reflexivity|].
    cbn [scanBackward] in *.
    destruct (toBlock >? 0); [|reflexivity].
    exfalso. apply Hfin. reflexivity.
  - destruct m as [|m]; [lia|].
    cbn [scanBackward] in *.
    destruct (toBlock >? 0); [|reflexivity].
    unfold bind in *.
    destruct (attempt _ w) as [[r | e | ] w1]; try reflexivity.
    destruct r as [logs | e].
    + destruct (0 <? length logs)%nat; [reflexivity|].
      apply IH; [lia | assumption].
    + apply IH; [lia | assumption].
Qed.

Lemma binarySearch_fuel_mono (token : Address) :
  forall (n m : nat) (lo hi firstBlock : Z) (w : World),
    (n <= m)%nat ->
    fst (binarySearch client n token lo hi firstBlock w) <> OutOfFuel ->
    binarySearch client m token lo hi firstBlock w
    = binarySearch client n token lo hi firstBlock w.
Proof.
  induction n as [|n IH]; intros m lo hi firstBlock w Hle Hfin.
  - destruct m as [|m]; [reflexivity|].
    cbn [binarySearch] in *.
    destruct (lo <=? hi); [|reflexivity].
    exfalso. apply Hfin. reflexivity.
  - destruct m as [|m]; [lia|].
    cbn [binarySearch] in *.
    destruct (lo <=? hi); [|reflexivity].
    unfold bind in *.
    destruct (attempt _ w) as [[r | e | ] w1]; try reflexivity.
    destruct r as [logs | e].
    + destruct (0 <? length logs)%nat; apply IH; (lia || assumption).
    + apply IH; [lia | assumption].
Qed.

Lemma findFirstActiveBlock_fuel_mono (token : Address) (n m : nat)
      (w : World) :
  (n <= m)%nat ->
  fst (findFirstActiveBlock client cfg n token w) <> OutOfFuel ->
  findFirstActiveBlock client cfg m token w
  = findFirstActiveBlock client cfg n token w.
Proof.
  intros Hle Hfin. unfold findFirstActiveBlock in *. unfold bind in *.
  destruct (liftResult (getBlockNumber client) w) as [[latest | e | ] w1];
    try reflexivity.
  pose proof (scanBackward_fuel_mono token n m (initialScanWindow cfg)
                latest w1 Hle) as Hscan.
  destruct (scanBackward client cfg n token (initialScanWindow cfg) latest w1)
    as [[hit | e | ] w2] eqn:E.
  - rewrite Hscan by (cbn; discriminate).
    destruct hit as [[hf ht]|]; [|reflexivity].
    apply binarySearch_fuel_mono; assumption.
  - rewrite Hscan by (cbn; discriminate). reflexivity.
  - exfalso. apply Hfin. reflexivity.
Qed.

End FirstBlockFacts.

Section SingleActiveBlock.
Import Rpc FirstBlock.
Variable B : Z.
Variable latest : Z.
Variable cfg : Config.
Variable c : Address.

Lemma historyLogs_single (b : Z) :
  historyLogs [B] c b = if b =? B then [mkLog b "0xtransfer" 0] else [].
Proof. unfold historyLogs. cbn. rewrite orb_false_r. reflexivity. Qed.

Lemma flat_map_history_miss (n : nat) :
  forall f, (B < f \/ f + Z.of_nat n <= B) ->
            flat_map (historyLogs [B] c) (LogReader.blocksFrom n f) = [].
Proof.
  induction n as [|n IH]; intros f H; [reflexivity|].
  cbn [LogReader.blocksFrom flat_map]. rewrite historyLogs_single.
  destruct (Z.eqb_spec f B); [lia|]. cbn [app]. apply IH. lia.
Qed.

Lemma flat_map_history_hit (n : nat) :
  forall f, f <= B < f + Z.of_nat n ->
            flat_map (historyLogs [B] c) (LogReader.blocksFrom n f)
            = [mkLog B "0xtransfer" 0].
Proof.
  induction n as [|n IH]; intros f H; [lia|].
  cbn [LogReader.blocksFrom flat_map]. rewrite historyLogs_single.
  destruct (Z.eqb_spec f B) as [->|Hne].
  - cbn [app]. rewrite flat_map_history_miss by lia. reflexivity.
  - cbn [app]. apply IH. lia.
Qed.

Lemma logsInRange_history_hit (f t : Z) :
  f <= B <= t ->
  LogReader.logsInRange (historyLogs [B] c) f t = [mkLog B "0xtransfer" 0].
Proof.
  intros H. unfold LogReader.logsInRange. apply flat_map_history_hit. lia.
Qed.

Lemma logsInRange_history_miss (f t : Z) :
  B < f \/ t < B ->
  LogReader.logsInRange (historyLogs [B] c) f t = [].
Proof.
  intros H. unfold LogReader.logsInRange. apply flat_map_history_miss. lia.
Qed.

Lemma fetch_history (f t : Z) (w : World) :
  attempt (LogReader.fetchTransferLogs (historyClient [B] latest) c f t) w
  = (Ok (inl (LogReader.logsInRange (historyLogs [B] c) f t)), w).
Proof.
  unfold attempt, LogReader.fetchTransferLogs.
  rewrite (fetch_ok (historyClient [B] latest) _ c f t w
             (LogReader.logsInRange (historyLogs [B] c) f t) eq_refl).
  reflexivity.
Qed.

(** Phase 1 reaches the window of [B]. *)
Lemma scanBackward_finds_window :
  0 <= maxScanWindow cfg ->
  forall (fuel : nat) (windowSize toBlock : Z) (w : World),
    1 <= B <= toBlock -> 0 <= windowSize ->
    (Z.to_nat (toBlock - B) < fuel)%nat ->
    exists hitFrom hitTo,
      scanBackward (historyClient [B] latest) cfg fuel c windowSize toBlock w
      = (Ok (Some (hitFrom, hitTo)), w)
      /\ 0 <= hitFrom <= B /\ B <= hitTo <= toBlock.
Proof.
  intros Hmax. induction fuel as [|fuel IH];
    intros windowSize toBlock w HB Hws Hfuel; [lia|].
  cbn [scanBackward].
  destruct (Z.gtb_spec toBlock 0); [|lia].
  unfold bind. rewrite fetch_history.
  destruct (Z.le_gt_cases (Z.max 0 (toBlock - windowSize)) B) as [Hin|Hout].
  - rewrite logsInRange_history_hit by lia. cbn.
    eexists. eexists. split; [reflexivity|]. lia.
  - rewrite logsInRange_history_miss by lia. cbn [length Nat.ltb Nat.leb].
    destruct (IH (Z.min (windowSize * 2) (maxScanWindow cfg))
                 (Z.max 0 (toBlock - windowSize) - 1) w)
      as (hf & ht & E & Hf & Ht); try lia.
    exists hf, ht. split; [exact E|]. lia.
Qed.

(** Phase 2 once [B] has been recorded: only misses remain. *)
Lemma binarySearch_after_hit :
  forall (fuel : nat) (lo hi : Z) (w : World),
    hi < B ->
    (Z.to_nat (hi - lo + 1) <= fuel)%nat ->
    binarySearch (historyClient [B] latest) fuel c lo hi B w = (Ok B, w).
Proof.
  induction fuel as [|fuel IH]; intros lo hi w Hhi Hfuel.
  - cbn [binarySearch]. destruct (Z.leb_spec lo hi); [lia|reflexivity].
  - cbn [binarySearch]. destruct (Z.leb_spec lo hi); [|reflexivity].
    unfold bind. rewrite fetch_history.
    assert (lo <= (lo + hi) / 2 <= hi).
    { split; [apply Z.div_le_lower_bound | apply Z.div_le_upper_bound]; lia. }
    rewrite logsInRange_history_miss by lia. cbn [length Nat.ltb Nat.leb].
    apply IH; lia.
Qed.

Lemma binarySearch_finds_block :
  forall (fuel : nat) (lo hi firstBlock : Z) (w : World),
    lo <= B <= hi ->
    (Z.to_nat (hi - lo + 1) < fuel)%nat ->
    binarySearch (historyClient [B] latest) fuel c lo hi firstBlock w = (Ok B, w).
Proof.
  induction fuel as [|fuel IH]; intros lo hi firstBlock w HB Hfuel; [lia|].
  cbn [binarySearch]. destruct (Z.leb_spec lo hi); [|lia].
  unfold bind. rewrite fetch_history.
  assert (lo <= (lo + hi) / 2 <= hi).
  { split; [apply Z.div_le_lower_bound | apply Z.div_le_upper_bound]; lia. }
  destruct (Z.le_gt_cases B ((lo + hi) / 2)) as [Hin|Hout].
  - rewrite logsInRange_history_hit by lia.
    cbn [length Nat.ltb Nat.leb earliestLogBlock map fold_left blockNumber].
    apply binarySearch_after_hit; lia.
  - rewrite logsInRange_history_miss by lia. cbn [length Nat.ltb Nat.leb].
    apply IH; lia.
Qed.

(** When the token has been active in one block [B] only, the locator
    returns [B], whatever the initial and the maximal window size and
    wherever the chain head is. *)
Theorem findFirstActiveBlock_single_active_block (fuel : nat) (w : World) :
  1 <= B <= latest ->
  0 <= initialScanWindow cfg -> 0 <= maxScanWindow cfg ->
  (Z.to_nat latest + 1 < fuel)%nat ->
  findFirstActiveBlock (historyClient [B] latest) cfg fuel c w = (Ok B, w).
Proof.
  intros HB Hws Hmax Hfuel. unfold findFirstActiveBlock, bind.
  cbn [getBlockNumber historyClient LogReader.unrestrictedClient liftResult ret].
  destruct (scanBackward_finds_window Hmax fuel (initialScanWindow cfg)
              latest w HB Hws ltac:(lia))
    as (hf & ht & -> & Hf & Ht).
  apply binarySearch_finds_block; lia.
Qed.
End SingleActiveBlock.

Section FirstBlockScenarios.
Import Rpc FirstBlock.

(** C8, at the failing input.  The token's earliest transfer is in
    block 12345 and the token is still traded at the chain head,
    block 50000.  With the configured window of 20000 blocks the
    first window scanned, [30000, 50000], already holds a log, so
    the locator searches that window only and returns 50000.  Any
    loop budget of at least 32 iterations gives this result. *)
Theorem findFirstActiveBlock_stops_at_newest_window (fuel : nat) :
  (32 <= fuel)%nat ->
  findFirstActiveBlock (historyClient [12345; 50000] 50000)
                       config fuel Scenario.tokenAddress emptyWorld
  = (Ok 50000, emptyWorld).
Proof.
  intros Hfuel.
  rewrite (findFirstActiveBlock_fuel_mono _ _ Scenario.tokenAddress
             32 fuel emptyWorld Hfuel).
  - vm_compute. reflexivity.
  - vm_compute. discriminate.
Qed.

Lemma findFirstActiveBlock_stops_at_newest_window_witness :
  fst (findFirstActiveBlock (historyClient [12345; 50000] 50000)
                            config 40 Scenario.tokenAddress emptyWorld)
  = Ok 50000.
Proof.
  rewrite (findFirstActiveBlock_stops_at_newest_window 40); [reflexivity|].
  lia.
Defined.

(** The same chain head with block 12345 as the only active block: the
    scan does reach its window and the answer is 12345. *)
Example findFirstActiveBlock_single_transfer :
  fst (findFirstActiveBlock (historyClient [12345] 50000)
                            config (Z.to_nat 50002) Scenario.tokenAddress
                            emptyWorld)
  = Ok 12345.
Proof.
  rewrite findFirstActiveBlock_single_active_block;
    [reflexivity | lia | cbn; lia | cbn; lia | lia].
Qed.

End FirstBlockScenarios.

(** ** AMM Simulator *)

Section AmmFacts.
Import Amm.

Lemma applySellPressure_ideal tokenOut rv rt :
  applySellPressure 0 tokenOut rv rt = Some (rv, rt).
Proof. reflexivity. Qed.

(** One IDEAL step from reachable reserves: it does not throw, the
    product loses at most the remainder of the division, and the
    price does not fall. *)
Lemma buybackStep_ideal (P : Params) (i : Z) (st : LoopState) :
  p_sellPressureBpsPerStep P = 0 ->
  0 < buyAmountAt P i ->
  reachable st ->
  exists st',
    buybackStep P i st = Some st'
    /\ reachable st'
    /\ 0 <= product st - product st'
       <= product st mod (l_reserveVirtual st + buyAmountAt P i)
    /\ priceLe st st'.
Proof.
  intros Hbps Hbuy [Hrv Hrt].
  unfold buybackStep, BigInt.bigDiv. rewrite Hbps.
  set (buy := buyAmountAt P i) in *.
  set (rv := l_reserveVirtual st) in *.
  set (rt := l_reserveToken st) in *.
  destruct (Z.eqb_spec (rv + buy) 0) as [E|_]; [lia|].
  rewrite Z.quot_div_nonneg by nia.
  assert (Hq : 0 <= rv * rt / (rv + buy) <= rt).
  { split; [apply Z.div_pos; nia|].
    apply Z.div_le_upper_bound; nia. }
  pose proof (Z.div_mod (rv * rt) (rv + buy) ltac:(lia)) as Hdm.
  pose proof (Z.mod_pos_bound (rv * rt) (rv + buy) ltac:(lia)) as Hmod.
  destruct (Z.leb_spec (rt - rv * rt / (rv + buy)) 0) as [Hskip|Htake].
  - exists st. unfold reachable, priceLe, product. fold rv rt.
    repeat split; lia.
  - rewrite applySellPressure_ideal.
    eexists. split; [reflexivity|].
    unfold reachable, priceLe, product; cbn [l_reserveVirtual l_reserveToken].
    fold rv rt.
    repeat split; try nia.
Qed.

Lemma buyAmountAt_pos (P : Params) (i : Z) :
  0 < p_amountPerStep P -> 0 < buyAmountAt P i.
Proof.
  intros H. unfold buyAmountAt.
  destruct (i =? p_steps P - 1); cbn [andb]; [|assumption].
  destruct (Z.gtb_spec (p_remainderAmount P) 0); assumption.
Qed.

Lemma runSteps_S (P : Params) (n : nat) (i : Z) (st : LoopState) :
  runSteps P (S n) i st
  = match buybackStep P i st with
    | Some st' => runSteps P n (i + 1) st'
    | None => None
    end.
Proof. reflexivity. Qed.

(** The state after [n + 1] iterations is one step past the state
    after [n]. *)
Lemma runSteps_snoc (P : Params) (n : nat) :
  forall (i : Z) (st : LoopState),
    runSteps P (S n) i st
    = match runSteps P n i st with
      | Some s => buybackStep P (i + Z.of_nat n) s
      | None => None
      end.
Proof.
  induction n as [|n IH]; intros i st.
  - cbn. rewrite Z.add_0_r. destruct (buybackStep P i st); reflexivity.
  - rewrite runSteps_S. rewrite (runSteps_S P n i st).
    destruct (buybackStep P i st) as [st'|]; [|reflexivity].
    rewrite IH. replace (i + 1 + Z.of_nat n) with (i + Z.of_nat (S n)) by lia.
    reflexivity.
Qed.

Lemma runSteps_reachable (P : Params) :
  p_sellPressureBpsPerStep P = 0 ->
  0 < p_amountPerStep P ->
  forall (n : nat) (i : Z) (st : LoopState),
    reachable st ->
    exists st', runSteps P n i st = Some st' /\ reachable st'.
Proof.
  intros Hbps Hamt. induction n as [|n IH]; intros i st Hst.
  - exists st. split; [reflexivity | assumption].
  - destruct (buybackStep_ideal P i st Hbps (buyAmountAt_pos P i Hamt) Hst)
      as (st1 & E & Hst1 & _).
    cbn [runSteps]. rewrite E. apply IH. assumption.
Qed.

End AmmFacts.

Section AmmClaims.
Import Amm.

(** C4. AMM invariant of the buyback simulator in IDEAL mode, for
    positive reserves and amounts and a step count in the exact
    range of a JavaScript number.  The simulation returns, and for
    every step [j] of its loop, with [st] the reserves before the
    step and [st'] the reserves after it:
    - the product [reserveVirtual * reserveToken] does not grow, and
      it shrinks by at most the remainder of the step's division;
    - the reserve-implied price does not fall. *)
Theorem simulateBuyback_ideal_amm_invariant
        (reserve0 reserve1 amountPerStepIn totalTaxInput stepInterval : Z)
        (isToken0 : bool) (anchor : option float) (j : nat) :
  0 < reserve0 -> 0 < reserve1 ->
  0 < amountPerStepIn -> 0 < totalTaxInput ->
  let P := paramsOf reserve0 reserve1 isToken0 amountPerStepIn
                    totalTaxInput stepInterval IDEAL anchor in
  let st0 := startState reserve0 reserve1 isToken0 in
  p_steps P < 2 ^ 53 ->
  (j < Z.to_nat (p_steps P))%nat ->
  (exists sim,
      simulateBuyback reserve0 reserve1 isToken0 amountPerStepIn
                      totalTaxInput stepInterval IDEAL anchor = Some sim)
  /\ exists st st',
      runSteps P j 0 st0 = Some st
      /\ runSteps P (S j) 0 st0 = Some st'
      /\ buybackStep P (Z.of_nat j) st = Some st'
      /\ product st' <= product st
      /\ product st - product st'
         <= product st mod (l_reserveVirtual st + buyAmountAt P (Z.of_nat j))
      /\ priceLe st st'.
Proof.
  intros H0 H1 Hamt Htax P st0 _ Hj.
  assert (Hbps : p_sellPressureBpsPerStep P = 0).
  { unfold P, paramsOf, startReserves. destruct isToken0; reflexivity. }
  assert (HamtP : 0 < p_amountPerStep P).
  { unfold P, paramsOf, startReserves. destruct isToken0; assumption. }
  assert (Hst0 : reachable st0).
  { unfold st0, startState, startReserves, reachable.
    destruct isToken0; cbn; lia. }
  split.
  - unfold simulateBuyback.
    destruct (Z.eqb_spec amountPerStepIn 0); [lia|].
    destruct (Z.eqb_spec totalTaxInput 0); [lia|].
    destruct (Z.eqb_spec reserve0 0); [lia|].
    destruct (Z.eqb_spec reserve1 0); [lia|].
    cbn [orb]. fold P. fold st0.
    destruct (runSteps_reachable P Hbps HamtP (Z.to_nat (p_steps P)) 0 st0 Hst0)
      as (stN & E & _).
    rewrite E. eexists. reflexivity.
  - destruct (runSteps_reachable P Hbps HamtP j 0 st0 Hst0) as (st & E & Hst).
    destruct (buybackStep_ideal P (Z.of_nat j) st Hbps
                (buyAmountAt_pos P _ HamtP) Hst)
      as (st' & Estep & _ & Hprod & Hprice).
    exists st, st'. repeat split; try assumption; try lia.
    rewrite runSteps_snoc, E. exact Estep.
Qed.

(** Reserves 1000 quote / 50000 tokens, 100 quote per step, budget
    250: three steps, the second one taken here. *)
Lemma simulateBuyback_ideal_amm_invariant_witness :
  let P := paramsOf 1000 50000 false 100 250 60 IDEAL None in
  exists st st',
    runSteps P 1 0 (startState 1000 50000 false) = Some st
    /\ runSteps P 2 0 (startState 1000 50000 false) = Some st'
    /\ product st' <= product st
    /\ priceLe st st'.
Proof.
  intros P.
  destruct (simulateBuyback_ideal_amm_invariant
              1000 50000 100 250 60 false None 1
              ltac:(lia) ltac:(lia) ltac:(lia) ltac:(lia))
    as (_ & st & st' & E1 & E2 & _ & Hprod & _ & Hprice).
  - vm_compute. reflexivity.
  - vm_compute. lia.
  - exists st, st'. repeat split; assumption.
Defined.

(** C10 as stated fails on one word: the result of [simulateDump] on
    a degenerate input is not all-zero, it repeats the inputs. *)
Lemma simulateDump_echoes_inputs :
  (100000 <= 0 \/ 0 <= 0 \/ 1 <= 0)
  /\ exists r, simulateDump 100000 0 1 = Some r /\ ~ allZeroDump r.
Proof.
  split; [lia|].
  eexists. split; [reflexivity|].
  unfold allZeroDump. cbn. intros [H _]. discriminate H.
Qed.

(** C10, as the code has it.  Both simulators return, without a
    division by zero, on the degenerate inputs:
    - when [amountPerStep], [totalTaxInput], [reserve0] or [reserve1]
      is zero, [simulateBuyback] returns the zeroed simulation:
      zero steps, an empty price trajectory, zero budget, tokens,
      prices and reserves, and the [amountPerStep], the step
      interval and the mode it was called with;
    - when [reserveVirtual], [reserveToken] or [sellAmountToken] is
      not positive, [simulateDump] returns a result whose
      [virtualOut], [initialPrice], [finalPrice],
      [priceImpactPercent] and [requiredBuybackVirtual] are zero and
      whose [reserveVirtual], [reserveToken] and [sellAmountToken]
      are the inputs. *)
Theorem simulators_total_on_degenerate_inputs :
  (forall (reserve0 reserve1 amountPerStepIn totalTaxInput stepInterval : Z)
          (isToken0 : bool) (m : Mode) (anchor : option float),
      amountPerStepIn = 0 \/ totalTaxInput = 0
      \/ reserve0 = 0 \/ reserve1 = 0 ->
      simulateBuyback reserve0 reserve1 isToken0 amountPerStepIn
                      totalTaxInput stepInterval m anchor
      = Some {| budget := 0;
                amountPerStep := amountPerStepIn;
                remainderAmount := 0;
                steps := 0;
                stepIntervalSeconds := stepInterval;
                totalTokensBought := 0;
                avgPrice := 0%float;
                maxSlippage := 0%float;
                initialPrice := 0%float;
                priceTrajectory := [];
                finalPrice := 0%float;
                priceImpactPercent := 0%float;
                reserveVirtual := 0;
                reserveToken := 0;
                assumptions :=
                  mkAssumptions (isIdeal m) true m (sellPressureOf m)
                                RESERVE None |})
  /\ (forall reserveVirtualIn reserveTokenIn sellAmountToken : Z,
        reserveVirtualIn <= 0 \/ reserveTokenIn <= 0
        \/ sellAmountToken <= 0 ->
        simulateDump reserveVirtualIn reserveTokenIn sellAmountToken
        = Some {| d_reserveVirtual := reserveVirtualIn;
                  d_reserveToken := reserveTokenIn;
                  d_sellAmountToken := sellAmountToken;
                  d_virtualOut := 0;
                  d_initialPrice := 0%float;
                  d_finalPrice := 0%float;
                  d_priceImpactPercent := 0%float;
                  d_requiredBuybackVirtual := 0 |}).
Proof.
  split.
  - intros reserve0 reserve1 amt tax stepInterval isToken0 m anchor H.
    unfold simulateBuyback.
    assert (E : (amt =? 0) || (tax =? 0) || (reserve0 =? 0) || (reserve1 =? 0)
                = true).
    { rewrite !orb_true_iff, !Z.eqb_eq. tauto. }
    rewrite E. reflexivity.
  - intros rv rt sell H. unfold simulateDump.
    assert (E : (rv <=? 0) || (rt <=? 0) || (sell <=? 0) = true).
    { rewrite !orb_true_iff, !Z.leb_le. tauto. }
    rewrite E. reflexivity.
Qed.

Lemma simulators_total_on_degenerate_inputs_witness :
  (exists sim, simulateBuyback 1000 50000 false 0 250 60 REALISTIC None
               = Some sim /\ steps sim = 0 /\ priceTrajectory sim = [])
  /\ simulateDump 100000 0 1
     = Some (mkDump 100000 0 1 0 0%float 0%float 0%float 0).
Proof.
  split.
  - eexists. split.
    + apply (proj1 simulators_total_on_degenerate_inputs). left. reflexivity.
    + split; reflexivity.
  - apply (proj2 simulators_total_on_degenerate_inputs). right. left. lia.
Defined.

(** Past the guard the dump divides by [reserveToken +
    sellAmountToken], which is positive. *)
Lemma simulateDump_total (reserveVirtualIn reserveTokenIn sell : Z) :
  exists r, simulateDump reserveVirtualIn reserveTokenIn sell = Some r.
Proof.
  unfold simulateDump, BigInt.bigDiv.
  destruct (Z.leb_spec reserveVirtualIn 0); [eauto|].
  destruct (Z.leb_spec reserveTokenIn 0); [eauto|].
  destruct (Z.leb_spec sell 0); [eauto|]. cbn [orb].
  destruct (Z.eqb_spec (reserveTokenIn + sell) 0); [lia|]. eauto.
Qed.

End AmmClaims.

(** ** Graduation Detector *)

Section GraduationFacts.
Import Rpc Graduation.

(** C5 as stated fails: a pair with one empty side is reported as
    graduated. *)
Lemma checkGraduation_one_sided_reserves :
  getReserves (Scenario.pairChain 0 5) 900%N = inl (0, 5, 0)
  /\ graduated (checkGraduation (Scenario.pairChain 0 5)
                                Scenario.tokenAddress) = true.
Proof. split; reflexivity. Qed.

(** C5, as the code has it.  [checkGraduation] reports graduated =
    true exactly when the token names a non-zero pair address, that
    address is a contract, its [token0], [token1] and [getReserves]
    reads succeed, and the two reserves are not both zero.  In
    particular a pair whose reserves are both zero is not graduated,
    and so is anything that is not a contract. *)
Theorem checkGraduation_graduated_iff
        (chain : Chain) (tokenAddress : Address) :
  graduated (checkGraduation chain tokenAddress) = true
  <-> exists pairAddr t0 t1 reserve0 reserve1 stamp,
      uniswapV2Pair chain tokenAddress = inl pairAddr
      /\ pairAddr <> ZERO_ADDRESS
      /\ isContract chain pairAddr = inl true
      /\ pairToken0 chain pairAddr = inl t0
      /\ pairToken1 chain pairAddr = inl t1
      /\ getReserves chain pairAddr = inl (reserve0, reserve1, stamp)
      /\ ~ (reserve0 = 0 /\ reserve1 = 0).
Proof.
  unfold checkGraduation. split.
  - destruct (uniswapV2Pair chain tokenAddress) as [p|] eqn:Ep;
      [|discriminate].
    destruct (N.eqb_spec p ZERO_ADDRESS); [discriminate|].
    destruct (isContract chain p) as [[|]|] eqn:Ec; try discriminate.
    destruct (pairToken0 chain p) as [t0|] eqn:E0; [|discriminate].
    destruct (pairToken1 chain p) as [t1|] eqn:E1; [|discriminate].
    destruct (getReserves chain p) as [[[r0 r1] s]|] eqn:Er; [|discriminate].
    destruct (Z.eqb_spec r0 0), (Z.eqb_spec r1 0); cbn; try discriminate;
      intros _; exists p, t0, t1, r0, r1, s;
      repeat split; solve [assumption | tauto].
  - intros (p & t0 & t1 & r0 & r1 & s & -> & Hp & -> & -> & -> & -> & Hr).
    destruct (N.eqb_spec p ZERO_ADDRESS); [contradiction|].
    destruct (Z.eqb_spec r0 0), (Z.eqb_spec r1 0); cbn; try reflexivity.
    exfalso. apply Hr. auto.
Qed.

Lemma checkGraduation_graduated_iff_witness :
  graduated (checkGraduation (Scenario.pairChain 3 5) Scenario.tokenAddress)
  = true
  /\ graduated (checkGraduation (Scenario.pairChain 0 0)
                                Scenario.tokenAddress)
     <> true.
Proof.
  split.
  - apply (proj2 (checkGraduation_graduated_iff (Scenario.pairChain 3 5)
                    Scenario.tokenAddress)).
    exists 900%N, Scenario.tokenAddress, VIRTUAL_ADDRESS, 3, 5, 0.
    repeat split; try reflexivity; try discriminate. lia.
  - intros H.
    apply (proj1 (checkGraduation_graduated_iff (Scenario.pairChain 0 0)
                    Scenario.tokenAddress)) in H.
    destruct H as (p & t0 & t1 & r0 & r1 & s & _ & _ & _ & _ & _ & Hr & Hnz).
    cbn in Hr. injection Hr as <- <- <-. apply Hnz. split; reflexivity.
Defined.

End GraduationFacts.

(** ** Tax Inflow Extractor *)

Section TaxTrackerFacts.
Import TaxTracker.

Lemma byTxGet_push (k h : string) (t : ParsedTransfer) (m : ByTx) :
  byTxGet h (byTxPush k t m)
  = if String.eqb k h then Some (default [] (byTxGet h m) ++ [t])
    else byTxGet h m.
Proof.
  induction m as [|[k0 l0] m IH]; cbn [byTxPush byTxGet].
  - destruct (String.eqb k h); reflexivity.
  - destruct (String.eqb_spec k0 k) as [->|Hk0].
    + cbn [byTxGet]. destruct (String.eqb k h); reflexivity.
    + cbn [byTxGet]. rewrite IH.
      destruct (String.eqb_spec k0 h) as [->|]; [|reflexivity].
      destruct (String.eqb_spec k h) as [->|]; [contradiction|reflexivity].
Qed.

Lemma groupByTx_snoc (l : list ParsedTransfer) (t : ParsedTransfer) :
  groupByTx (l ++ [t]) = byTxPush (txHash t) t (groupByTx l).
Proof. unfold groupByTx. rewrite fold_left_app. reflexivity. Qed.

Lemma byTxGet_groupByTx (h : string) (l : list ParsedTransfer) :
  byTxGet h (groupByTx l) = nonEmpty (List.filter (inTx h) l).
Proof.
  induction l as [|t l IH] using rev_ind; [reflexivity|].
  rewrite groupByTx_snoc, byTxGet_push, IH, List.filter_app.
  cbn [List.filter]. unfold inTx.
  destruct (String.eqb (txHash t) h).
  - destruct (List.filter _ l); reflexivity.
  - rewrite app_nil_r. reflexivity.
Qed.

Lemma byTxPush_keys (k : string) (t : ParsedTransfer) (m : ByTx) (h : string) :
  In h (map fst (byTxPush k t m)) <-> h = k \/ In h (map fst m).
Proof.
  induction m as [|[k0 l0] m IH]; cbn [byTxPush].
  - cbn. intuition.
  - destruct (String.eqb_spec k0 k) as [->|Hk0]; cbn [map fst In].
    + intuition.
    + rewrite IH. intuition.
Qed.

Lemma byTxPush_NoDup (k : string) (t : ParsedTransfer) (m : ByTx) :
  List.NoDup (map fst m) -> List.NoDup (map fst (byTxPush k t m)).
Proof.
  induction m as [|[k0 l0] m IH]; cbn [byTxPush]; intros Hnd.
  - cbn. constructor; [intros []|constructor].
  - cbn [map fst] in Hnd. apply List.NoDup_cons_iff in Hnd as [Hnotin Hnd].
    destruct (String.eqb_spec k0 k) as [->|Hk0]; cbn [map fst].
    + constructor; assumption.
    + constructor; [|apply IH, Hnd].
      rewrite byTxPush_keys. intros [->|H]; [congruence|contradiction].
Qed.

Lemma groupByTx_NoDup (l : list ParsedTransfer) :
  List.NoDup (map fst (groupByTx l)).
Proof.
  induction l as [|t l IH] using rev_ind; [constructor|].
  rewrite groupByTx_snoc. apply byTxPush_NoDup, IH.
Qed.

Lemma byTxGet_In (m : ByTx) (h : string) (l : list ParsedTransfer) :
  List.NoDup (map fst m) ->
  (In (h, l) m <-> byTxGet h m = Some l).
Proof.
  induction m as [|[k0 l0] m IH]; cbn [byTxGet map fst In]; intros Hnd.
  - split; [intros [] | discriminate].
  - apply List.NoDup_cons_iff in Hnd as [Hnotin Hnd].
    destruct (String.eqb_spec k0 h) as [->|Hk0].
    + split.
      * intros [[= ->]|Hin]; [reflexivity|].
        exfalso. apply Hnotin. apply (in_map fst) in Hin. exact Hin.
      * intros [= ->]. left. reflexivity.
    + rewrite <- IH by assumption. split.
      * intros [[= ? ?]|Hin]; [contradiction|assumption].
      * intros Hin. right. assumption.
Qed.

Lemma splitLegs_fold (recipient : Address) (virtualByTx : ByTx)
      (entries : ByTx) :
  forall st,
    splitLegs (fold_left (splitStep recipient virtualByTx) entries st)
    = splitLegs st
      ++ flat_map (fun e => splitTaxTransfers recipient (snd e)
                              (default [] (byTxGet (fst e) virtualByTx)))
                  entries.
Proof.
  induction entries as [|[h toks] entries IH]; intros st;
    cbn [fold_left flat_map].
  - rewrite app_nil_r. reflexivity.
  - rewrite IH, app_assoc. f_equal.
    unfold splitStep. cbn [fst snd].
    destruct (splitTaxTransfers _ _ _); cbn [splitLegs].
    + rewrite app_nil_r. reflexivity.
    + reflexivity.
Qed.

Lemma splitTaxTransfers_In (recipient : Address)
      (toks vs : list ParsedTransfer) (v : ParsedTransfer) :
  In v (splitTaxTransfers recipient toks vs)
  <-> In v vs
      /\ exists tokenOut rest,
          JsArray.sortBy (fun a b => byValueDesc a b <=? 0) toks
          = tokenOut :: rest
          /\ (exists u, In u vs /\ from u = to tokenOut
                        /\ to u = from tokenOut /\ 0 < value u)
          /\ from v = to tokenOut
          /\ to v <> from tokenOut
          /\ to v <> recipient
          /\ 0 < value v.
Proof.
  unfold splitTaxTransfers.
  destruct vs as [|v0 vs0] eqn:Evs; [cbn; tauto|].
  cbv iota. rewrite <- Evs. clear Evs.
  destruct (JsArray.sortBy _ toks) as [|tokenOut rest].
  - split; [intros [] | intros (_ & t' & r' & Heq & _); discriminate Heq].
  - destruct (existsb _ vs) eqn:Emain; cbn [negb].
    + rewrite List.filter_In, !andb_true_iff, !negb_true_iff, !N.eqb_eq,
        !N.eqb_neq, Z.gtb_lt.
      apply existsb_exists in Emain as (u & Hu & Hleg).
      rewrite !andb_true_iff, !N.eqb_eq, Z.gtb_lt in Hleg.
      split.
      * intros (Hin & ((Hf & Ht1) & Ht2) & Hv). split; [assumption|].
        exists tokenOut, rest. repeat split; try assumption.
        exists u. tauto.
      * intros (Hin & t' & r' & [= <- <-] & _ & Hf & Ht1 & Ht2 & Hv).
        tauto.
    + split; [intros []|].
      intros (_ & t' & r' & [= <- <-] & (u & Hu & Hf & Ht & Hv) & _).
      assert (existsb
                (fun v1 => N.eqb (from v1) (to tokenOut)
                           && N.eqb (to v1) (from tokenOut)
                           && (value v1 >? 0)) vs = true) as Hex.
      { apply existsb_exists. exists u. split; [assumption|].
        rewrite !andb_true_iff, !N.eqb_eq, Z.gtb_lt. tauto. }
      congruence.
Qed.

(** C6, as the code has it.  A quote transfer [v] is recorded by the
    split-tax rule exactly when, with [tokenOut] the largest token
    transfer of [v]'s transaction (the first one among equals), whose
    sender stands for the market and whose recipient for the trader:
    - the transaction holds a positive quote transfer from the
      trader to the market, and
    - [v] is a positive quote transfer of that transaction sent by
      the trader to an address that is neither the market nor the
      tax recipient.
    The recipient need not be a launch-path address. *)
Theorem split_tax_legs_characterised
        (tokenTransfers virtualTransfers : list ParsedTransfer)
        (recipient : Address) (v : ParsedTransfer) :
  In v (splitLegs (runSplitRule tokenTransfers virtualTransfers recipient))
  <-> In v virtualTransfers
      /\ exists tokenOut rest,
          JsArray.sortBy (fun a b => byValueDesc a b <=? 0)
            (List.filter (inTx (txHash v)) tokenTransfers)
          = tokenOut :: rest
          /\ (exists u, In u virtualTransfers /\ txHash u = txHash v
                        /\ from u = to tokenOut /\ to u = from tokenOut
                        /\ 0 < value u)
          /\ from v = to tokenOut
          /\ to v <> from tokenOut
          /\ to v <> recipient
          /\ 0 < value v.
Proof.
  unfold runSplitRule. rewrite splitLegs_fold. cbn [splitLegs app].
  rewrite in_flat_map. split.
  - intros ([h toks] & Hentry & Hv). cbn [fst snd] in Hv.
    apply byTxGet_In in Hentry; [|apply groupByTx_NoDup].
    rewrite byTxGet_groupByTx in Hentry.
    rewrite byTxGet_groupByTx in Hv.
    apply splitTaxTransfers_In in Hv
      as (Hin & tokenOut & rest & Hsort & (u & Hu & Hleg) & Hrest).
    assert (Hvs : forall x,
               In x (default [] (nonEmpty (List.filter (inTx h) virtualTransfers)))
               -> In x virtualTransfers /\ txHash x = h).
    { intros x Hx.
      destruct (List.filter (inTx h) virtualTransfers) eqn:E;
        [destruct Hx|].
      cbn [nonEmpty default] in Hx. rewrite <- E in Hx.
      apply List.filter_In in Hx as [? Hh]. split; [assumption|].
      apply String.eqb_eq. exact Hh. }
    destruct (Hvs v Hin) as [Hinv Hhash].
    destruct (Hvs u Hu) as [Hinu Hhashu].
    split; [assumption|].
    assert (toks = List.filter (inTx h) tokenTransfers) as ->.
    { destruct (List.filter (inTx h) tokenTransfers); [discriminate|].
      cbn in Hentry. congruence. }
    rewrite Hhash.
    exists tokenOut, rest. split; [assumption|]. split; [|assumption].
    exists u. split; [assumption|]. split; [congruence|assumption].
  - intros (Hin & tokenOut & rest & Hsort & (u & Hu & Hhu & Hleg) & Hrest).
    set (h := txHash v) in *.
    set (toks := List.filter (inTx h) tokenTransfers) in *.
    exists (h, toks). cbn [fst snd]. split.
    + apply byTxGet_In; [apply groupByTx_NoDup|].
      rewrite byTxGet_groupByTx. fold toks.
      destruct toks; [discriminate|reflexivity].
    + rewrite byTxGet_groupByTx.
      assert (Hvs : forall x, In x virtualTransfers -> txHash x = h ->
                 In x (default [] (nonEmpty
                                     (List.filter (inTx h) virtualTransfers)))).
      { intros x Hx Hh.
        assert (In x (List.filter (inTx h) virtualTransfers)) as Hf.
        { apply List.filter_In. split; [assumption|]. apply String.eqb_eq, Hh. }
        destruct (List.filter (inTx h) virtualTransfers); [destruct Hf|].
        exact Hf. }
      apply splitTaxTransfers_In. split; [apply Hvs; [assumption|reflexivity]|].
      exists tokenOut, rest. split; [assumption|]. split; [|assumption].
      exists u. split; [apply Hvs; assumption|assumption].
Qed.

(** C6 as stated fails: the rule records a leg sent to an address
    that is not a launch-path address. *)
Lemma split_tax_leg_outside_launch_path :
  In Scenario.sideLeg
     (splitLegs (runSplitRule Scenario.buyTokenTransfers
                              Scenario.sideLegVirtualTransfers
                              Scenario.taxAddr))
  /\ LaunchPath.isLaunchPath (to Scenario.sideLeg) = false
  /\ In (virtualInflow "p" 1700 Scenario.sideLeg)
        (extractTaxInflows Scenario.buyTokenTransfers
                           Scenario.sideLegVirtualTransfers
                           Scenario.taxAddr "p" 1700).
Proof.
  split; [|split].
  - vm_compute. left. reflexivity.
  - vm_compute. reflexivity.
  - vm_compute. left. reflexivity.
Qed.

Lemma split_tax_legs_characterised_witness :
  In Scenario.sideLeg
     (splitLegs (runSplitRule Scenario.buyTokenTransfers
                              Scenario.sideLegVirtualTransfers
                              Scenario.taxAddr)).
Proof.
  apply (proj2 (split_tax_legs_characterised
                  Scenario.buyTokenTransfers
                  Scenario.sideLegVirtualTransfers
                  Scenario.taxAddr Scenario.sideLeg)).
  split; [right; left; reflexivity|].
  eexists. eexists. split; [vm_compute; reflexivity|].
  split.
  - eexists. split; [left; reflexivity|].
    repeat split; vm_compute; reflexivity.
  - repeat split; try (vm_compute; reflexivity); vm_compute; discriminate.
Defined.

End TaxTrackerFacts.

(** ** Cost Ledger *)

Section CostLedgerFacts.
Import CostLedger.

Lemma remainingCostGross_nonneg (row : AddressCost.t) (c : Z) :
  remainingCostGross row = Some c -> 0 <= c.
Proof.
  unfold remainingCostGross.
  destruct (soldCostGross row) as [sold|]; [|discriminate].
  intros [= <-].
  destruct (Z.gtb_spec (AddressCost.spentQuoteGrossActual row) sold); lia.
Qed.

(** The guard [tokensReceived <= 0n -> continue] keeps the division
    away from a zero divisor. *)
Lemma remainingCostGross_defined (row : AddressCost.t) :
  0 < AddressCost.tokensReceived row ->
  exists c, remainingCostGross row = Some c.
Proof.
  intros Hrecv. unfold remainingCostGross, soldCostGross, BigInt.bigDiv.
  destruct (AddressCost.tokensSold row >? 0); [|eexists; reflexivity].
  destruct (Z.eqb_spec (AddressCost.tokensReceived row) 0); [lia|].
  eexists; reflexivity.
Qed.

Lemma summaryStep_nonneg (balances : Balances) (acc : Acc)
      (row : AddressCost.t) :
  0 <= totalRemainingCostGross acc ->
  exists acc', summaryStep balances acc row = Some acc'
               /\ 0 <= totalRemainingCostGross acc'.
Proof.
  intros Hacc. unfold summaryStep.
  destruct (_ <=? 0); [eauto|].
  destruct (Z.leb_spec (AddressCost.tokensReceived row) 0); [eauto|].
  destruct (remainingTokens row <=? 0); [eauto|].
  destruct (remainingCostGross_defined row) as [c Hc]; [assumption|].
  rewrite Hc. apply remainingCostGross_nonneg in Hc.
  destruct (c <=? 0); [eauto|].
  eexists. split; [reflexivity|]. cbn [totalRemainingCostGross]. lia.
Qed.

Lemma accumulateFrom_nonneg (balances : Balances) (rows : Table) :
  forall acc,
    0 <= totalRemainingCostGross acc ->
    exists acc', accumulateFrom balances rows acc = Some acc'
                 /\ 0 <= totalRemainingCostGross acc'.
Proof.
  induction rows as [|row rows IH]; intros acc Hacc; [eauto|].
  cbn [accumulateFrom].
  destruct (summaryStep_nonneg balances acc row Hacc) as (acc1 & -> & H1).
  apply IH, H1.
Qed.

(** C7. Cost Ledger monotonicity.  For every sequence of trades
    applied to the ledger, whatever the balances (a SELL with no BUY
    before it included, [tokensSold <= tokensReceived] is not
    assumed): the remaining cost [spent - spent * tokensSold /
    tokensReceived], floored at zero, of every ledger row is >= 0
    wherever [computeCostSummary] evaluates it, the total it
    accumulates is >= 0, and [computeCostSummary] returns without
    dividing by zero. *)
Theorem remainingCost_never_negative
        (trades : list Trade.t) (projectId : string) (balances : Balances) :
  let ledger := updateAddressCosts trades [] in
  (forall row c, In row ledger -> remainingCostGross row = Some c -> 0 <= c)
  /\ (exists acc,
         accumulate balances (costRowsOf projectId ledger) = Some acc
         /\ 0 <= totalRemainingCostGross acc)
  /\ (exists summary,
         computeCostSummary projectId ledger balances = Some summary).
Proof.
  intros ledger.
  assert (Hacc : exists acc,
             accumulate balances (costRowsOf projectId ledger) = Some acc
             /\ 0 <= totalRemainingCostGross acc).
  { apply accumulateFrom_nonneg. cbn. lia. }
  split; [|split].
  - intros row c _. apply remainingCostGross_nonneg.
  - exact Hacc.
  - destruct Hacc as (acc & E & _). unfold computeCostSummary.
    destruct (costRowsOf projectId ledger) eqn:Erows; [eauto|].
    rewrite E.
    destruct (_ || _); eauto.
Qed.

(** A sale with no purchase before it: the row has nothing received,
    the summary passes over it and is the empty one. *)
Example lone_sell_summary :
  forall balances,
    computeCostSummary "p" (updateAddressCosts [Scenario.loneSell] [])
                       balances
    = Some emptySummary.
Proof.
  intros balances. cbn. unfold accumulate, accumulateFrom, summaryStep.
  cbn. destruct (_ <=? 0); reflexivity.
Qed.

End CostLedgerFacts.

(** ** Indexer Orchestrator *)

Section OrchestratorFacts.
Import Orchestrator.

(** Every trade handed to the insert loop is announced, inserted or not. *)
Lemma insertTrades_emits_every_trade (projectId : string)
      (allTrades : list Trade.t) (st : State) :
  tradeEvents (emitted (fst (insertTrades projectId allTrades st)))
  = tradeEvents (emitted st) ++ allTrades.
Proof.
  unfold insertTrades.
  assert (H : forall ts acc,
             tradeEvents (emitted (fst (fold_left (insertAndEmit projectId)
                                                  ts acc)))
             = tradeEvents (emitted (fst acc)) ++ ts).
  { induction ts as [|t ts IH]; intros acc.
    - cbn. rewrite app_nil_r. reflexivity.
    - cbn [fold_left]. rewrite IH.
      destruct acc as [s ins]. unfold insertAndEmit.
      destruct (insertTrade t (trades s)) as [changes tbl].
      cbn [fst emitted]. unfold tradeEvents at 1.
      rewrite flat_map_app. fold (tradeEvents (emitted s)).
      unfold eventsFor.
      destruct (_ >=? _); cbn; rewrite <- app_assoc; reflexivity. }
  specialize (H allTrades (st, [])).
  destruct (fold_left (insertAndEmit projectId) allTrades (st, []))
    as [st1 inserted].
  cbn [fst] in H. destruct inserted; cbn [fst emitted]; exact H.
Qed.

(** C9, at the failing input.  A block with one reconstructed trade
    is processed twice.  The second pass inserts no row (the insert
    is a duplicate-key no-op, [totalTrades] is 0 and the table is
    unchanged), yet it emits the trade event again: the emit follows
    the insert unconditionally. *)
Theorem reprocessing_emits_trade_events_again :
  exists st1 st2,
    Scenario.processSampleBlock emptyState = Some (st1, 1)
    /\ Scenario.processSampleBlock st1 = Some (st2, 0)
    /\ trades st2 = trades st1
    /\ emitted st1 = [WsTrade "p" Scenario.sampleTrade]
    /\ emitted st2 = [WsTrade "p" Scenario.sampleTrade;
                      WsTrade "p" Scenario.sampleTrade].
Proof.
  eexists. eexists.
  split; [vm_compute; reflexivity|].
  split; [vm_compute; reflexivity|].
  split; [vm_compute; reflexivity|].
  split; vm_compute; reflexivity.
Qed.

End OrchestratorFacts.

(** * Further properties of the code *)

(** ** Trade Reconstructor: shape of the emitted trades *)

Section TradeShapeFacts.
Import LaunchPath TradeParser TradeShape.

Lemma emitWith_inv trader k c :
  emitWith trader k = Emit c -> exists a, trader = TAddr a /\ c = k a.
Proof.
  destruct trader as [a|]; cbn; [|discriminate].
  intros [= <-]. eauto.
Qed.

Ltac emit_case :=
  repeat match goal with
         | |- context [if ?c then Skip else _] =>
             let E := fresh "E" in destruct c eqn:E; [discriminate|]
         end.

Lemma processGroup_Emit_shape (m : Address) (h : string)
      (g : TxTransferGroup) (c : Candidate.t)
      (projectId : string) (venue : Venue) (ts : Z) :
  processGroup m h g = Emit c ->
  let t := toTrade projectId venue m ts c in
  Trade.txHash t = h
  /\ Trade.logIndex t = Math_min (map logIndex (token g ++ virtual g))
  /\ (isBuy t \/ isSell t).
Proof.
  unfold processGroup. cbv zeta.
  destruct ((netDelta m (virtual g) =? 0) && (netDelta m (token g) =? 0));
    [discriminate|].
  destruct ((netDelta m (virtual g) >? 0) && (netDelta m (token g) <? 0))
    eqn:Ebuy.
  { apply andb_prop in Ebuy as [Hv Ht].
    match goal with
    | |- context [let '(_, _) := ?p in _] => destruct p as [tokenOut grossT] eqn:Ep
    end.
    emit_case. intros H. apply emitWith_inv in H as (a & Ha & ->).
    cbn. split; [reflexivity|]. split; [reflexivity|]. left.
    split; [reflexivity|]. exists (netDelta m (virtual g)), grossT, tokenOut.
    repeat split; try lia.
    rewrite Ha in Ep. injection Ep as _ <-.
    repeat match goal with
           | |- context [if ?c >? 0 then _ else _] =>
               destruct (Z.gtb_spec c 0); try lia
           end.
    match goal with
    | |- context [if ?a <? ?b then _ else _] => destruct (Z.ltb_spec a b); lia
    end. }
  destruct ((netDelta m (token g) >? 0) && (netDelta m (virtual g) <? 0)).
  { match goal with
    | |- context [let '(_, _) := ?p in _] => destruct p as [tokenIn quoteOut]
    end.
    emit_case. apply orb_false_elim in E as [E1 E2].
    intros H. apply emitWith_inv in H as (a & Ha & ->).
    cbn. split; [reflexivity|]. split; [reflexivity|]. right.
    split; [reflexivity|]. exists quoteOut, tokenIn. repeat split; lia. }
  destruct ((netDelta m (token g) >? 0) && hasLaunchPathTransfers g).
  { destruct (List.find _ (token g)); [|discriminate].
    emit_case. rewrite emitWith_addr. intros [= <-].
    cbn. split; [reflexivity|]. split; [reflexivity|]. right.
    split; [reflexivity|]. eexists _, _. repeat split; lia. }
  destruct (netDelta m (token g) <? 0); [|discriminate].
  destruct (List.find _ (token g)) as [recipient|]; [|discriminate].
  match goal with
  | |- context [if ?c then Skip else _] =>
      let E := fresh "E" in destruct c eqn:E; [discriminate|]
  end.
  match goal with
  | |- context [let '(_, _) := ?p in _] => destruct p as [gross fallback]
  end.
  destruct (Z.leb_spec gross 0); [discriminate|].
  rewrite emitWith_addr. intros [= <-].
  cbn. split; [reflexivity|]. split; [reflexivity|]. left.
  split; [reflexivity|]. eexists _, gross, _.
  repeat split; try lia.
  repeat match goal with
         | |- context [if ?a >? ?b then _ else _] =>
             destruct (Z.gtb_spec a b)
         | |- context [if ?a <=? ?b then _ else _] =>
             destruct (Z.leb_spec a b)
         end; lia.
Qed.

Lemma emitTrades_In m mk (gs : TxGroups) :
  forall trades t,
    emitTrades m mk gs = Some trades -> In t trades ->
    exists h g c, In (h, g) gs /\ processGroup m h g = Emit c /\ t = mk c.
Proof.
  induction gs as [|[h g] gs IH]; cbn [emitTrades]; intros trades t.
  - intros [= <-] [].
  - destruct (processGroup m h g) as [|c|] eqn:E; [| |discriminate].
    + intros H Ht. destruct (IH _ _ H Ht) as (h' & g' & c' & ? & ? & ?).
      exists h', g', c'. split; [right; assumption|]. split; assumption.
    + destruct (emitTrades m mk gs) as [rest|]; [|discriminate].
      intros [= <-] [<-|Ht].
      * exists h, g, c. split; [left; reflexivity|]. split; [assumption|reflexivity].
      * destruct (IH _ _ eq_refl Ht) as (h' & g' & c' & ? & ? & ?).
        exists h', g', c'. split; [right; assumption|]. split; assumption.
Qed.

(** X1.  Every trade [reconstructTrades] returns is either a
    purchase whose net quote, gross quote and token amount are all
    positive, or a sale whose token and quote amounts are positive;
    the columns of the other side are empty and the price is the
    quotient of the two amounts.  A transaction that moves nothing
    on one side is never reported as a trade. *)
Theorem reconstructTrades_amounts_positive
        (tokenTransfers virtualTransfers : list ParsedTransfer)
        (marketAddress tokenAddress : Address) (projectId : string)
        (venue : Venue) (blockTimestamp : Z) (trades : list Trade.t)
        (t : Trade.t) :
  reconstructTrades tokenTransfers virtualTransfers marketAddress
                    tokenAddress projectId venue blockTimestamp
  = Some trades ->
  In t trades ->
  isBuy t \/ isSell t.
Proof.
  intros H Ht. destruct (emitTrades_In _ _ _ _ _ H Ht) as (h & g & c & _ & E & ->).
  apply (processGroup_Emit_shape _ _ _ _ projectId venue blockTimestamp) in E.
  apply E.
Qed.

Lemma reconstructTrades_amounts_positive_witness :
  TradeShape.isBuy Scenario.sampleTrade \/ TradeShape.isSell Scenario.sampleTrade.
Proof.
  apply (reconstructTrades_amounts_positive
           Scenario.buyTokenTransfers Scenario.buyVirtualTransfers
           Scenario.market Scenario.tokenAddress "p" INTERNAL 1700
           [Scenario.sampleTrade]).
  - vm_compute. reflexivity.
  - left. reflexivity.
Defined.

(** *** Keys of the group map *)

Lemma groupsSet_keys (h : string) (g : TxTransferGroup) (gs : TxGroups) k :
  In k (map fst (groupsSet h g gs)) <-> k = h \/ In k (map fst gs).
Proof.
  induction gs as [|[k0 g0] gs IH]; cbn [groupsSet map fst In].
  - intuition.
  - destruct (String.eqb_spec k0 h) as [->|Hne]; cbn [map fst In].
    + intuition.
    + rewrite IH. intuition.
Qed.

Lemma groupsSet_NoDup (h : string) (g : TxTransferGroup) (gs : TxGroups) :
  List.NoDup (map fst gs) -> List.NoDup (map fst (groupsSet h g gs)).
Proof.
  induction gs as [|[k0 g0] gs IH]; cbn [groupsSet map fst]; intros Hnd.
  - constructor; [intros []|constructor].
  - inversion Hnd as [|? ? Hnotin Hnd']; subst.
    destruct (String.eqb_spec k0 h) as [->|Hne]; cbn [map fst].
    + constructor; assumption.
    + constructor; [|apply IH; assumption].
      rewrite groupsSet_keys. intros [->|Hin]; [congruence|contradiction].
Qed.

Lemma addToken_NoDup m (gs : TxGroups) t :
  List.NoDup (map fst gs) -> List.NoDup (map fst (addToken m gs t)).
Proof.
  intros H. unfold addToken. destruct (touchesMarket m t); [|assumption].
  cbv zeta.
  remember (match groupsGet (txHash t) gs with
              | Some _ => gs
              | None => groupsSet (txHash t) (mkGroup [] []) gs
              end) as gs1 eqn:Egs1.
  assert (H1 : List.NoDup (map fst gs1)).
  { subst gs1. destruct (groupsGet (txHash t) gs); [assumption|].
    apply groupsSet_NoDup, H. }
  clear Egs1.
  destruct (groupsGet (txHash t) gs1); [apply groupsSet_NoDup|]; assumption.
Qed.

Lemma addVirtual_NoDup m (gs : TxGroups) v :
  List.NoDup (map fst gs) -> List.NoDup (map fst (addVirtual m gs v)).
Proof.
  intros H. unfold addVirtual.
  destruct (groupsGet (txHash v) gs); [apply groupsSet_NoDup, H|].
  destruct (touchesMarket m v); [apply groupsSet_NoDup, H | exact H].
Qed.

Lemma buildGroups_NoDup m ts vs : List.NoDup (map fst (buildGroups m ts vs)).
Proof.
  unfold buildGroups.
  assert (Hv : forall l gs, List.NoDup (map fst gs) ->
                 List.NoDup (map fst (fold_left (addVirtual m) l gs))).
  { induction l as [|v l IH]; intros gs H; [exact H|].
    cbn [fold_left]. apply IH, addVirtual_NoDup, H. }
  assert (Ht : forall l gs, List.NoDup (map fst gs) ->
                 List.NoDup (map fst (fold_left (addToken m) l gs))).
  { induction l as [|v l IH]; intros gs H; [exact H|].
    cbn [fold_left]. apply IH, addToken_NoDup, H. }
  apply Hv, Ht. constructor.
Qed.

Lemma emitTrades_txHashes m pid venue ts (gs : TxGroups) :
  forall trades,
    emitTrades m (toTrade pid venue m ts) gs = Some trades ->
    List.NoDup (map fst gs) ->
    List.NoDup (map Trade.txHash trades).
Proof.
  induction gs as [|[h g] gs IH]; cbn [emitTrades]; intros trades.
  - intros [= <-] _. constructor.
  - intros H Hnd. inversion Hnd as [|? ? Hnotin Hnd']; subst.
    destruct (processGroup m h g) as [|c|] eqn:E; [| |discriminate].
    + apply IH; assumption.
    + destruct (emitTrades m _ gs) as [rest|] eqn:Er; [|discriminate].
      injection H as <-. cbn [map]. constructor; [|apply IH; auto].
      intros Hin. apply in_map_iff in Hin as (t & Htx & Ht).
      destruct (emitTrades_In _ _ _ _ _ Er Ht) as (h' & g' & c' & Hin' & E' & ->).
      apply (processGroup_Emit_shape _ _ _ _ pid venue ts) in E' as [E' _].
      apply (processGroup_Emit_shape _ _ _ _ pid venue ts) in E as [E _].
      apply Hnotin. apply in_map_iff. exists (h', g'). split; [|assumption].
      cbn [fst]. congruence.
Qed.

(** X2.  [reconstructTrades] reports at most one trade per
    transaction: the transaction hashes of the trades it returns are
    pairwise distinct. *)
Theorem reconstructTrades_one_trade_per_tx
        (tokenTransfers virtualTransfers : list ParsedTransfer)
        (marketAddress tokenAddress : Address) (projectId : string)
        (venue : Venue) (blockTimestamp : Z) (trades : list Trade.t) :
  reconstructTrades tokenTransfers virtualTransfers marketAddress
                    tokenAddress projectId venue blockTimestamp
  = Some trades ->
  List.NoDup (map Trade.txHash trades).
Proof.
  intros H. eapply emitTrades_txHashes; [exact H|apply buildGroups_NoDup].
Qed.

Lemma reconstructTrades_one_trade_per_tx_witness :
  List.NoDup (map Trade.txHash [Scenario.sampleTrade]).
Proof.
  apply (reconstructTrades_one_trade_per_tx
           Scenario.buyTokenTransfers Scenario.buyVirtualTransfers
           Scenario.market Scenario.tokenAddress "p" INTERNAL 1700).
  vm_compute. reflexivity.
Defined.

Lemma groupsGet_Some (h : string) (gs : TxGroups) g :
  groupsGet h gs = Some g -> In (h, g) gs.
Proof.
  induction gs as [|[k g0] gs IH]; cbn [groupsGet]; [discriminate|].
  destruct (String.eqb_spec k h) as [->|Hne].
  - intros [= <-]. left. reflexivity.
  - intros H. right. apply IH, H.
Qed.

Lemma groupsSet_entries (h : string) (g : TxTransferGroup) (gs : TxGroups) e :
  In e (groupsSet h g gs) -> e = (h, g) \/ In e gs.
Proof.
  induction gs as [|[k g0] gs IH]; cbn [groupsSet].
  - intros [<-|[]]. left. reflexivity.
  - destruct (String.eqb_spec k h) as [->|Hne]; cbn [In].
    + intros [<-|H]; [left; reflexivity | right; right; exact H].
    + intros [<-|H]; [right; left; reflexivity|].
      destruct (IH H) as [?|?]; [left; assumption | right; right; assumption].
Qed.

Lemma groupsSet_twice (h : string) (g g0 : TxTransferGroup) (gs : TxGroups) :
  groupsSet h g (groupsSet h g0 gs) = groupsSet h g gs.
Proof.
  induction gs as [|[k g1] gs IH]; cbn [groupsSet].
  - rewrite String.eqb_refl. reflexivity.
  - destruct (String.eqb k h) eqn:E; cbn [groupsSet]; rewrite E.
    + reflexivity.
    + rewrite IH. reflexivity.
Qed.

Lemma groupsGet_set (h : string) (g : TxTransferGroup) (gs : TxGroups) :
  groupsGet h (groupsSet h g gs) = Some g.
Proof.
  induction gs as [|[k g0] gs IH]; cbn [groupsSet groupsGet].
  - rewrite String.eqb_refl. reflexivity.
  - destruct (String.eqb k h) eqn:E; cbn [groupsGet]; rewrite E;
      [reflexivity|exact IH].
Qed.

Lemma addToken_groupOf m ts vs (gs : TxGroups) t :
  In t ts ->
  (forall e, In e gs -> groupOf m ts vs e) ->
  forall e, In e (addToken m gs t) -> groupOf m ts vs e.
Proof.
  intros Ht Hgs. unfold addToken.
  destruct (touchesMarket m t) eqn:Etouch; [|assumption].
  destruct (groupsGet (txHash t) gs) as [g|] eqn:Eg.
  - rewrite Eg. intros e He. apply groupsSet_entries in He as [->|He]; [|auto].
    destruct (Hgs _ (groupsGet_Some _ _ _ Eg)) as (Htok & Hvir & x & Hx & Hxm).
    cbn [fst snd token virtual] in *. split; [|split].
    + intros y Hy. apply in_app_or in Hy as [Hy|[<-|[]]]; auto.
    + exact Hvir.
    + exists t. split; [|exact Etouch].
      apply in_or_app. left. apply in_or_app. right. left. reflexivity.
  - rewrite groupsGet_set, groupsSet_twice. intros e He.
    apply groupsSet_entries in He as [->|He]; [|auto].
    cbn [fst snd token virtual app]. split; [|split].
    + intros y [<-|[]]. auto.
    + intros y [].
    + exists t. split; [left; reflexivity|exact Etouch].
Qed.

Lemma addVirtual_groupOf m ts vs (gs : TxGroups) v :
  In v vs ->
  (forall e, In e gs -> groupOf m ts vs e) ->
  forall e, In e (addVirtual m gs v) -> groupOf m ts vs e.
Proof.
  intros Hv Hgs. unfold addVirtual.
  destruct (groupsGet (txHash v) gs) as [g|] eqn:Eg.
  - intros e He. apply groupsSet_entries in He as [->|He]; [|auto].
    destruct (Hgs _ (groupsGet_Some _ _ _ Eg)) as (Htok & Hvir & x & Hx & Hxm).
    cbn [fst snd token virtual] in *. split; [|split].
    + exact Htok.
    + intros y Hy. apply in_app_or in Hy as [Hy|[<-|[]]]; auto.
    + exists x. split; [|exact Hxm].
      apply in_app_or in Hx as [Hx|Hx]; apply in_or_app; [left; exact Hx|].
      right. apply in_or_app. left. exact Hx.
  - destruct (touchesMarket m v) eqn:Etouch; [|assumption].
    intros e He. apply groupsSet_entries in He as [->|He]; [|auto].
    cbn [fst snd token virtual app]. split; [|split].
    + intros y [].
    + intros y [<-|[]]. auto.
    + exists v. split; [left; reflexivity|exact Etouch].
Qed.

Lemma buildGroups_groupOf m ts vs e :
  In e (buildGroups m ts vs) -> groupOf m ts vs e.
Proof.
  unfold buildGroups.
  assert (Htok : forall l (gs : TxGroups),
             (forall t, In t l -> In t ts) ->
             (forall e, In e gs -> groupOf m ts vs e) ->
             forall e, In e (fold_left (addToken m) l gs) -> groupOf m ts vs e).
  { induction l as [|t l IH]; intros gs Hl Hgs; [assumption|].
    cbn [fold_left]. apply IH.
    - intros x Hx. apply Hl. right. exact Hx.
    - apply addToken_groupOf; [apply Hl; left; reflexivity | assumption]. }
  assert (Hvir : forall l (gs : TxGroups),
             (forall t, In t l -> In t vs) ->
             (forall e, In e gs -> groupOf m ts vs e) ->
             forall e, In e (fold_left (addVirtual m) l gs) -> groupOf m ts vs e).
  { induction l as [|t l IH]; intros gs Hl Hgs; [assumption|].
    cbn [fold_left]. apply IH.
    - intros x Hx. apply Hl. right. exact Hx.
    - apply addVirtual_groupOf; [apply Hl; left; reflexivity | assumption]. }
  revert e. apply Hvir; [auto|]. apply Htok; [auto|]. intros e [].
Qed.

Lemma fold_min_In (l : list Z) :
  forall x, fold_left Z.min l x = x \/ In (fold_left Z.min l x) l.
Proof.
  induction l as [|y l IH]; intros x; cbn [fold_left]; [left; reflexivity|].
  destruct (IH (Z.min x y)) as [E|Hin].
  - rewrite E. destruct (Z.min_spec x y) as [[_ ->]|[_ ->]];
      [left; reflexivity | right; left; reflexivity].
  - right. right. exact Hin.
Qed.


Lemma fold_min_le (l : list Z) :
  forall x, fold_left Z.min l x <= x
            /\ forall y, In y l -> fold_left Z.min l x <= y.
Proof.
  induction l as [|z l IH]; intros x; cbn [fold_left].
  - split; [lia|intros y []].
  - destruct (IH (Z.min x z)) as [H1 H2]. split; [lia|].
    intros y [<-|Hy]; [lia|auto].
Qed.




(** X5.  When no quote transfer of the input pays the market
    directly (the quote reaches it through a router), every purchase
    [reconstructTrades] reports has a positive net amount that does
    not exceed its gross amount. *)
Theorem routed_buy_net_le_gross
        (tokenTransfers virtualTransfers : list ParsedTransfer)
        (marketAddress tokenAddress : Address) (projectId : string)
        (venue : Venue) (blockTimestamp : Z) (trades : list Trade.t)
        (t : Trade.t) :
  nonNegative virtualTransfers ->
  (forall v, In v virtualTransfers -> to v <> marketAddress) ->
  reconstructTrades tokenTransfers virtualTransfers marketAddress
                    tokenAddress projectId venue blockTimestamp
  = Some trades ->
  In t trades ->
  Trade.side t = BUY ->
  exists net gross,
    Trade.quoteIn t = Some net /\ Trade.quoteInGross t = Some gross
    /\ 0 < net <= gross.
Proof.
  intros Hnn Hto H Ht Hside.
  destruct (emitTrades_In _ _ _ _ _ H Ht) as (h & g & c & Hin & E & ->).
  apply buildGroups_groupOf in Hin as (_ & Hvir & _). cbn [fst snd] in Hvir.
  assert (Hdelta : netDelta marketAddress (virtual g) <= 0).
  { apply netDelta_no_inflow.
    - intros v Hv. apply Hnn, Hvir, Hv.
    - destruct (List.find _ (virtual g)) as [v|] eqn:Ef; [|reflexivity].
      apply List.find_some in Ef as [Hv Ev]. apply N.eqb_eq in Ev.
      destruct (Hto v); [apply Hvir, Hv | exact Ev]. }
  assert (Hdirect : (netDelta marketAddress (virtual g) >? 0)
                    && (netDelta marketAddress (token g) <? 0) = false).
  { destruct (Z.gtb_spec (netDelta marketAddress (virtual g)) 0); [lia|].
    reflexivity. }
  pose proof (processGroup_Emit_shape _ _ _ _ projectId venue blockTimestamp E)
    as Hshape. cbv zeta in Hshape. destruct Hshape as (_ & _ & Hshape).
  destruct (fallback_buy_net_le_gross _ _ _ _ Hdirect E Hside)
    as (net & gross & En & Eg & Hle).
  exists net, gross. cbn. repeat split; try assumption.
  destruct Hshape as [(_ & q & gr & o & Eq & _ & _ & _ & _ & Hq & _)
                     |(Hs & _)].
  - cbn in Eq. assert (q = net) by congruence. lia.
  - cbn in Hs, Hside. congruence.
Qed.

Lemma routed_buy_net_le_gross_witness :
  exists net gross,
    Trade.quoteIn Examples.routerPathTrade = Some net
    /\ Trade.quoteInGross Examples.routerPathTrade = Some gross
    /\ 0 < net <= gross.
Proof.
  apply (routed_buy_net_le_gross
           Scenario.buyTokenTransfers Examples.routerPathVirtualTransfers
           Scenario.market Scenario.tokenAddress "p" INTERNAL 1700
           [Examples.routerPathTrade]).
  - intros v [<-|[]]. cbn. lia.
  - intros v [<-|[]]. cbn. discriminate.
  - vm_compute. reflexivity.
  - left. reflexivity.
  - reflexivity.
Defined.

(** X4.  On token transfers with non-negative amounts, as the
    chain emits them, [reconstructTrades] returns: no transaction
    reaches [getAddress] with the placeholder trader ['unknown']. *)
Theorem reconstructTrades_never_throws_on_unsigned_amounts
        (tokenTransfers virtualTransfers : list ParsedTransfer)
        (marketAddress tokenAddress : Address) (projectId : string)
        (venue : Venue) (blockTimestamp : Z) :
  nonNegative tokenTransfers ->
  reconstructTrades tokenTransfers virtualTransfers marketAddress
                    tokenAddress projectId venue blockTimestamp
  <> None.
Proof.
  intros Hnn.
  destruct (emitTrades_total marketAddress
              (toTrade projectId venue marketAddress blockTimestamp)
              (buildGroups marketAddress tokenTransfers virtualTransfers))
    as [trades E].
  - intros e He t Ht. apply Hnn. eapply buildGroups_within; eassumption.
  - unfold reconstructTrades. rewrite E. discriminate.
Qed.

Lemma reconstructTrades_never_throws_on_unsigned_amounts_witness :
  reconstructTrades Scenario.buyTokenTransfers
                    Examples.routerPathVirtualTransfers
                    Scenario.market Scenario.tokenAddress "p" INTERNAL 1700
  <> None.
Proof.
  apply (reconstructTrades_never_throws_on_unsigned_amounts
           Scenario.buyTokenTransfers Examples.routerPathVirtualTransfers
           Scenario.market Scenario.tokenAddress "p" INTERNAL 1700).
  intros t [<-|[]]. cbn. lia.
Defined.

End TradeShapeFacts.

(** ** Launch-path inference *)

Section LaunchPathFacts.
Import LaunchPath TradeParser LaunchPathSums.

Lemma sumValue_from (l : list ParsedTransfer) :
  forall a, fold_left (fun sum t => sum + value t) l a = a + sumValue l.
Proof.
  unfold sumValue. induction l as [|x l IH]; intros a; cbn [fold_left]; [lia|].
  rewrite IH, (IH (0 + value x)). lia.
Qed.

Lemma sumValue_cons (x : ParsedTransfer) (l : list ParsedTransfer) :
  sumValue (x :: l) = value x + sumValue l.
Proof. unfold sumValue at 1. cbn [fold_left]. rewrite sumValue_from. lia. Qed.

Lemma sumValue_nonneg (l : list ParsedTransfer) :
  nonNegative l -> 0 <= sumValue l.
Proof.
  induction l as [|x l IH]; intros H; [reflexivity|].
  rewrite sumValue_cons.
  assert (0 <= value x) by (apply H; left; reflexivity).
  assert (0 <= sumValue l) by (apply IH; intros t Ht; apply H; right; exact Ht).
  lia.
Qed.

Lemma nonNegative_filter (p : ParsedTransfer -> bool) l :
  nonNegative l -> nonNegative (List.filter p l).
Proof. intros H t Ht. apply List.filter_In in Ht as [Ht _]. apply H, Ht. Qed.

Lemma isLaunchPath_net : isLaunchPath LAUNCH_PATH_NET_ADDRESS = true.
Proof. reflexivity. Qed.

Lemma inferBuy_fold (trader : Address) (l : list ParsedTransfer) :
  forall acc,
    let acc' := fold_left (inferBuyStep trader) l acc in
    gross acc' = gross acc + sumValue (List.filter (toLaunchPath trader) l)
    /\ netToPrimary acc'
       = netToPrimary acc + sumValue (List.filter (toNetAddress trader) l).
Proof.
  induction l as [|v l IH]; intros acc; cbn [fold_left List.filter].
  - cbn. unfold sumValue. cbn. lia.
  - cbv zeta in IH. destruct (IH (inferBuyStep trader acc v)) as [Hg Hn].
    cbv zeta. rewrite Hg, Hn. clear IH Hg Hn.
    unfold inferBuyStep, toLaunchPath, toNetAddress.
    destruct (N.eqb (from v) trader); cbn [negb orb andb].
    + destruct (isLaunchPath (to v)) eqn:Elp; cbn [negb].
      * cbn [gross netToPrimary]. rewrite sumValue_cons.
        destruct (N.eqb (to v) LAUNCH_PATH_NET_ADDRESS);
          rewrite ?sumValue_cons; lia.
      * destruct (N.eqb_spec (to v) LAUNCH_PATH_NET_ADDRESS) as [E|_]; [|lia].
        rewrite E, isLaunchPath_net in Elp. discriminate.
    + lia.
Qed.

(** X6.  For quote transfers with non-negative amounts,
    [inferLaunchPathBuyQuote] returns as gross the sum of what the
    trader sent to the launch-path addresses, and a net amount
    between zero and the gross; the net is positive whenever the gross
    is, and it is the sum sent to the net address whenever that sum is
    positive. *)
Theorem inferLaunchPathBuyQuote_bounds
        (group : TxTransferGroup) (trader : Address) :
  nonNegative (virtual group) ->
  let sent := sumValue (List.filter (toLaunchPath trader) (virtual group)) in
  let primary := sumValue (List.filter (toNetAddress trader) (virtual group)) in
  let gross := fst (inferLaunchPathBuyQuote group trader) in
  let net := snd (inferLaunchPathBuyQuote group trader) in
  gross = sent
  /\ 0 <= net <= gross
  /\ (0 < gross -> 0 < net)
  /\ (0 < primary -> net = primary).
Proof.
  intros Hnn. cbv zeta. unfold inferLaunchPathBuyQuote. cbv zeta.
  cbn [fst snd].
  destruct (inferBuy_fold trader (virtual group) (mkBuyAcc 0 0 0 ∅)) as [Hg Hn].
  cbv zeta in Hg, Hn. cbn [gross netToPrimary] in Hg, Hn.
  set (acc := fold_left (inferBuyStep trader) (virtual group) _) in *.
  rewrite Hg, Hn.
  assert (Hs : 0 <= sumValue (List.filter (toLaunchPath trader) (virtual group)))
    by (apply sumValue_nonneg, nonNegative_filter, Hnn).
  assert (Hp : 0 <= sumValue (List.filter (toNetAddress trader) (virtual group)))
    by (apply sumValue_nonneg, nonNegative_filter, Hnn).
  assert (Hle : sumValue (List.filter (toNetAddress trader) (virtual group))
                <= sumValue (List.filter (toLaunchPath trader) (virtual group))).
  { clear -Hnn. induction (virtual group) as [|v l IH]; [reflexivity|].
    assert (Hv : 0 <= value v) by (apply Hnn; left; reflexivity).
    assert (Hl : nonNegative l) by (intros t Ht; apply Hnn; right; exact Ht).
    specialize (IH Hl). cbn [List.filter].
    unfold toNetAddress at 1, toLaunchPath at 1.
    destruct (N.eqb (from v) trader); cbn [andb]; [|exact IH].
    destruct (N.eqb_spec (to v) LAUNCH_PATH_NET_ADDRESS) as [E|_].
    - rewrite E, isLaunchPath_net, !sumValue_cons. lia.
    - destruct (isLaunchPath (to v)); rewrite ?sumValue_cons; lia. }
  rewrite !Z.add_0_l.
  repeat match goal with
         | |- context [if ?a >? ?b then _ else _] =>
             lazymatch a with
             | context [if _ then _ else _] => fail
             | _ => destruct (Z.gtb_spec a b)
             end
         | |- context [if ?a <=? ?b then _ else _] =>
             lazymatch a with
             | context [if _ then _ else _] => fail
             | _ => destruct (Z.leb_spec a b)
             end
         end; repeat split; lia.
Qed.

(** Without a quote transfer from or to a launch-path address the
    two inference functions find nothing. *)
Theorem no_launch_path_no_inference
        (group : TxTransferGroup) (trader : Address) :
  hasLaunchPathTransfers group = false ->
  inferLaunchPathBuyQuote group trader = (0, 0)
  /\ inferLaunchPathSellQuoteOut group trader = 0.
Proof.
  unfold hasLaunchPathTransfers, inferLaunchPathBuyQuote,
    inferLaunchPathSellQuoteOut.
  intros H.
  assert (Hall : forall v, In v (virtual group) ->
                           isLaunchPath (from v) = false
                           /\ isLaunchPath (to v) = false).
  { intros v Hv. rewrite <- orb_false_iff.
    destruct (isLaunchPath (from v) || isLaunchPath (to v)) eqn:E; [|reflexivity].
    rewrite <- H. symmetry. apply existsb_exists. exists v. auto. }
  clear H. split.
  - assert (E : forall acc, fold_left (inferBuyStep trader) (virtual group) acc
                            = acc).
    { induction (virtual group) as [|v l IH]; intros acc; [reflexivity|].
      cbn [fold_left]. unfold inferBuyStep at 2.
      destruct (Hall v (or_introl eq_refl)) as [_ ->].
      rewrite orb_true_r. apply IH. intros x Hx. apply Hall. right. exact Hx. }
    rewrite E. reflexivity.
  - induction (virtual group) as [|v l IH]; [reflexivity|].
    cbn [fold_left]. destruct (Hall v (or_introl eq_refl)) as [-> _].
    rewrite andb_false_r. apply IH. intros x Hx. apply Hall. right. exact Hx.
Qed.

Lemma inferLaunchPathBuyQuote_bounds_witness :
  fst (inferLaunchPathBuyQuote Examples.launchPathGroup Scenario.trader) = 100
  /\ snd (inferLaunchPathBuyQuote Examples.launchPathGroup Scenario.trader)
     = 70.
Proof.
  destruct (inferLaunchPathBuyQuote_bounds Examples.launchPathGroup
              Scenario.trader) as (Hg & _ & _ & Hn).
  - intros v [<-|[<-|[]]]; cbn; lia.
  - split; [exact Hg | apply Hn; reflexivity].
Defined.

Lemma no_launch_path_no_inference_witness :
  inferLaunchPathBuyQuote Examples.plainGroup Scenario.trader = (0, 0)
  /\ inferLaunchPathSellQuoteOut Examples.plainGroup Scenario.trader = 0.
Proof.
  apply (no_launch_path_no_inference Examples.plainGroup Scenario.trader).
  reflexivity.
Defined.

End LaunchPathFacts.

(** ** Log Reader: what reaches the caller and the telemetry *)

Section LogReaderEffects.
Import Rpc LogReader.

Variable client : Client.

Lemma fetchFuel_effects (c : Address) :
  forall (fuel : nat) (f t : Z) (w : World),
    (forall e, fst (fetchTransferLogsFuel client fuel c f t w) = Throw e ->
               isRangeError (message e) = false)
    /\ (forall c', c' <> c ->
                   failureStats (snd (fetchTransferLogsFuel client fuel c f t w))
                     !! c'
                   = failureStats w !! c').
Proof.
  induction fuel as [|fuel IH]; intros f t w;
    (destruct (getLogs client c f t) as [logs|e] eqn:E;
     [rewrite (fetch_ok client _ c f t w logs E); cbn [fst snd];
      split; [discriminate|reflexivity]|]);
    (destruct (isRangeError (message e)) eqn:Er;
     [|rewrite (fetch_rethrow client _ c f t w e E Er); cbn [fst snd];
       split; [intros e' [= <-]; exact Er | reflexivity]]);
    (destruct (Z.leb_spec (t - f) 1) as [Hw|Hw];
     [rewrite (fetch_give_up client _ c f t w e E Er Hw); cbn [fst snd failureStats];
      split; [discriminate|];
      intros c' Hc'; unfold Observability.recordTransferLogFailure; cbv zeta;
      unfold Observability.Stats in *;
      rewrite lookup_insert_ne by congruence; reflexivity|]).
  - cbn [fetchTransferLogsFuel]. unfold bind, attempt, clientGetLogs.
    rewrite E. cbn [liftResult throw]. rewrite Er.
    destruct (Z.leb_spec (t - f) 1); [lia|].
    cbn. split; [discriminate|reflexivity].
  - rewrite (fetch_split client fuel c f t w e E Er Hw). cbv zeta.
    unfold bind.
    destruct (IH f (f + Z.quot (t - f) 2) w) as [HL1 HL2].
    destruct (fetchTransferLogsFuel client fuel c f _ w)
      as [[left|el|] w1] eqn:EL; cbn [fst snd] in *.
    + destruct (IH (f + Z.quot (t - f) 2 + 1) t w1) as [HR1 HR2].
      destruct (fetchTransferLogsFuel client fuel c _ t w1)
        as [[right|er|] w2] eqn:ER; cbn [fst snd ret] in *.
      * split; [discriminate|]. intros c' Hc'.
        rewrite HR2, HL2 by assumption. reflexivity.
      * split; [intros e' [= <-]; apply HR1; reflexivity|].
        intros c' Hc'. rewrite HR2, HL2 by assumption. reflexivity.
      * split; [discriminate|]. intros c' Hc'.
        rewrite HR2, HL2 by assumption. reflexivity.
    + split; [intros e' [= <-]; apply HL1; reflexivity|].
      intros c' Hc'. apply HL2, Hc'.
    + split; [discriminate|]. intros c' Hc'. apply HL2, Hc'.
Qed.

(** X7.  Whatever the provider does, an error that leaves
    [fetchTransferLogs] is not a range error: range errors are
    answered by splitting, retrying or giving up with an empty
    result, and only the other errors reach the caller. *)
Theorem fetchTransferLogs_never_throws_range_error
        (c : Address) (f t : Z) (w : World) (e : RpcError) :
  fst (fetchTransferLogs client c f t w) = Throw e ->
  isRangeError (message e) = false.
Proof. apply fetchFuel_effects. Qed.

(** A fetch for one contract leaves the failure record of every
    other contract as it was. *)
Theorem fetchTransferLogs_keeps_other_contracts_stats
        (c c' : Address) (f t : Z) (w : World) :
  c' <> c ->
  Observability.getTransferLogFailureStat c'
    (failureStats (snd (fetchTransferLogs client c f t w)))
  = Observability.getTransferLogFailureStat c' (failureStats w).
Proof. intros H. apply fetchFuel_effects, H. Qed.

End LogReaderEffects.

Section LogReaderEffectsScenarios.
Import Rpc LogReader.

Lemma fetchTransferLogs_never_throws_range_error_witness :
  isRangeError (message Examples.refusing) = false.
Proof.
  apply (fetchTransferLogs_never_throws_range_error
           Examples.refusingClient Scenario.tokenAddress 0 10 emptyWorld).
  reflexivity.
Defined.

Lemma fetchTransferLogs_keeps_other_contracts_stats_witness :
  Observability.getTransferLogFailureStat Scenario.market
    (failureStats
       (snd (fetchTransferLogs (cappedClient Scenario.burstChain 1 10)
                               Scenario.tokenAddress 5 5 emptyWorld)))
  = Observability.getTransferLogFailureStat Scenario.market
      (failureStats emptyWorld).
Proof.
  apply (fetchTransferLogs_keeps_other_contracts_stats
           (cappedClient Scenario.burstChain 1 10)).
  intros H. discriminate H.
Defined.

End LogReaderEffectsScenarios.

(** ** Retry with exponential backoff *)

Section RetryFacts.
Import Rpc Retry Sums.

Context {A : Type}.

Lemma blocksFrom_S_snoc (n : nat) :
  forall b, LogReader.blocksFrom (S n) b
            = LogReader.blocksFrom n b ++ [b + Z.of_nat n].
Proof.
  induction n as [|n IH]; intros b.
  - cbn. rewrite Z.add_0_r. reflexivity.
  - change (LogReader.blocksFrom (S (S n)) b)
      with (b :: LogReader.blocksFrom (S n) (b + 1)).
    rewrite IH. cbn [LogReader.blocksFrom app].
    do 3 f_equal. lia.
Qed.

Lemma backoff_S (base k : Z) :
  0 <= k -> backoff base (k + 1) = backoff base k ++ [base * 2 ^ k].
Proof.
  intros Hk. unfold backoff.
  replace (Z.to_nat (k + 1)) with (S (Z.to_nat k)) by lia.
  rewrite blocksFrom_S_snoc, map_app. cbn [map].
  rewrite Z.add_0_l, Z2Nat.id by assumption. reflexivity.
Qed.

Lemma total_app (xs ys : list Z) : total (xs ++ ys) = total xs + total ys.
Proof.
  unfold total. induction xs as [|x xs IH]; cbn [app fold_right]; lia.
Qed.

Lemma total_backoff (base k : Z) :
  0 <= k -> total (backoff base k) = base * (2 ^ k - 1).
Proof.
  intros Hk. pattern k. apply natlike_ind; [| |exact Hk].
  - change (0 = base * (2 ^ 0 - 1)). rewrite Z.pow_0_r. lia.
  - clear k Hk. intros k Hk IH. unfold Z.succ.
    rewrite backoff_S, total_app, IH by assumption.
    unfold total. cbn [fold_right]. rewrite Z.pow_add_r by lia. lia.
Qed.

(** The loop entered at attempt [i] with the delays of the earlier
    attempts already slept. *)
Lemma withRetryLoop_first_success (fn : Z -> M A) (k : Z)
      (e : Z -> RpcError) (a : A) (maxRetries base : Z) :
  0 <= k <= maxRetries ->
  (forall j w, 0 <= j < k -> fn j w = (Throw (e j), w)) ->
  (forall w, fn k w = (Ok a, w)) ->
  forall (n : nat) (i : Z) (w : World),
    0 <= i <= k -> (Z.to_nat (k - i) < n)%nat ->
    withRetryLoop fn n i maxRetries base w
    = (Ok a,
       mkWorld (sleeps w
                ++ map (fun j => base * 2 ^ j)
                       (LogReader.blocksFrom (Z.to_nat (k - i)) i))
               (failureStats w)).
Proof.
  intros Hk Hfail Hok. induction n as [|n IH]; intros i w Hi Hn; [lia|].
  cbn [withRetryLoop]. unfold bind at 1, attempt.
  destruct (Z.ltb_spec i k) as [Hlt|Hge].
  - rewrite Hfail by lia.
    destruct (Z.eqb_spec i maxRetries) as [->|_]; [lia|].
    unfold bind, sleep. rewrite IH by lia. cbn [sleeps failureStats].
    replace (Z.to_nat (k - i)) with (S (Z.to_nat (k - (i + 1)))) by lia.
    cbn [LogReader.blocksFrom map]. rewrite <- app_assoc. reflexivity.
  - assert (i = k) as -> by lia. rewrite Hok, Z.sub_diag. cbn.
    rewrite app_nil_r. destruct w. reflexivity.
Qed.

(** X8.  When the call fails at the attempts before [k] and
    succeeds at attempt [k], with [k] at most [maxRetries],
    [withRetry] returns that result after sleeping
    [baseDelayMs * 2^j] for j = 0 .. k-1 in this order, which adds up
    to [baseDelayMs * (2^k - 1)]; a first-time success sleeps not at
    all. *)
Theorem withRetry_returns_first_success
        (fn : Z -> M A) (k : Z) (e : Z -> RpcError) (a : A)
        (maxRetries base : Z) (w : World) :
  0 <= k <= maxRetries ->
  (forall j w, 0 <= j < k -> fn j w = (Throw (e j), w)) ->
  (forall w, fn k w = (Ok a, w)) ->
  withRetry fn maxRetries base w
  = (Ok a, mkWorld (sleeps w ++ backoff base k) (failureStats w))
  /\ total (backoff base k) = base * (2 ^ k - 1).
Proof.
  intros Hk Hfail Hok. split; [|apply total_backoff; lia].
  unfold withRetry, backoff.
  rewrite (withRetryLoop_first_success fn k e a maxRetries base Hk Hfail Hok)
    by lia.
  rewrite Z.sub_0_r. reflexivity.
Qed.

Lemma withRetryLoop_exhausted (fn : Z -> M A) (e : Z -> RpcError)
      (maxRetries base : Z) :
  (forall j w, 0 <= j <= maxRetries -> fn j w = (Throw (e j), w)) ->
  forall (n : nat) (i : Z) (w : World),
    0 <= i <= maxRetries -> (Z.to_nat (maxRetries - i) < n)%nat ->
    withRetryLoop fn n i maxRetries base w
    = (Throw (e maxRetries),
       mkWorld (sleeps w
                ++ map (fun j => base * 2 ^ j)
                       (LogReader.blocksFrom (Z.to_nat (maxRetries - i)) i))
               (failureStats w)).
Proof.
  intros Hfn. induction n as [|n IH]; intros i w Hi Hn; [lia|].
  cbn [withRetryLoop]. unfold bind at 1, attempt.
  rewrite Hfn by lia.
  destruct (Z.eqb_spec i maxRetries) as [->|Hne].
  - rewrite Z.sub_diag. cbn. rewrite app_nil_r. destruct w. reflexivity.
  - unfold bind, sleep. rewrite IH by lia. cbn [sleeps failureStats].
    replace (Z.to_nat (maxRetries - i))
      with (S (Z.to_nat (maxRetries - (i + 1)))) by lia.
    cbn [LogReader.blocksFrom map]. rewrite <- app_assoc. reflexivity.
Qed.

(** X9.  When every attempt 0 .. [maxRetries] fails, [withRetry]
    throws the error of the last attempt, after sleeping
    [baseDelayMs * 2^j] for j = 0 .. maxRetries-1: there is no sleep
    after the last failure. *)
Theorem withRetry_rethrows_last_error
        (fn : Z -> M A) (e : Z -> RpcError) (maxRetries base : Z) (w : World) :
  0 <= maxRetries ->
  (forall j w, 0 <= j <= maxRetries -> fn j w = (Throw (e j), w)) ->
  withRetry fn maxRetries base w
  = (Throw (e maxRetries),
     mkWorld (sleeps w ++ backoff base maxRetries) (failureStats w))
  /\ total (backoff base maxRetries) = base * (2 ^ maxRetries - 1).
Proof.
  intros Hm Hfn. split; [|apply total_backoff; lia].
  unfold withRetry, backoff.
  rewrite (withRetryLoop_exhausted fn e maxRetries base Hfn) by lia.
  rewrite Z.sub_0_r. reflexivity.
Qed.

(** With a negative retry count the loop body never runs: the call
    is not made at all and the function throws its closing error. *)
Lemma withRetry_negative_count (fn : Z -> M A) (maxRetries base : Z)
      (w : World) :
  maxRetries < 0 ->
  withRetry fn maxRetries base w = (Throw (mkError "Unreachable"), w).
Proof.
  intros H. unfold withRetry.
  replace (Z.to_nat (maxRetries + 1)) with O by lia. reflexivity.
Qed.

End RetryFacts.

Section RetryScenarios.
Import Rpc Retry Sums.

Lemma withRetry_returns_first_success_witness :
  withRetry (failsUntil 2 (fun _ => Examples.refusing) 7) 3 1000 emptyWorld
  = (Ok 7, mkWorld [1000; 2000] ∅)
  /\ total [1000; 2000] = 1000 * (2 ^ 2 - 1).
Proof.
  apply (withRetry_returns_first_success
           (failsUntil 2 (fun _ => Examples.refusing) 7)
           2 (fun _ => Examples.refusing) 7 3 1000 emptyWorld).
  - lia.
  - intros j w Hj. unfold failsUntil.
    destruct (Z.ltb_spec j 2); [reflexivity|lia].
  - reflexivity.
Defined.

Lemma withRetry_rethrows_last_error_witness :
  withRetry (fun _ : Z => throw (A:=Z) Examples.refusing) 3 1000 emptyWorld
  = (Throw Examples.refusing, mkWorld [1000; 2000; 4000] ∅)
  /\ total [1000; 2000; 4000] = 1000 * (2 ^ 3 - 1).
Proof.
  apply (withRetry_rethrows_last_error
           (fun _ : Z => throw (A:=Z) Examples.refusing)
           (fun _ => Examples.refusing) 3 1000 emptyWorld).
  - lia.
  - reflexivity.
Defined.

End RetryScenarios.

(** ** Swap log reader *)

Section SwapLogsFacts.
Import Rpc LogReader.

Variable getSwapLogs : Address -> Z -> Z -> list Log + RpcError.

Lemma fetchSwapLogsFuel_world (pair : Address) :
  forall (fuel : nat) (f t : Z) (w : World),
    snd (SwapLogs.fetchSwapLogsFuel getSwapLogs fuel pair f t w) = w.
Proof.
  induction fuel as [|fuel IH]; intros f t w;
    cbn [SwapLogs.fetchSwapLogsFuel]; unfold bind at 1, attempt;
    destruct (getSwapLogs pair f t) as [logs|e]; cbn [liftResult ret throw];
    try reflexivity;
    (destruct (SwapLogs.isRangeError (message e)); [|reflexivity]);
    (destruct (t - f <=? 1); [reflexivity|]).
  - reflexivity.
  - unfold bind.
    pose proof (IH f ((f + t) / 2) w) as HL.
    destruct (SwapLogs.fetchSwapLogsFuel getSwapLogs fuel pair f _ w)
      as [[left|el|] w1]; cbn [snd] in HL; subst w1; try reflexivity.
    pose proof (IH ((f + t) / 2 + 1) t w) as HR.
    destruct (SwapLogs.fetchSwapLogsFuel getSwapLogs fuel pair _ t w)
      as [[right|er|] w2]; cbn [snd] in HR; subst w2; reflexivity.
Qed.

Lemma fetchSwapLogsFuel_within_budget (pair : Address) :
  forall (fuel : nat) (f t : Z) (w : World),
    (Z.to_nat (t - f) <= fuel)%nat ->
    fst (SwapLogs.fetchSwapLogsFuel getSwapLogs fuel pair f t w) <> OutOfFuel.
Proof.
  induction fuel as [|fuel IH]; intros f t w Hfuel;
    cbn [SwapLogs.fetchSwapLogsFuel]; unfold bind at 1, attempt;
    destruct (getSwapLogs pair f t) as [logs|e]; cbn [liftResult ret throw];
    try discriminate;
    (destruct (SwapLogs.isRangeError (message e)); [|discriminate]);
    (destruct (Z.leb_spec (t - f) 1) as [Hw|Hw]; [discriminate|]).
  - lia.
  - unfold bind.
    assert (Hmid : f <= (f + t) / 2 < t).
    { split; [apply Z.div_le_lower_bound; lia|].
      apply Z.div_lt_upper_bound; lia. }
    pose proof (IH f ((f + t) / 2) w) as HL.
    destruct (SwapLogs.fetchSwapLogsFuel getSwapLogs fuel pair f _ w)
      as [[left|el|] w1]; cbn [fst] in *;
      [|discriminate|apply HL; lia].
    pose proof (IH ((f + t) / 2 + 1) t w1) as HR.
    destruct (SwapLogs.fetchSwapLogsFuel getSwapLogs fuel pair _ t w1)
      as [[right|er|] w2]; cbn [fst] in *;
      [discriminate|discriminate|apply HR; lia].
Qed.

(** X10.  Whatever the provider does, [fetchSwapLogs] ends
    within the recursion depth its range allows, never sleeps and
    never records a failure: the observable state after the call is
    the state before it. *)
Theorem fetchSwapLogs_leaves_no_trace
        (pair : Address) (f t : Z) (w : World) :
  snd (SwapLogs.fetchSwapLogs getSwapLogs pair f t w) = w
  /\ fst (SwapLogs.fetchSwapLogs getSwapLogs pair f t w) <> OutOfFuel.
Proof.
  split; [apply fetchSwapLogsFuel_world|].
  apply fetchSwapLogsFuel_within_budget. lia.
Qed.

End SwapLogsFacts.

Section SwapLogsCapped.
Import Rpc LogReader.

Variable logsAt : Address -> Z -> list Log.
Variable cap : nat.

Lemma rangeTooLarge_is_swap_range_error :
  SwapLogs.isRangeError (message rangeTooLarge) = true.
Proof. reflexivity. Qed.

Lemma capped_swap_union (pair : Address) :
  forall (fuel : nat) (f t : Z) (w : World),
    (Z.to_nat (t - f) <= fuel)%nat ->
    (forall a b, f <= a -> b <= t -> b - a <= 1 ->
                 (length (logsInRange (logsAt pair) a b) <= cap)%nat) ->
    SwapLogs.fetchSwapLogsFuel (cappedGetLogs logsAt cap) fuel pair f t w
    = (Ok (logsInRange (logsAt pair) f t), w).
Proof.
  induction fuel as [|fuel IH]; intros f t w Hfuel Hfit;
    cbn [SwapLogs.fetchSwapLogsFuel]; unfold bind at 1, attempt;
    unfold cappedGetLogs at 1;
    (destruct (Nat.ltb_spec cap (length (logsInRange (logsAt pair) f t)))
      as [Hbig|Hfits]; cbn [liftResult ret throw]; [|reflexivity]);
    rewrite rangeTooLarge_is_swap_range_error;
    (destruct (Z.leb_spec (t - f) 1) as [Hw|Hw];
     [specialize (Hfit f t); lia|]).
  - lia.
  - unfold bind.
    assert (Hmid : f <= (f + t) / 2 < t).
    { split; [apply Z.div_le_lower_bound; lia|].
      apply Z.div_lt_upper_bound; lia. }
    rewrite IH; [|lia|intros a b Ha Hb; apply Hfit; lia].
    rewrite IH; [|lia|intros a b Ha Hb; apply Hfit; lia].
    cbn [ret]. rewrite <- logsInRange_split by lia. reflexivity.
Qed.

(** X11.  Behind a provider that rejects a request exactly when
    the answer would hold more than [cap] logs, [fetchSwapLogs]
    returns every log of the range in block order provided every
    window of two adjacent blocks fits; a window of at most two blocks
    that does not fit yields the empty list, with no retry and no
    record. *)
Theorem fetchSwapLogs_range_split (pair : Address) :
  (forall (f t : Z) (w : World),
      (forall a b, f <= a -> b <= t -> b - a <= 1 ->
                   (length (logsInRange (logsAt pair) a b) <= cap)%nat) ->
      SwapLogs.fetchSwapLogs (cappedGetLogs logsAt cap) pair f t w
      = (Ok (logsInRange (logsAt pair) f t), w))
  /\ (forall (f t : Z) (w : World),
        t - f <= 1 ->
        (cap < length (logsInRange (logsAt pair) f t))%nat ->
        SwapLogs.fetchSwapLogs (cappedGetLogs logsAt cap) pair f t w
        = (Ok [], w)).
Proof.
  split.
  - intros f t w Hfit. apply capped_swap_union; [lia|exact Hfit].
  - intros f t w Hw Hbig. unfold SwapLogs.fetchSwapLogs.
    destruct (Z.to_nat (t - f)); cbn [SwapLogs.fetchSwapLogsFuel];
      unfold bind, attempt, cappedGetLogs;
      (destruct (Nat.ltb_spec cap (length (logsInRange (logsAt pair) f t)));
       [|lia]); cbn [liftResult throw];
      rewrite rangeTooLarge_is_swap_range_error;
      (destruct (Z.leb_spec (t - f) 1); [reflexivity|lia]).
Qed.

End SwapLogsCapped.

Section SwapLogsScenarios.
Import Rpc LogReader.

Lemma fetchSwapLogs_range_split_witness :
  SwapLogs.fetchSwapLogs (cappedGetLogs Scenario.spreadChain 2)
                         Scenario.market 0 10 emptyWorld
  = (Ok (logsInRange (Scenario.spreadChain Scenario.market) 0 10), emptyWorld)
  /\ SwapLogs.fetchSwapLogs (cappedGetLogs Scenario.pairOfBlocksChain 1)
                            Scenario.market 5 6 emptyWorld
     = (Ok [], emptyWorld).
Proof.
  split.
  - apply (proj1 (fetchSwapLogs_range_split Scenario.spreadChain 2
                    Scenario.market)).
    intros a b Ha Hb Hw. exact (spreadChain_windows a b Ha Hb Hw).
  - apply (proj2 (fetchSwapLogs_range_split Scenario.pairOfBlocksChain 1
                    Scenario.market)).
    + lia.
    + vm_compute. lia.
Defined.

End SwapLogsScenarios.

(** ** Failure telemetry *)

Section ObservabilityFacts.
Import Observability.



End ObservabilityFacts.

Section ObservabilityScenarios.
Import Observability.


End ObservabilityScenarios.

(** ** First-Active-Block Locator on any history *)

Section AnyHistory.
Import Rpc FirstBlock.

Variable blocks : list Z.
Variable latest : Z.
Variable cfg : Config.
Variable c : Address.

Lemma blocksFrom_In (n : nat) :
  forall f b, In b (LogReader.blocksFrom n f) <-> f <= b < f + Z.of_nat n.
Proof.
  induction n as [|n IH]; intros f b; cbn [LogReader.blocksFrom In].
  - lia.
  - rewrite IH. lia.
Qed.

Lemma historyLogs_In (l : Log) (b : Z) :
  In l (historyLogs blocks c b)
  <-> l = mkLog b "0xtransfer" 0 /\ In b blocks.
Proof.
  unfold historyLogs.
  destruct (existsb (Z.eqb b) blocks) eqn:E.
  - apply existsb_exists in E as (x & Hx & Ex). apply Z.eqb_eq in Ex. subst x.
    cbn [In]. intuition.
  - cbn [In]. split; [intros []|]. intros [_ Hb].
    assert (existsb (Z.eqb b) blocks = true); [|congruence].
    apply existsb_exists. exists b. split; [exact Hb|apply Z.eqb_refl].
Qed.

Lemma historyRange_In (l : Log) (f t : Z) :
  In l (LogReader.logsInRange (historyLogs blocks c) f t)
  <-> exists b, l = mkLog b "0xtransfer" 0 /\ In b blocks /\ f <= b <= t.
Proof.
  unfold LogReader.logsInRange. rewrite in_flat_map. split.
  - intros (b & Hb & Hl). apply blocksFrom_In in Hb.
    apply historyLogs_In in Hl as [-> Hin]. exists b. repeat split; try lia; auto.
  - intros (b & -> & Hin & Hb). exists b. split.
    + apply blocksFrom_In. lia.
    + apply historyLogs_In. auto.
Qed.

Lemma fetch_any_history (f t : Z) (w : World) :
  attempt (LogReader.fetchTransferLogs (historyClient blocks latest) c f t) w
  = (Ok (inl (LogReader.logsInRange (historyLogs blocks c) f t)), w).
Proof.
  unfold attempt, LogReader.fetchTransferLogs.
  rewrite (fetch_ok _ _ c f t w
             (LogReader.logsInRange (historyLogs blocks c) f t));
    reflexivity.
Qed.

(** Whether a range holds an active block, read off the answer. *)
Lemma historyRange_empty (f t : Z) :
  (0 <? length (LogReader.logsInRange (historyLogs blocks c) f t))%nat = false
  -> forall b, In b blocks -> ~ f <= b <= t.
Proof.
  intros E b Hb Hr.
  assert (Hin : In (mkLog b "0xtransfer" 0)
                   (LogReader.logsInRange (historyLogs blocks c) f t)).
  { apply historyRange_In. exists b. auto. }
  destruct (LogReader.logsInRange (historyLogs blocks c) f t); [destruct Hin|].
  discriminate E.
Qed.

Lemma historyRange_earliest (f t : Z) :
  (0 <? length (LogReader.logsInRange (historyLogs blocks c) f t))%nat = true
  -> let e := earliestLogBlock
                (LogReader.logsInRange (historyLogs blocks c) f t) in
     In e blocks /\ f <= e <= t
     /\ forall b, In b blocks -> f <= b <= t -> e <= b.
Proof.
  intros E. cbv zeta.
  pose proof (historyRange_In) as Hchar.
  destruct (LogReader.logsInRange (historyLogs blocks c) f t)
    as [|l rest] eqn:El; [discriminate E|].
  cbn [earliestLogBlock].
  assert (Hmem : In (fold_left Z.min (map blockNumber rest) (blockNumber l))
                    (map blockNumber (l :: rest))).
  { destruct (fold_min_In (map blockNumber rest) (blockNumber l)) as [->|H];
      [left; reflexivity | right; exact H]. }
  apply in_map_iff in Hmem as (x & Ex & Hx).
  rewrite <- El in Hx. apply Hchar in Hx as (b & -> & Hb & Hr).
  cbn [blockNumber] in Ex. rewrite <- Ex. split; [exact Hb|]. split; [exact Hr|].
  intros b' Hb' Hr'.
  assert (Hin : In (mkLog b' "0xtransfer" 0) (l :: rest)).
  { rewrite <- El. apply Hchar. exists b'. auto. }
  rewrite Ex.
  destruct (fold_min_le (map blockNumber rest) (blockNumber l)) as [H1 H2].
  destruct Hin as [->|Hin]; [exact H1|].
  apply H2. apply in_map_iff. exists (mkLog b' "0xtransfer" 0). auto.
Qed.

(** Phase 1 on any history: the window returned is the newest
    scanned window that holds an active block. *)
Lemma scanBackward_any_history :
  0 <= maxScanWindow cfg ->
  forall (fuel : nat) (windowSize toBlock : Z) (w : World),
    0 <= windowSize ->
    (Z.to_nat toBlock < fuel)%nat ->
    exists hit,
      scanBackward (historyClient blocks latest) cfg fuel c windowSize toBlock w
      = (Ok hit, w)
      /\ match hit with
         | Some (hitFrom, hitTo) =>
             0 <= hitFrom <= hitTo /\ hitTo <= toBlock
             /\ (exists b, In b blocks /\ hitFrom <= b <= hitTo)
             /\ (forall b, In b blocks ->
                           Z.max 0 (toBlock - windowSize) <= b <= toBlock ->
                           hitFrom <= b <= hitTo)
         | None => forall b, In b blocks -> 0 <= b <= toBlock -> b = 0
         end.
Proof.
  intros Hmax. induction fuel as [|fuel IH];
    intros windowSize toBlock w Hws Hfuel; [lia|].
  cbn [scanBackward].
  destruct (Z.gtb_spec toBlock 0) as [Hpos|Hneg].
  2:{ exists None. split; [reflexivity|]. intros; lia. }
  unfold bind. rewrite fetch_any_history.
  set (fromBlock := Z.max 0 (toBlock - windowSize)).
  assert (HfromBlock : fromBlock = Z.max 0 (toBlock - windowSize))
    by reflexivity.
  clearbody fromBlock.
  destruct (0 <? length (LogReader.logsInRange (historyLogs blocks c)
                                               fromBlock toBlock))%nat eqn:E.
  - exists (Some (fromBlock, toBlock)). split; [reflexivity|].
    apply historyRange_earliest in E as (Hb & Hr & _).
    split; [lia|]. split; [lia|]. split; [eauto|]. intros; lia.
  - pose proof (historyRange_empty _ _ E) as Hnone.
    destruct (IH (Z.min (windowSize * 2) (maxScanWindow cfg))
                 (fromBlock - 1) w) as (hit & Ehit & Hhit); try lia.
    exists hit. split; [exact Ehit|].
    destruct hit as [[hf ht]|].
    + destruct Hhit as (H1 & H2 & H3 & _).
      split; [lia|]. split; [lia|]. split; [exact H3|].
      intros b Hb Hr. destruct (Hnone b Hb Hr).
    + intros b Hb Hr.
      destruct (Z.le_gt_cases fromBlock b) as [Hge|Hlt].
      * destruct (Hnone b Hb). lia.
      * specialize (Hhit b Hb). lia.
Qed.

(** Phase 2 on any history: the earliest active block of the
    window, or the initial value when the window holds none. *)
Lemma binarySearch_any_history :
  forall (fuel : nat) (lo hi firstBlock : Z) (w : World),
    (Z.to_nat (hi - lo + 1) < fuel)%nat ->
    exists r,
      binarySearch (historyClient blocks latest) fuel c lo hi firstBlock w
      = (Ok r, w)
      /\ ((exists b, In b blocks /\ lo <= b <= hi) ->
          In r blocks /\ lo <= r <= hi
          /\ forall b, In b blocks -> lo <= b <= hi -> r <= b)
      /\ ((forall b, In b blocks -> ~ lo <= b <= hi) -> r = firstBlock).
Proof.
  induction fuel as [|fuel IH]; intros lo hi firstBlock w Hfuel; [lia|].
  cbn [binarySearch]. destruct (Z.leb_spec lo hi) as [Hle|Hgt].
  2:{ exists firstBlock. split; [reflexivity|]. split; [|reflexivity].
      intros (b & _ & Hb). lia. }
  unfold bind. rewrite fetch_any_history.
  assert (Hmid : lo <= (lo + hi) / 2 <= hi).
  { split; [apply Z.div_le_lower_bound | apply Z.div_le_upper_bound]; lia. }
  set (mid := (lo + hi) / 2) in *.
  destruct (0 <? length (LogReader.logsInRange (historyLogs blocks c) lo mid))%nat
    eqn:E.
  - apply historyRange_earliest in E. cbv zeta in E.
    set (e := earliestLogBlock _) in *. destruct E as (He & Hr & Hmin).
    destruct (IH lo (e - 1) e w) as (r & Er & _ & Hnone); [lia|].
    assert (r = e) as ->.
    { apply Hnone. intros b Hb Hb'. specialize (Hmin b Hb). lia. }
    exists e. split; [exact Er|]. split.
    + intros _. split; [exact He|]. split; [lia|].
      intros b Hb Hb'. destruct (Z.le_gt_cases b mid); [apply Hmin; auto; lia|lia].
    + intros Hno. destruct (Hno e He). lia.
  - pose proof (historyRange_empty _ _ E) as Hnone.
    destruct (IH (mid + 1) hi firstBlock w) as (r & Er & Hsome & Hno); [lia|].
    exists r. split; [exact Er|]. split.
    + intros (b & Hb & Hb').
      destruct Hsome as (Hr & Hr' & Hmin).
      { exists b. split; [exact Hb|]. specialize (Hnone b Hb). lia. }
      split; [exact Hr|]. split; [lia|].
      intros b0 Hb0 Hb0'. apply Hmin; [exact Hb0|].
      specialize (Hnone b0 Hb0). lia.
    + intros Hno'. apply Hno. intros b Hb Hb'. apply (Hno' b Hb). lia.
Qed.

(** X13.  Behind a provider that never fails, with a head above
    block 0 and at least one active block up to the head,
    [findFirstActiveBlock] returns an active block, and no active
    block of the first scan window (the newest [initialScanWindow]
    blocks) lies before it.  So the result is the first active block
    whenever all the activity lies in that window. *)
Theorem findFirstActiveBlock_earliest_of_first_window
        (fuel : nat) (w : World) :
  0 < latest ->
  0 <= initialScanWindow cfg -> 0 <= maxScanWindow cfg ->
  (Z.to_nat latest + 1 < fuel)%nat ->
  (exists b, In b blocks /\ 0 <= b <= latest) ->
  exists r,
    findFirstActiveBlock (historyClient blocks latest) cfg fuel c w = (Ok r, w)
    /\ In r blocks /\ 0 <= r <= latest
    /\ forall b, In b blocks ->
                 Z.max 0 (latest - initialScanWindow cfg) <= b <= latest ->
                 r <= b.
Proof.
  intros Hlatest Hws Hmax Hfuel (b0 & Hb0 & Hr0).
  unfold findFirstActiveBlock, bind.
  cbn [getBlockNumber historyClient LogReader.unrestrictedClient liftResult ret].
  destruct (scanBackward_any_history Hmax fuel (initialScanWindow cfg)
              latest w Hws ltac:(lia)) as (hit & -> & Hhit).
  destruct hit as [[hf ht]|].
  - destruct Hhit as (H1 & H2 & H3 & H4).
    destruct (binarySearch_any_history fuel hf ht ht w ltac:(lia))
      as (r & -> & Hsome & _).
    destruct (Hsome H3) as (Hr & Hr' & Hmin).
    exists r. split; [reflexivity|]. split; [exact Hr|]. split; [lia|].
    intros b Hb Hb'. apply Hmin; [exact Hb|]. apply H4; assumption.
  - specialize (Hhit b0 Hb0 Hr0). subst b0.
    exists 0. split; [reflexivity|]. split; [exact Hb0|]. split; [lia|].
    intros b Hb Hb'. lia.
Qed.

(** X14.  Behind a provider that never fails,
    [findFirstActiveBlock] returns 0 when no block from 1 to the head
    holds a transfer. *)
Theorem findFirstActiveBlock_falls_back_to_zero (fuel : nat) (w : World) :
  0 <= initialScanWindow cfg -> 0 <= maxScanWindow cfg ->
  (Z.to_nat latest + 1 < fuel)%nat ->
  (forall b, In b blocks -> ~ 1 <= b <= latest) ->
  findFirstActiveBlock (historyClient blocks latest) cfg fuel c w = (Ok 0, w).
Proof.
  intros Hws Hmax Hfuel Hnone.
  unfold findFirstActiveBlock, bind.
  cbn [getBlockNumber historyClient LogReader.unrestrictedClient liftResult ret].
  destruct (scanBackward_any_history Hmax fuel (initialScanWindow cfg)
              latest w Hws ltac:(lia)) as (hit & -> & Hhit).
  destruct hit as [[hf ht]|]; [|reflexivity].
  destruct Hhit as (H1 & H2 & H3 & _).
  destruct (binarySearch_any_history fuel hf ht ht w ltac:(lia))
    as (r & -> & Hsome & _).
  destruct (Hsome H3) as (Hr & Hr' & _).
  specialize (Hnone r Hr). f_equal. f_equal. lia.
Qed.

End AnyHistory.

Section AnyHistoryScenarios.
Import Rpc FirstBlock.

Lemma findFirstActiveBlock_earliest_of_first_window_witness :
  exists r,
    findFirstActiveBlock (historyClient [7; 90] 100) (mkConfig 20 1000)
                         (Z.to_nat 102) Scenario.tokenAddress emptyWorld
    = (Ok r, emptyWorld)
    /\ In r [7; 90] /\ 0 <= r <= 100
    /\ forall b, In b [7; 90] ->
                 Z.max 0 (100 - initialScanWindow (mkConfig 20 1000)) <= b <= 100
                 -> r <= b.
Proof.
  apply (findFirstActiveBlock_earliest_of_first_window
           [7; 90] 100 (mkConfig 20 1000) Scenario.tokenAddress
           (Z.to_nat 102) emptyWorld).
  - lia.
  - cbn. lia.
  - cbn. lia.
  - lia.
  - exists 90. split; [right; left; reflexivity | lia].
Defined.

Lemma findFirstActiveBlock_falls_back_to_zero_witness :
  findFirstActiveBlock (historyClient [] 100) (mkConfig 20 1000)
                       (Z.to_nat 102) Scenario.tokenAddress emptyWorld
  = (Ok 0, emptyWorld).
Proof.
  apply (findFirstActiveBlock_falls_back_to_zero
           [] 100 (mkConfig 20 1000) Scenario.tokenAddress
           (Z.to_nat 102) emptyWorld).
  - cbn. lia.
  - cbn. lia.
  - lia.
  - intros b [].
Defined.

End AnyHistoryScenarios.

(** ** AMM Simulator: budget, conservation, dump *)

Section AmmFurther.
Import Amm AmmSums Sums.

(** *** The budget is split exactly *)

Lemma stepAmounts_S (P : Params) (n : nat) :
  stepAmounts P (S n) = stepAmounts P n ++ [buyAmountAt P (Z.of_nat n)].
Proof.
  unfold stepAmounts. rewrite blocksFrom_S_snoc, map_app. reflexivity.
Qed.

Lemma total_snoc (xs : list Z) (x : Z) : total (xs ++ [x]) = total xs + x.
Proof. rewrite total_app. unfold total. cbn. lia. Qed.

Lemma stepAmounts_full (P : Params) (n : nat) :
  Z.of_nat n <= p_steps P - 1 ->
  total (stepAmounts P n) = Z.of_nat n * p_amountPerStep P.
Proof.
  induction n as [|n IH]; intros Hn; [reflexivity|].
  rewrite stepAmounts_S, total_snoc, IH by lia.
  unfold buyAmountAt.
  destruct (Z.eqb_spec (Z.of_nat n) (p_steps P - 1)); [lia|]. cbn [andb]. lia.
Qed.

Lemma paramsOf_fields reserve0 reserve1 isToken0 amount total' interval m anchor :
  let P := paramsOf reserve0 reserve1 isToken0 amount total' interval m anchor in
  p_amountPerStep P = amount
  /\ p_remainderAmount P = Z.rem total' amount
  /\ p_steps P = Z.quot total' amount
                 + (if Z.rem total' amount >? 0 then 1 else 0)
  /\ p_sellPressureBpsPerStep P = sellPressureOf m.
Proof.
  cbv zeta. unfold paramsOf, startReserves. destruct isToken0; cbn; auto.
Qed.

Lemma stepAmounts_total reserve0 reserve1 isToken0 amount total' interval m anchor :
  0 < amount -> 0 <= total' ->
  let P := paramsOf reserve0 reserve1 isToken0 amount total' interval m anchor in
  total (stepAmounts P (Z.to_nat (p_steps P))) = total'.
Proof.
  intros Ha Ht P.
  destruct (paramsOf_fields reserve0 reserve1 isToken0 amount total' interval
              m anchor) as (Eamt & Erem & Esteps & _).
  fold P in Eamt, Erem, Esteps.
  rewrite Z.quot_div_nonneg in Esteps by lia.
  rewrite Z.rem_mod_nonneg in Erem, Esteps by lia.
  pose proof (Z.div_mod total' amount ltac:(lia)) as Hdm.
  pose proof (Z.mod_pos_bound total' amount Ha) as Hmod.
  assert (Hq : 0 <= total' / amount) by (apply Z.div_pos; lia).
  destruct (Z.gtb_spec (total' mod amount) 0) as [Hr|Hr].
  - replace (Z.to_nat (p_steps P)) with (S (Z.to_nat (total' / amount))) by lia.
    rewrite stepAmounts_S, total_snoc, stepAmounts_full by lia.
    unfold buyAmountAt. rewrite Erem, Eamt.
    destruct (Z.eqb_spec (Z.of_nat (Z.to_nat (total' / amount))) (p_steps P - 1));
      [|lia].
    destruct (Z.gtb_spec (total' mod amount) 0); [|lia]. cbn [andb]. nia.
  - destruct (Z.to_nat (p_steps P)) as [|n] eqn:En.
    + cbn. nia.
    + rewrite stepAmounts_S, total_snoc, stepAmounts_full by lia.
      unfold buyAmountAt. rewrite Erem, Eamt.
      destruct (Z.gtb_spec (total' mod amount) 0); [lia|].
      rewrite andb_false_r. nia.
Qed.

(** *** One step in either mode *)

Lemma buybackStep_total (P : Params) (i : Z) (st : LoopState) :
  0 <= p_sellPressureBpsPerStep P ->
  0 < buyAmountAt P i ->
  nonNegativeReserves st ->
  0 <= l_totalTokensBought st ->
  exists st',
    buybackStep P i st = Some st'
    /\ nonNegativeReserves st'
    /\ product st' <= product st
    /\ l_totalSpent st <= l_totalSpent st'
       <= l_totalSpent st + buyAmountAt P i
    /\ 0 <= l_totalTokensBought st'.
Proof.
  intros Hbps Hbuy [Hrv Hrt] Hbought.
  unfold buybackStep, BigInt.bigDiv.
  set (buy := buyAmountAt P i) in *.
  set (rv := l_reserveVirtual st) in *.
  set (rt := l_reserveToken st) in *.
  destruct (Z.eqb_spec (rv + buy) 0) as [E|_]; [lia|].
  rewrite Z.quot_div_nonneg by nia.
  assert (Hq : 0 <= rv * rt / (rv + buy) <= rt).
  { split; [apply Z.div_pos; nia|].
    apply Z.div_le_upper_bound; nia. }
  pose proof (Z.div_mod (rv * rt) (rv + buy) ltac:(lia)) as Hdm.
  pose proof (Z.mod_pos_bound (rv * rt) (rv + buy) ltac:(lia)) as Hmod.
  set (newRt := rv * rt / (rv + buy)) in *.
  destruct (Z.leb_spec (rt - newRt) 0) as [Hskip|Htake].
  { exists st. unfold nonNegativeReserves, product. fold rv rt.
    repeat split; lia. }
  unfold applySellPressure, BigInt.bigDiv.
  set (bps := p_sellPressureBpsPerStep P) in *.
  destruct (Z.gtb_spec bps 0) as [Hb|Hb];
    destruct (Z.gtb_spec (rt - newRt) 0) as [Ho|Ho]; try lia; cbn [andb].
  2:{ eexists. split; [reflexivity|].
      unfold nonNegativeReserves, product;
        cbn [l_reserveVirtual l_reserveToken l_totalSpent l_totalTokensBought].
      fold rv rt. repeat split; nia. }
  set (sellIn := Z.quot ((rt - newRt) * bps) 10000).
  assert (HsellIn : 0 <= sellIn)
    by (unfold sellIn; rewrite Z.quot_div_nonneg by nia; apply Z.div_pos; nia).
  destruct (Z.gtb_spec sellIn 0) as [Hs|Hs].
  2:{ eexists. split; [reflexivity|].
      unfold nonNegativeReserves, product;
        cbn [l_reserveVirtual l_reserveToken l_totalSpent l_totalTokensBought].
      fold rv rt. repeat split; nia. }
  destruct (Z.eqb_spec (newRt + sellIn) 0) as [E|_]; [lia|].
  rewrite Z.quot_div_nonneg by nia.
  assert (Hk : 0 <= (rv + buy) * newRt) by nia.
  assert (Hpost : 0 <= (rv + buy) * newRt / (newRt + sellIn))
    by (apply Z.div_pos; lia).
  pose proof (Z.mul_div_le ((rv + buy) * newRt) (newRt + sellIn) ltac:(lia))
    as Hfloor.
  eexists. split; [reflexivity|].
  unfold nonNegativeReserves, product;
    cbn [l_reserveVirtual l_reserveToken l_totalSpent l_totalTokensBought].
  fold rv rt. repeat split; nia.
Qed.

Lemma runSteps_total (P : Params) :
  0 <= p_sellPressureBpsPerStep P ->
  0 < p_amountPerStep P ->
  forall (n : nat) (st : LoopState),
    nonNegativeReserves st -> 0 <= l_totalTokensBought st ->
    exists st',
      runSteps P n 0 st = Some st'
      /\ nonNegativeReserves st'
      /\ product st' <= product st
      /\ l_totalSpent st <= l_totalSpent st'
         <= l_totalSpent st + total (stepAmounts P n)
      /\ 0 <= l_totalTokensBought st'.
Proof.
  intros Hbps Hamt. induction n as [|n IH]; intros st Hst Hb.
  - exists st. split; [reflexivity|]. split; [exact Hst|].
    unfold stepAmounts, total. cbn [LogReader.blocksFrom map fold_right].
    repeat split; lia.
  - destruct (IH st Hst Hb) as (s & E & Hs & Hprod & Hspent & Hb').
    rewrite runSteps_snoc, E. cbn [Z.add].
    destruct (buybackStep_total P (Z.of_nat n) s Hbps
                (buyAmountAt_pos P _ Hamt) Hs Hb')
      as (s' & E' & Hs' & Hprod' & Hspent' & Hb'').
    exists s'. split; [exact E'|]. split; [exact Hs'|].
    rewrite stepAmounts_S, total_snoc. repeat split; lia.
Qed.

(** X15.  For positive reserves and amounts [simulateBuyback]
    returns in either mode, without a division by zero; the budget it
    reports lies between zero and the tax input, the reserves it
    reports are not negative, and their product does not exceed the
    product of the initial reserves. *)
Theorem simulateBuyback_returns_within_budget
        (reserve0 reserve1 amountPerStepIn totalTaxInput stepInterval : Z)
        (isToken0 : bool) (m : Mode) (anchor : option float) :
  0 < reserve0 -> 0 < reserve1 ->
  0 < amountPerStepIn -> 0 < totalTaxInput ->
  p_steps (paramsOf reserve0 reserve1 isToken0 amountPerStepIn
                    totalTaxInput stepInterval m anchor) < 2 ^ 53 ->
  exists sim,
    simulateBuyback reserve0 reserve1 isToken0 amountPerStepIn
                    totalTaxInput stepInterval m anchor = Some sim
    /\ 0 <= budget sim <= totalTaxInput
    /\ 0 <= reserveVirtual sim /\ 0 <= reserveToken sim
    /\ reserveVirtual sim * reserveToken sim <= reserve0 * reserve1
    /\ 0 <= totalTokensBought sim.
Proof.
  intros H0 H1 Hamt Htax _. unfold simulateBuyback.
  destruct (Z.eqb_spec amountPerStepIn 0); [lia|].
  destruct (Z.eqb_spec totalTaxInput 0); [lia|].
  destruct (Z.eqb_spec reserve0 0); [lia|].
  destruct (Z.eqb_spec reserve1 0); [lia|].
  cbn [orb].
  set (P := paramsOf reserve0 reserve1 isToken0 amountPerStepIn
                     totalTaxInput stepInterval m anchor).
  destruct (paramsOf_fields reserve0 reserve1 isToken0 amountPerStepIn
              totalTaxInput stepInterval m anchor) as (Eamt & _ & _ & Ebps).
  fold P in Eamt, Ebps.
  assert (Hst0 : nonNegativeReserves (startState reserve0 reserve1 isToken0)).
  { unfold startState, startReserves, nonNegativeReserves.
    destruct isToken0; cbn; lia. }
  destruct (runSteps_total P) with (n := Z.to_nat (p_steps P))
    (st := startState reserve0 reserve1 isToken0)
    as (st & E & [Hrv Hrt] & Hprod & Hspent & Hb).
  - rewrite Ebps. destruct m; cbn; lia.
  - lia.
  - exact Hst0.
  - unfold startState, startReserves. destruct isToken0; cbn; lia.
  - rewrite E. eexists. split; [reflexivity|].
    cbn [budget reserveVirtual reserveToken totalTokensBought].
    pose proof (stepAmounts_total reserve0 reserve1 isToken0 amountPerStepIn
                  totalTaxInput stepInterval m anchor Hamt ltac:(lia)) as Hsum.
    cbv zeta in Hsum. fold P in Hsum. rewrite Hsum in Hspent.
    assert (Hstart : l_totalSpent (startState reserve0 reserve1 isToken0) = 0
                     /\ product (startState reserve0 reserve1 isToken0)
                        = reserve0 * reserve1).
    { unfold startState, startReserves, product.
      destruct isToken0; cbn; split; lia. }
    destruct Hstart as [Hs0 Hp0]. unfold product in Hprod, Hp0.
    repeat split; lia.
Qed.

(** *** IDEAL mode: what is spent enters the pool, what is bought
    leaves it *)

Lemma buybackStep_ideal_conserves (P : Params) (i : Z) (st : LoopState)
      (rv0 rt0 : Z) :
  p_sellPressureBpsPerStep P = 0 ->
  0 < buyAmountAt P i ->
  0 < l_reserveVirtual st -> 0 <= l_reserveToken st ->
  l_reserveVirtual st = rv0 + l_totalSpent st ->
  l_totalTokensBought st = rt0 - l_reserveToken st ->
  exists st',
    buybackStep P i st = Some st'
    /\ 0 < l_reserveVirtual st' /\ 0 <= l_reserveToken st'
    /\ l_reserveVirtual st' = rv0 + l_totalSpent st'
    /\ l_totalTokensBought st' = rt0 - l_reserveToken st'
    /\ l_reserveToken st' <= l_reserveToken st
    /\ (0 < l_reserveToken st ->
        l_totalSpent st' = l_totalSpent st + buyAmountAt P i)
    /\ (l_reserveToken st = 0 -> st' = st).
Proof.
  intros Hbps Hbuy Hrv Hrt Hinv1 Hinv2.
  unfold buybackStep, BigInt.bigDiv. rewrite Hbps.
  set (buy := buyAmountAt P i) in *.
  set (rv := l_reserveVirtual st) in *.
  set (rt := l_reserveToken st) in *.
  destruct (Z.eqb_spec (rv + buy) 0) as [E|_]; [lia|].
  rewrite Z.quot_div_nonneg by nia.
  assert (Hq : 0 <= rv * rt / (rv + buy) <= rt).
  { split; [apply Z.div_pos; nia|].
    apply Z.div_le_upper_bound; nia. }
  assert (Hlt : 0 < rt -> rv * rt / (rv + buy) < rt).
  { intros Hpos. apply Z.div_lt_upper_bound; nia. }
  destruct (Z.leb_spec (rt - rv * rt / (rv + buy)) 0) as [Hskip|Htake].
  - exists st. fold rv rt. repeat split; try lia.
  - rewrite applySellPressure_ideal. eexists. split; [reflexivity|].
    cbn [l_reserveVirtual l_reserveToken l_totalSpent l_totalTokensBought].
    fold rv rt. repeat split; try lia.
Qed.

Lemma runSteps_ideal_conserves (P : Params) (rv0 rt0 : Z) :
  p_sellPressureBpsPerStep P = 0 ->
  0 < p_amountPerStep P ->
  forall (n : nat) (st : LoopState),
    0 < l_reserveVirtual st -> 0 <= l_reserveToken st ->
    l_reserveVirtual st = rv0 + l_totalSpent st ->
    l_totalTokensBought st = rt0 - l_reserveToken st ->
    exists st',
      runSteps P n 0 st = Some st'
      /\ 0 < l_reserveVirtual st' /\ 0 <= l_reserveToken st'
      /\ l_reserveVirtual st' = rv0 + l_totalSpent st'
      /\ l_totalTokensBought st' = rt0 - l_reserveToken st'
      /\ l_reserveToken st' <= l_reserveToken st
      /\ (0 < l_reserveToken st' ->
          l_totalSpent st' = l_totalSpent st + total (stepAmounts P n)).
Proof.
  intros Hbps Hamt. induction n as [|n IH]; intros st Hrv Hrt H1 H2.
  - exists st. split; [reflexivity|].
    unfold stepAmounts, total. cbn [LogReader.blocksFrom map fold_right].
    repeat split; lia.
  - destruct (IH st Hrv Hrt H1 H2) as (s & E & Hrv' & Hrt' & H1' & H2' & Hle & Hsp).
    rewrite runSteps_snoc, E. cbn [Z.add].
    destruct (buybackStep_ideal_conserves P (Z.of_nat n) s rv0 rt0 Hbps
                (buyAmountAt_pos P _ Hamt) Hrv' Hrt' H1' H2')
      as (s' & E' & Hrv2 & Hrt2 & H12 & H22 & Hle2 & Hsp2 & _).
    exists s'. split; [exact E'|].
    rewrite stepAmounts_S, total_snoc. repeat split; lia.
Qed.

(** X16.  In IDEAL mode, for positive reserves and amounts, the
    quote reserve grows by exactly the budget spent and the token
    reserve shrinks by exactly the tokens bought; the whole tax input
    is spent unless the token reserve has been bought down to zero. *)
Theorem simulateBuyback_ideal_conservation
        (reserve0 reserve1 amountPerStepIn totalTaxInput stepInterval : Z)
        (isToken0 : bool) (anchor : option float) :
  0 < reserve0 -> 0 < reserve1 ->
  0 < amountPerStepIn -> 0 < totalTaxInput ->
  p_steps (paramsOf reserve0 reserve1 isToken0 amountPerStepIn
                    totalTaxInput stepInterval IDEAL anchor) < 2 ^ 53 ->
  let rv0 := fst (startReserves reserve0 reserve1 isToken0) in
  let rt0 := snd (startReserves reserve0 reserve1 isToken0) in
  exists sim,
    simulateBuyback reserve0 reserve1 isToken0 amountPerStepIn
                    totalTaxInput stepInterval IDEAL anchor = Some sim
    /\ reserveVirtual sim = rv0 + budget sim
    /\ reserveToken sim = rt0 - totalTokensBought sim
    /\ 0 <= reserveToken sim <= rt0
    /\ (0 < reserveToken sim -> budget sim = totalTaxInput).
Proof.
  intros H0 H1 Hamt Htax _ rv0 rt0. unfold simulateBuyback.
  destruct (Z.eqb_spec amountPerStepIn 0); [lia|].
  destruct (Z.eqb_spec totalTaxInput 0); [lia|].
  destruct (Z.eqb_spec reserve0 0); [lia|].
  destruct (Z.eqb_spec reserve1 0); [lia|].
  cbn [orb].
  set (P := paramsOf reserve0 reserve1 isToken0 amountPerStepIn
                     totalTaxInput stepInterval IDEAL anchor).
  destruct (paramsOf_fields reserve0 reserve1 isToken0 amountPerStepIn
              totalTaxInput stepInterval IDEAL anchor) as (Eamt & _ & _ & Ebps).
  fold P in Eamt, Ebps.
  assert (Hstart : l_reserveVirtual (startState reserve0 reserve1 isToken0) = rv0
                   /\ l_reserveToken (startState reserve0 reserve1 isToken0) = rt0
                   /\ l_totalSpent (startState reserve0 reserve1 isToken0) = 0
                   /\ l_totalTokensBought (startState reserve0 reserve1 isToken0)
                      = 0
                   /\ 0 < rv0 /\ 0 < rt0).
  { unfold rv0, rt0, startState, startReserves.
    destruct isToken0; cbn; repeat split; lia. }
  destruct Hstart as (Erv & Ert & Esp & Ebo & Hrv0 & Hrt0).
  destruct (runSteps_ideal_conserves P rv0 rt0 Ebps ltac:(lia)
              (Z.to_nat (p_steps P)) (startState reserve0 reserve1 isToken0))
    as (st & E & Hrv & Hrt & Hinv1 & Hinv2 & Hle & Hsp); try lia.
  rewrite E. eexists. split; [reflexivity|].
  cbn [budget reserveVirtual reserveToken totalTokensBought].
  pose proof (stepAmounts_total reserve0 reserve1 isToken0 amountPerStepIn
                totalTaxInput stepInterval IDEAL anchor Hamt ltac:(lia)) as Hsum.
  cbv zeta in Hsum. fold P in Hsum. rewrite Hsum in Hsp.
  repeat split; lia.
Qed.

(** *** The dump simulator *)

(** X17.  For positive reserves and a positive sale,
    [simulateDump] pays out between zero and the whole quote reserve,
    reports the same amount as the buyback required, and leaves the
    largest quote reserve whose product with the new token reserve
    does not exceed the product before the sale. *)
Theorem simulateDump_pays_out_by_constant_product
        (reserveVirtualIn reserveTokenIn sellAmountToken : Z) :
  0 < reserveVirtualIn -> 0 < reserveTokenIn -> 0 < sellAmountToken ->
  exists r,
    simulateDump reserveVirtualIn reserveTokenIn sellAmountToken = Some r
    /\ 0 <= d_virtualOut r <= reserveVirtualIn
    /\ d_requiredBuybackVirtual r = d_virtualOut r
    /\ (reserveVirtualIn - d_virtualOut r)
       * (reserveTokenIn + sellAmountToken)
       <= reserveVirtualIn * reserveTokenIn
       < (reserveVirtualIn - d_virtualOut r + 1)
         * (reserveTokenIn + sellAmountToken).
Proof.
  intros Hrv Hrt Hsell. unfold simulateDump, BigInt.bigDiv.
  destruct (Z.leb_spec reserveVirtualIn 0); [lia|].
  destruct (Z.leb_spec reserveTokenIn 0); [lia|].
  destruct (Z.leb_spec sellAmountToken 0); [lia|].
  cbn [orb].
  destruct (Z.eqb_spec (reserveTokenIn + sellAmountToken) 0); [lia|].
  rewrite Z.quot_div_nonneg by nia.
  set (k := reserveVirtualIn * reserveTokenIn).
  set (d := reserveTokenIn + sellAmountToken).
  assert (Hq : 0 <= k / d <= reserveVirtualIn).
  { split; [apply Z.div_pos; unfold k, d; nia|].
    apply Z.div_le_upper_bound; unfold k, d; nia. }
  pose proof (Z.div_mod k d ltac:(unfold d; lia)) as Hdm.
  pose proof (Z.mod_pos_bound k d ltac:(unfold d; lia)) as Hmod.
  eexists. split; [reflexivity|].
  cbn [d_virtualOut d_requiredBuybackVirtual].
  destruct (Z.gtb_spec reserveVirtualIn (k / d));
    destruct (Z.ltb_spec (k / d) reserveVirtualIn); try lia;
    repeat split; try lia; nia.
Qed.

(** X18.  For positive reserves, selling more never pays out
    less. *)
Theorem simulateDump_monotone_in_sell_amount
        (reserveVirtualIn reserveTokenIn sell1 sell2 : Z) :
  0 < reserveVirtualIn -> 0 < reserveTokenIn ->
  0 < sell1 <= sell2 ->
  exists r1 r2,
    simulateDump reserveVirtualIn reserveTokenIn sell1 = Some r1
    /\ simulateDump reserveVirtualIn reserveTokenIn sell2 = Some r2
    /\ d_virtualOut r1 <= d_virtualOut r2.
Proof.
  intros Hrv Hrt Hsell. unfold simulateDump, BigInt.bigDiv.
  destruct (Z.leb_spec reserveVirtualIn 0); [lia|].
  destruct (Z.leb_spec reserveTokenIn 0); [lia|].
  destruct (Z.leb_spec sell1 0); [lia|].
  destruct (Z.leb_spec sell2 0); [lia|].
  cbn [orb].
  destruct (Z.eqb_spec (reserveTokenIn + sell1) 0); [lia|].
  destruct (Z.eqb_spec (reserveTokenIn + sell2) 0); [lia|].
  rewrite !Z.quot_div_nonneg by nia.
  set (k := reserveVirtualIn * reserveTokenIn).
  assert (Hmono : k / (reserveTokenIn + sell2) <= k / (reserveTokenIn + sell1)).
  { apply Z.div_le_compat_l; unfold k; nia. }
  eexists. eexists. split; [reflexivity|]. split; [reflexivity|].
  cbn [d_virtualOut].
  destruct (Z.gtb_spec reserveVirtualIn (k / (reserveTokenIn + sell1)));
    destruct (Z.gtb_spec reserveVirtualIn (k / (reserveTokenIn + sell2)));
    lia.
Qed.

End AmmFurther.

Section AmmFurtherScenarios.
Import Amm.

Lemma simulateBuyback_returns_within_budget_witness :
  exists sim,
    simulateBuyback 1000 50000 false 100 250 60 REALISTIC None = Some sim
    /\ 0 <= budget sim <= 250
    /\ 0 <= reserveVirtual sim /\ 0 <= reserveToken sim
    /\ reserveVirtual sim * reserveToken sim <= 1000 * 50000
    /\ 0 <= totalTokensBought sim.
Proof.
  apply (simulateBuyback_returns_within_budget
           1000 50000 100 250 60 false REALISTIC None); try lia.
  vm_compute. reflexivity.
Defined.

Lemma simulateBuyback_ideal_conservation_witness :
  exists sim,
    simulateBuyback 1000 50000 false 100 250 60 IDEAL None = Some sim
    /\ reserveVirtual sim = 1000 + budget sim
    /\ reserveToken sim = 50000 - totalTokensBought sim
    /\ 0 <= reserveToken sim <= 50000
    /\ (0 < reserveToken sim -> budget sim = 250).
Proof.
  apply (simulateBuyback_ideal_conservation
           1000 50000 100 250 60 false None); try lia.
  vm_compute. reflexivity.
Defined.

Lemma simulateDump_pays_out_by_constant_product_witness :
  exists r,
    simulateDump 100000 50000000 1000000 = Some r
    /\ 0 <= d_virtualOut r <= 100000
    /\ d_requiredBuybackVirtual r = d_virtualOut r
    /\ (100000 - d_virtualOut r) * (50000000 + 1000000)
       <= 100000 * 50000000
       < (100000 - d_virtualOut r + 1) * (50000000 + 1000000).
Proof.
  apply (simulateDump_pays_out_by_constant_product 100000 50000000 1000000);
    lia.
Defined.

Lemma simulateDump_monotone_in_sell_amount_witness :
  exists r1 r2,
    simulateDump 100000 50000000 1000000 = Some r1
    /\ simulateDump 100000 50000000 2000000 = Some r2
    /\ d_virtualOut r1 <= d_virtualOut r2.
Proof.
  apply (simulateDump_monotone_in_sell_amount
           100000 50000000 1000000 2000000); lia.
Defined.

End AmmFurtherScenarios.

(** ** Tax Inflow Extractor: which transfers are recorded *)

Section TaxInflowFacts.
Import TaxTracker TaxKeys.

Lemma txVirtual_In (h : string) (vs : list ParsedTransfer) (x : ParsedTransfer) :
  In x (default [] (byTxGet h (groupByTx vs)))
  <-> In x vs /\ txHash x = h.
Proof.
  rewrite byTxGet_groupByTx.
  destruct (List.filter (inTx h) vs) eqn:E; cbn [nonEmpty default id].
  - split; [intros []|]. intros [Hx Hh].
    assert (In x (List.filter (inTx h) vs)) as Hf.
    { apply List.filter_In. split; [assumption|]. apply String.eqb_eq, Hh. }
    rewrite E in Hf. destruct Hf.
  - rewrite <- E, List.filter_In. unfold inTx. rewrite String.eqb_eq. tauto.
Qed.

Lemma groupByTx_entry (h : string) (toks ts : list ParsedTransfer) :
  In (h, toks) (groupByTx ts) ->
  toks = List.filter (inTx h) ts /\ toks <> [].
Proof.
  intros H. apply byTxGet_In in H; [|apply groupByTx_NoDup].
  rewrite byTxGet_groupByTx in H.
  destruct (List.filter (inTx h) ts); [discriminate|].
  cbn in H. injection H as <-. split; [reflexivity|discriminate].
Qed.

(** Where a split leg comes from. *)
Lemma splitLegs_origin (ts vs : list ParsedTransfer) (recipient : Address)
      (v : ParsedTransfer) :
  In v (splitLegs (runSplitRule ts vs recipient)) ->
  In v vs
  /\ (exists t, In t ts /\ txHash t = txHash v)
  /\ to v <> recipient.
Proof.
  unfold runSplitRule. rewrite splitLegs_fold. cbn [splitLegs app].
  rewrite in_flat_map. intros ([h toks] & Hentry & Hv). cbn [fst snd] in Hv.
  apply splitTaxTransfers_In in Hv as (Hin & _ & _ & _ & _ & _ & _ & Hr & _).
  apply txVirtual_In in Hin as [Hin Hh].
  apply groupByTx_entry in Hentry as [-> Hne].
  split; [exact Hin|]. split; [|exact Hr].
  destruct (List.filter (inTx h) ts) as [|t rest] eqn:E; [congruence|].
  assert (Ht : In t (List.filter (inTx h) ts)) by (rewrite E; left; reflexivity).
  apply List.filter_In in Ht as [Ht Hth]. apply String.eqb_eq in Hth.
  exists t. split; [exact Ht|congruence].
Qed.

(** The two sets the split rule fills, read off the legs. *)
Lemma splitState_sets (recipient : Address) (virtualByTx : ByTx)
      (entries : ByTx) :
  (forall e x, In e entries ->
               In x (splitTaxTransfers recipient (snd e)
                       (default [] (byTxGet (fst e) virtualByTx))) ->
               txHash x = fst e) ->
  forall st,
    (forall h, h ∈ specialSplitTaxTx st
               <-> exists v, In v (splitLegs st) /\ txHash v = h) ->
    (forall k, k ∈ consumedVirtualLogKeys st
               <-> In k (map logKey (splitLegs st))) ->
    let st' := fold_left (splitStep recipient virtualByTx) entries st in
    (forall h, h ∈ specialSplitTaxTx st'
               <-> exists v, In v (splitLegs st') /\ txHash v = h)
    /\ (forall k, k ∈ consumedVirtualLogKeys st'
                  <-> In k (map logKey (splitLegs st'))).
Proof.
  induction entries as [|[h toks] entries IH]; intros Hhash st Hs Hc;
    cbn [fold_left]; [split; assumption|].
  apply IH.
  - intros e x He. apply Hhash. right. exact He.
  - intros h'. unfold splitStep.
    pose proof (Hhash (h, toks)) as Hh. cbn [fst snd] in Hh.
    destruct (splitTaxTransfers recipient toks
                (default [] (byTxGet h virtualByTx))) as [|l legs] eqn:E.
    + apply Hs.
    + cbn [specialSplitTaxTx splitLegs]. rewrite elem_of_union, elem_of_singleton, Hs.
      split.
      * intros [->|(v & Hv & Hvh)].
        -- exists l. split; [apply in_or_app; right; left; reflexivity|].
           apply Hh; [left; reflexivity|left; reflexivity].
        -- exists v. split; [apply in_or_app; left; exact Hv|exact Hvh].
      * intros (v & Hv & Hvh). apply in_app_or in Hv as [Hv|Hv].
        -- right. exists v. split; assumption.
        -- left. rewrite <- Hvh. apply Hh; [left; reflexivity|exact Hv].
  - intros k. unfold splitStep.
    destruct (splitTaxTransfers recipient toks
                (default [] (byTxGet h virtualByTx))) as [|l legs] eqn:E.
    + apply Hc.
    + cbn [consumedVirtualLogKeys splitLegs].
      rewrite elem_of_union, elem_of_list_to_set, Hc, map_app, in_app_iff.
      rewrite list_elem_of_In. tauto.
Qed.

Lemma runSplitRule_sets (ts vs : list ParsedTransfer) (recipient : Address) :
  let st := runSplitRule ts vs recipient in
  (forall h, h ∈ specialSplitTaxTx st
             <-> exists v, In v (splitLegs st) /\ txHash v = h)
  /\ (forall k, k ∈ consumedVirtualLogKeys st
                <-> In k (map logKey (splitLegs st))).
Proof.
  unfold runSplitRule. apply splitState_sets.
  - intros [h toks] x _ Hx. cbn [fst snd] in *.
    apply splitTaxTransfers_In in Hx as [Hx _].
    apply txVirtual_In in Hx. tauto.
  - intros h. cbn. rewrite elem_of_empty. split; [intros []|intros (v & [] & _)].
  - intros k. cbn. rewrite elem_of_empty. tauto.
Qed.

(** Membership in the result, by rule. *)
Lemma extractTaxInflows_In (ts vs : list ParsedTransfer) (recipient : Address)
      (pid : string) (stamp : Z) (x : TaxInflow.t) :
  In x (extractTaxInflows ts vs recipient pid stamp)
  <-> (exists v, In v (splitLegs (runSplitRule ts vs recipient))
                 /\ x = virtualInflow pid stamp v)
      \/ (exists t, In t ts /\ to t = recipient /\ x = tokenInflow pid stamp t)
      \/ (exists v, In v vs /\ to v = recipient
                    /\ (exists t, In t ts /\ txHash t = txHash v)
                    /\ (forall l, In l (splitLegs (runSplitRule ts vs recipient))
                                  -> txHash l <> txHash v)
                    /\ x = virtualInflow pid stamp v).
Proof.
  unfold extractTaxInflows. cbv zeta.
  destruct (runSplitRule_sets ts vs recipient) as [Hs Hc]. cbv zeta in Hs, Hc.
  rewrite !in_app_iff, !in_map_iff.
  assert (Hgen : forall v,
             In v (List.filter
                     (fun v =>
                        negb (bool_decide
                                (logKey v ∈ consumedVirtualLogKeys
                                              (runSplitRule ts vs recipient)))
                        && negb (bool_decide
                                   (txHash v ∈ specialSplitTaxTx
                                                 (runSplitRule ts vs recipient)))
                        && N.eqb (to v) recipient
                        && bool_decide
                             (txHash v ∈ (list_to_set (map txHash ts)
                                          : gset string))) vs)
             <-> In v vs /\ to v = recipient
                 /\ (exists t, In t ts /\ txHash t = txHash v)
                 /\ (forall l, In l (splitLegs (runSplitRule ts vs recipient))
                               -> txHash l <> txHash v)).
  { intros v. rewrite List.filter_In, !andb_true_iff, !negb_true_iff,
      !bool_decide_eq_false, bool_decide_eq_true, N.eqb_eq,
      elem_of_list_to_set, list_elem_of_In, in_map_iff, Hs, Hc.
    split.
    - intros (Hin & ((Hk & Hsp) & Hto) & (t & Hth & Ht)).
      split; [exact Hin|]. split; [exact Hto|]. split; [eauto|].
      intros l Hl Hlh. apply Hsp. exists l. auto.
    - intros (Hin & Hto & (t & Ht & Hth) & Hnone).
      split; [exact Hin|]. split; [|eauto]. split; [|exact Hto]. split.
      + intros Hk. apply in_map_iff in Hk as (l & Hlk & Hl).
        apply (Hnone l Hl). unfold logKey in Hlk. congruence.
      + intros (l & Hl & Hlh). apply (Hnone l Hl Hlh). }
  split.
  - intros [(v & <- & Hv)|[(t & <- & Ht)|(v & <- & Hv)]].
    + left. eauto.
    + right. left. apply List.filter_In in Ht as [Ht Hto].
      apply N.eqb_eq in Hto. eauto.
    + right. right. apply Hgen in Hv. exists v. tauto.
  - intros [(v & Hv & ->)|[(t & Ht & Hto & ->)|(v & Hv & Hto & Htx & Hn & ->)]].
    + left. eauto.
    + right. left. exists t. split; [reflexivity|].
      apply List.filter_In. split; [exact Ht|]. apply N.eqb_eq, Hto.
    + right. right. exists v. split; [reflexivity|]. apply Hgen. tauto.
Qed.

(** X19.  Every tax inflow [extractTaxInflows] returns belongs
    to a transaction that holds a transfer of the project token: a
    quote transfer to the tax recipient in any other transaction is
    not recorded. *)
Theorem tax_inflows_only_from_token_transactions
        (tokenTransfers virtualTransfers : list ParsedTransfer)
        (taxRecipient : Address) (projectId : string) (blockTimestamp : Z)
        (x : TaxInflow.t) :
  In x (extractTaxInflows tokenTransfers virtualTransfers taxRecipient
                          projectId blockTimestamp) ->
  exists t, In t tokenTransfers /\ txHash t = TaxInflow.txHash x.
Proof.
  intros H. apply extractTaxInflows_In in H
    as [(v & Hv & ->)|[(t & Ht & _ & ->)|(v & _ & _ & Htx & _ & ->)]].
  - apply splitLegs_origin in Hv as (_ & Htx & _). exact Htx.
  - exists t. split; [exact Ht|reflexivity].
  - exact Htx.
Qed.

(** *** Distinct logs give distinct inflows *)

Lemma keys_determine_element {A B} (f : A -> B) (l : list A) :
  List.NoDup (map f l) ->
  forall a b, In a l -> In b l -> f a = f b -> a = b.
Proof.
  induction l as [|x l IH]; cbn [map]; intros Hnd a b Ha Hb Hab; [destruct Ha|].
  apply List.NoDup_cons_iff in Hnd as [Hx Hnd].
  destruct Ha as [<-|Ha], Hb as [<-|Hb]; [reflexivity| | |auto].
  - exfalso. apply Hx. rewrite Hab. apply in_map, Hb.
  - exfalso. apply Hx. rewrite <- Hab. apply in_map, Ha.
Qed.

Lemma NoDup_of_distinct_keys {A B} (f : A -> B) (l : list A) :
  List.NoDup (map f l) -> List.NoDup l.
Proof.
  induction l as [|x l IH]; cbn [map]; intros Hnd; [constructor|].
  apply List.NoDup_cons_iff in Hnd as [Hx Hnd].
  constructor; [|auto]. intros Hin. apply Hx, in_map, Hin.
Qed.

Lemma NoDup_app_apart {A} (l k : list A) :
  List.NoDup (l ++ k) -> forall a, In a l -> ~ In a k.
Proof.
  induction l as [|x l IH]; cbn [app]; intros Hnd a Ha Hk; [destruct Ha|].
  apply List.NoDup_cons_iff in Hnd as [Hx Hnd].
  destruct Ha as [<-|Ha].
  - apply Hx, in_or_app. right. exact Hk.
  - exact (IH Hnd a Ha Hk).
Qed.

Lemma filter_keeps_NoDup {A} (p : A -> bool) (l : list A) :
  List.NoDup l -> List.NoDup (List.filter p l).
Proof.
  induction l as [|x l IH]; cbn [List.filter]; intros Hnd; [constructor|].
  apply List.NoDup_cons_iff in Hnd as [Hx Hnd].
  destruct (p x); [|auto]. constructor; [|auto].
  intros Hin. apply List.filter_In in Hin as [Hin _]. contradiction.
Qed.

Lemma splitTaxTransfers_NoDup (recipient : Address)
      (toks vs : list ParsedTransfer) :
  List.NoDup vs -> List.NoDup (splitTaxTransfers recipient toks vs).
Proof.
  intros Hnd. unfold splitTaxTransfers.
  destruct vs as [|v0 vs0] eqn:E; [constructor|]. rewrite <- E in *.
  destruct (JsArray.sortBy _ toks); [constructor|].
  destruct (negb _); [constructor|]. apply filter_keeps_NoDup, Hnd.
Qed.

Lemma txVirtual_NoDup (h : string) (vs : list ParsedTransfer) :
  List.NoDup vs -> List.NoDup (default [] (byTxGet h (groupByTx vs))).
Proof.
  intros Hnd. rewrite byTxGet_groupByTx.
  destruct (List.filter (inTx h) vs) eqn:E; cbn [nonEmpty default id];
    [constructor|].
  rewrite <- E. apply filter_keeps_NoDup, Hnd.
Qed.

Lemma splitLegs_NoDup (ts vs : list ParsedTransfer) (recipient : Address) :
  List.NoDup vs ->
  List.NoDup (splitLegs (runSplitRule ts vs recipient)).
Proof.
  intros Hnd. unfold runSplitRule. rewrite splitLegs_fold. cbn [splitLegs app].
  pose proof (groupByTx_NoDup ts) as Hkeys.
  induction (groupByTx ts) as [|[h toks] entries IH]; cbn [flat_map];
    [constructor|].
  cbn [map fst] in Hkeys. apply List.NoDup_cons_iff in Hkeys as [Hh Hkeys].
  apply List.NoDup_app.
  - cbn [fst snd]. apply splitTaxTransfers_NoDup, txVirtual_NoDup, Hnd.
  - apply IH, Hkeys.
  - cbn [fst snd]. intros a Ha Ha'.
    apply splitTaxTransfers_In in Ha as [Ha _]. apply txVirtual_In in Ha as [_ Hah].
    apply in_flat_map in Ha' as ([h' toks'] & He & Ha'). cbn [fst snd] in Ha'.
    apply splitTaxTransfers_In in Ha' as [Ha' _].
    apply txVirtual_In in Ha' as [_ Hah'].
    apply Hh. apply in_map_iff. exists (h', toks'). split; [|exact He].
    cbn [fst]. congruence.
Qed.

(** X20.  When the transfers of the input have pairwise distinct
    keys (txHash, logIndex), so have the inflows [extractTaxInflows]
    returns: no transfer is recorded by two rules, and the unique
    index of the table drops none of them. *)
Theorem distinct_logs_give_distinct_inflows
        (tokenTransfers virtualTransfers : list ParsedTransfer)
        (taxRecipient : Address) (projectId : string) (blockTimestamp : Z) :
  List.NoDup (map logKey (tokenTransfers ++ virtualTransfers)) ->
  List.NoDup (map inflowKey
                  (extractTaxInflows tokenTransfers virtualTransfers
                                     taxRecipient projectId blockTimestamp)).
Proof.
  intros Hnd.
  pose proof (keys_determine_element logKey _ Hnd) as Hinj.
  pose proof (NoDup_of_distinct_keys logKey _ Hnd) as Hall.
  assert (Hts : List.NoDup tokenTransfers)
    by (eapply NoDup_app_remove_r; exact Hall).
  assert (Hvs : List.NoDup virtualTransfers)
    by (eapply NoDup_app_remove_l; exact Hall).
  assert (Hdisj : forall a, In a tokenTransfers -> ~ In a virtualTransfers).
  { apply NoDup_app_apart, Hall. }
  destruct (runSplitRule_sets tokenTransfers virtualTransfers taxRecipient)
    as [Hs Hc]. cbv zeta in Hs, Hc.
  unfold extractTaxInflows. cbv zeta.
  set (st := runSplitRule tokenTransfers virtualTransfers taxRecipient) in *.
  rewrite !map_app, !map_map.
  change (fun x => inflowKey (virtualInflow projectId blockTimestamp x))
    with logKey.
  change (fun x => inflowKey (tokenInflow projectId blockTimestamp x))
    with logKey.
  rewrite <- !map_app.
  match goal with
  | |- List.NoDup (map logKey ?l) =>
      assert (Hmem : forall a, In a l ->
                               In a (tokenTransfers ++ virtualTransfers));
      [|assert (Hl : List.NoDup l); [|revert Hl Hmem; generalize l]]
  end.
  - intros a Ha. apply in_or_app.
    apply in_app_or in Ha as [Ha|Ha]; [|apply in_app_or in Ha as [Ha|Ha]].
    + right. apply splitLegs_origin in Ha. tauto.
    + left. apply List.filter_In in Ha. tauto.
    + right. apply List.filter_In in Ha. tauto.
  - apply List.NoDup_app; [apply splitLegs_NoDup, Hvs| |].
    + apply List.NoDup_app; [apply filter_keeps_NoDup, Hts|apply filter_keeps_NoDup, Hvs|].
      intros a Ha Hb. apply List.filter_In in Ha as [Ha _].
      apply List.filter_In in Hb as [Hb _]. exact (Hdisj a Ha Hb).
    + intros a Ha Hb. apply in_app_or in Hb as [Hb|Hb].
      * apply List.filter_In in Hb as [Hb _].
        apply splitLegs_origin in Ha as [Ha _]. exact (Hdisj a Hb Ha).
      * apply List.filter_In in Hb as [_ Hb].
        rewrite !andb_true_iff, !negb_true_iff, !bool_decide_eq_false in Hb.
        destruct Hb as (((Hk & _) & _) & _). apply Hk, Hc, in_map, Ha.
  - intros l Hl Hmem. clear -Hl Hmem Hinj.
    induction l as [|a l IH]; cbn [map]; [constructor|].
    apply List.NoDup_cons_iff in Hl as [Ha Hl]. constructor.
    + intros Hin. apply in_map_iff in Hin as (b & Hab & Hb).
      assert (b = a); [|subst b; contradiction].
      apply Hinj; [apply Hmem; right; exact Hb|apply Hmem; left; reflexivity|].
      exact Hab.
    + apply IH; [exact Hl|]. intros b Hb. apply Hmem. right. exact Hb.
Qed.

(** X21.  In a transaction in which the split-tax rule has
    recorded a leg, a quote transfer to the tax recipient itself is
    not recorded: no inflow carries its key. *)
Theorem split_tax_transaction_drops_recipient_leg
        (tokenTransfers virtualTransfers : list ParsedTransfer)
        (taxRecipient : Address) (projectId : string) (blockTimestamp : Z)
        (leg v : ParsedTransfer) (x : TaxInflow.t) :
  List.NoDup (map logKey (tokenTransfers ++ virtualTransfers)) ->
  In leg (splitLegs (runSplitRule tokenTransfers virtualTransfers
                                  taxRecipient)) ->
  In v virtualTransfers -> txHash v = txHash leg -> to v = taxRecipient ->
  In x (extractTaxInflows tokenTransfers virtualTransfers taxRecipient
                          projectId blockTimestamp) ->
  inflowKey x <> logKey v.
Proof.
  intros Hnd Hleg Hv Hh Hto Hx Hkey.
  pose proof (keys_determine_element logKey _ Hnd) as Hinj.
  assert (Hvin : In v (tokenTransfers ++ virtualTransfers))
    by (apply in_or_app; right; exact Hv).
  apply extractTaxInflows_In in Hx
    as [(l & Hl & ->)|[(t & Ht & _ & ->)|(g & Hg & _ & _ & Hnone & ->)]].
  - pose proof (splitLegs_origin _ _ _ _ Hl) as (Hlv & _ & Hlto).
    assert (l = v); [|subst l; contradiction].
    apply Hinj; [apply in_or_app; right; exact Hlv|exact Hvin|exact Hkey].
  - assert (t = v) as ->.
    { apply Hinj; [apply in_or_app; left; exact Ht|exact Hvin|exact Hkey]. }
    pose proof (NoDup_of_distinct_keys logKey _ Hnd) as Hall.
    exact (NoDup_app_apart _ _ Hall v Ht Hv).
  - assert (g = v) as ->.
    { apply Hinj; [apply in_or_app; right; exact Hg|exact Hvin|exact Hkey]. }
    apply (Hnone leg Hleg). congruence.
Qed.

End TaxInflowFacts.

Section TaxInflowScenarios.
Import TaxTracker TaxKeys.

(** Distinctness of a list of concrete keys. *)
Ltac distinct_keys :=
  vm_compute;
  repeat (constructor;
          [let H := fresh in
           intros H; repeat (destruct H as [H|H]; [discriminate H|]); exact H|]);
  constructor.

Lemma tax_inflows_only_from_token_transactions_witness :
  exists t, In t Scenario.buyTokenTransfers
            /\ txHash t
               = TaxInflow.txHash (virtualInflow "p" 1700 Scenario.sideLeg).
Proof.
  apply (tax_inflows_only_from_token_transactions
           Scenario.buyTokenTransfers Scenario.sideLegVirtualTransfers
           Scenario.taxAddr "p" 1700).
  vm_compute. left. reflexivity.
Defined.

Lemma distinct_logs_give_distinct_inflows_witness :
  List.NoDup (map inflowKey
                  (extractTaxInflows Scenario.buyTokenTransfers
                                     Examples.splitTaxVirtualTransfers
                                     Scenario.taxAddr "p" 1700)).
Proof.
  apply (distinct_logs_give_distinct_inflows
           Scenario.buyTokenTransfers Examples.splitTaxVirtualTransfers
           Scenario.taxAddr "p" 1700).
  distinct_keys.
Defined.

Lemma split_tax_transaction_drops_recipient_leg_witness :
  inflowKey (virtualInflow "p" 1700 Scenario.sideLeg)
  <> logKey Examples.recipientLeg.
Proof.
  apply (split_tax_transaction_drops_recipient_leg
           Scenario.buyTokenTransfers Examples.splitTaxVirtualTransfers
           Scenario.taxAddr "p" 1700 Scenario.sideLeg Examples.recipientLeg).
  - distinct_keys.
  - vm_compute. left. reflexivity.
  - right. right. left. reflexivity.
  - reflexivity.
  - reflexivity.
  - vm_compute. left. reflexivity.
Defined.

End TaxInflowScenarios.

(** ** Cost Ledger: rows as running totals *)

Section LedgerFacts.
Import CostLedger LedgerSums Sums.

Lemma isRow_key pid a r : isRow pid a r = true <-> rowKey r = (pid, a).
Proof.
  unfold isRow, rowKey. rewrite andb_true_iff, String.eqb_eq, N.eqb_eq.
  split; [intros [-> ->]; reflexivity | intros [= -> ->]; auto].
Qed.

Lemma selectRow_None pid a tbl :
  selectRow pid a tbl = None <-> ~ In (pid, a) (map rowKey tbl).
Proof.
  unfold selectRow. split.
  - intros H Hin. apply in_map_iff in Hin as (r & Hk & Hr).
    apply (List.find_none _ _ H) in Hr. apply isRow_key in Hk. congruence.
  - intros H. destruct (List.find _ tbl) as [r|] eqn:E; [|reflexivity].
    apply List.find_some in E as [Hr Hk]. apply isRow_key in Hk.
    destruct H. rewrite <- Hk. apply in_map, Hr.
Qed.

Lemma updateRow_keys row tbl : map rowKey (updateRow row tbl) = map rowKey tbl.
Proof.
  unfold updateRow. induction tbl as [|r tbl IH]; [reflexivity|].
  cbn [map]. rewrite IH. f_equal.
  destruct (isRow _ _ r) eqn:E; [|reflexivity].
  apply isRow_key in E. symmetry. exact E.
Qed.

(** The row [updateAddressCost] writes. *)
Lemma updateAddressCost_shape (t : Trade.t) (tbl : Table) :
  exists row,
    rowKey row = (Trade.projectId t, Trade.trader t)
    /\ updateAddressCost t tbl
       = match selectRow (Trade.projectId t) (Trade.trader t) tbl with
         | Some _ => updateRow row tbl
         | None => tbl ++ [row]
         end
    /\ let old f := match selectRow (Trade.projectId t) (Trade.trader t) tbl with
                    | Some r => f r
                    | None => 0
                    end in
       let add (counted : bool) (column : Trade.t -> option Z) :=
         if counted then default 0 (column t) else 0 in
       AddressCost.spentQuoteGross row
       = old AddressCost.spentQuoteGross + add (countedBuy t) Trade.quoteIn
       /\ AddressCost.spentQuoteGrossActual row
          = old AddressCost.spentQuoteGrossActual + add (countedBuy t) grossOrNet
       /\ AddressCost.tokensReceived row
          = old AddressCost.tokensReceived + add (countedBuy t) Trade.tokenOut
       /\ AddressCost.tokensSold row
          = old AddressCost.tokensSold + add (countedSell t) Trade.tokenIn
       /\ AddressCost.quoteReceived row
          = old AddressCost.quoteReceived + add (countedSell t) Trade.quoteOut
       /\ AddressCost.lastUpdatedBlock row = Some (Trade.blockNumber t).
Proof.
  unfold updateAddressCost, countedBuy, countedSell, grossOrNet. cbv zeta.
  destruct (Trade.side t), (Trade.quoteIn t), (Trade.tokenOut t),
    (Trade.tokenIn t), (Trade.quoteOut t), (Trade.quoteInGross t);
    cbv iota beta;
    (eexists; split; [|split]; [|reflexivity|]; [reflexivity|]);
    cbn [AddressCost.spentQuoteGross AddressCost.spentQuoteGrossActual
         AddressCost.tokensReceived AddressCost.tokensSold
         AddressCost.quoteReceived AddressCost.lastUpdatedBlock
         default from_option id];
    repeat split; lia.
Qed.

Lemma find_map_preserved {A} (p : A -> bool) (f : A -> A) (l : list A) :
  (forall x, p (f x) = p x) -> (forall x, p x = true -> f x = x) ->
  List.find p (map f l) = List.find p l.
Proof.
  intros Hp Hf. induction l as [|x l IH]; [reflexivity|].
  cbn [map List.find]. rewrite Hp. destruct (p x) eqn:E; [|exact IH].
  rewrite Hf by exact E. reflexivity.
Qed.

Lemma selectRow_updateRow_other pid a row tbl :
  rowKey row <> (pid, a) ->
  selectRow pid a (updateRow row tbl) = selectRow pid a tbl.
Proof.
  intros Hne. unfold selectRow, updateRow. apply find_map_preserved.
  - intros x.
    destruct (isRow (AddressCost.projectId row) (AddressCost.address row) x)
      eqn:E; [|reflexivity].
    apply isRow_key in E. change (rowKey x = rowKey row) in E.
    destruct (isRow pid a row) eqn:E1; [apply isRow_key in E1; congruence|].
    destruct (isRow pid a x) eqn:E2; [|reflexivity].
    apply isRow_key in E2. congruence.
  - intros x Hx.
    destruct (isRow (AddressCost.projectId row) (AddressCost.address row) x)
      eqn:E; [|reflexivity].
    apply isRow_key in E, Hx. change (rowKey x = rowKey row) in E.
    congruence.
Qed.

Lemma selectRow_updateRow_same pid a row tbl :
  rowKey row = (pid, a) ->
  selectRow pid a tbl <> None ->
  selectRow pid a (updateRow row tbl) = Some row.
Proof.
  intros Hk. pose proof (proj2 (isRow_key pid a row) Hk) as Hrow.
  unfold rowKey in Hk. injection Hk as Hp Ha.
  unfold selectRow, updateRow. rewrite Hp, Ha.
  induction tbl as [|r tbl IH]; cbn [List.find map]; [congruence|].
  destruct (isRow pid a r) eqn:E.
  - intros _. rewrite Hrow. reflexivity.
  - rewrite E. exact IH.
Qed.

Lemma selectRow_app pid a tbl row :
  selectRow pid a (tbl ++ [row])
  = match selectRow pid a tbl with
    | Some r => Some r
    | None => if isRow pid a row then Some row else None
    end.
Proof.
  unfold selectRow. induction tbl as [|r tbl IH]; cbn [app List.find].
  - reflexivity.
  - destruct (isRow pid a r); [reflexivity|exact IH].
Qed.

(** A trade of another address leaves a row as it is. *)
Lemma selectRow_other_trade pid a (t : Trade.t) (tbl : Table) :
  traded pid a t = false ->
  selectRow pid a (updateAddressCost t tbl) = selectRow pid a tbl.
Proof.
  intros Hne.
  destruct (updateAddressCost_shape t tbl) as (row & Hk & -> & _).
  assert (Hkey : rowKey row <> (pid, a)).
  { rewrite Hk. intros [= Hp Ha]. unfold traded in Hne.
    rewrite Hp, Ha, String.eqb_refl, N.eqb_refl in Hne. discriminate. }
  destruct (selectRow (Trade.projectId t) (Trade.trader t) tbl).
  - apply selectRow_updateRow_other, Hkey.
  - rewrite selectRow_app.
    destruct (selectRow pid a tbl); [reflexivity|].
    destruct (isRow pid a row) eqn:E; [|reflexivity].
    apply isRow_key in E. contradiction.
Qed.

(** A trade of the address itself puts its row in place. *)
Lemma selectRow_own_trade pid a (t : Trade.t) (tbl : Table) :
  traded pid a t = true ->
  exists row,
    selectRow pid a (updateAddressCost t tbl) = Some row
    /\ rowKey row = (pid, a)
    /\ let old f := match selectRow pid a tbl with
                    | Some r => f r
                    | None => 0
                    end in
       let add (counted : bool) (column : Trade.t -> option Z) :=
         if counted then default 0 (column t) else 0 in
       AddressCost.spentQuoteGross row
       = old AddressCost.spentQuoteGross + add (countedBuy t) Trade.quoteIn
       /\ AddressCost.spentQuoteGrossActual row
          = old AddressCost.spentQuoteGrossActual + add (countedBuy t) grossOrNet
       /\ AddressCost.tokensReceived row
          = old AddressCost.tokensReceived + add (countedBuy t) Trade.tokenOut
       /\ AddressCost.tokensSold row
          = old AddressCost.tokensSold + add (countedSell t) Trade.tokenIn
       /\ AddressCost.quoteReceived row
          = old AddressCost.quoteReceived + add (countedSell t) Trade.quoteOut
       /\ AddressCost.lastUpdatedBlock row = Some (Trade.blockNumber t).
Proof.
  intros Hown. unfold traded in Hown.
  apply andb_prop in Hown as [Hp Ha].
  apply String.eqb_eq in Hp. apply N.eqb_eq in Ha.
  destruct (updateAddressCost_shape t tbl) as (row & Hk & -> & Hfields).
  rewrite Hp, Ha in *. exists row. split; [|split; [exact Hk|exact Hfields]].
  destruct (selectRow pid a tbl) eqn:E.
  - apply selectRow_updateRow_same; [exact Hk|congruence].
  - rewrite selectRow_app, E. apply isRow_key in Hk. rewrite Hk. reflexivity.
Qed.

Lemma updateAddressCosts_snoc (trades : list Trade.t) (t : Trade.t) tbl :
  updateAddressCosts (trades ++ [t]) tbl
  = updateAddressCost t (updateAddressCosts trades tbl).
Proof. unfold updateAddressCosts. rewrite fold_left_app. reflexivity. Qed.

Lemma amount_snoc column (l : list Trade.t) (t : Trade.t) :
  amount column (l ++ [t]) = amount column l + default 0 (column t).
Proof.
  unfold amount. rewrite map_app. cbn [map]. rewrite total_snoc. reflexivity.
Qed.

(** X22.  After [updateAddressCosts] on an empty ledger, an
    address has a row exactly when it has traded, and each total of
    the row is the sum of the matching amounts over the address's own
    trades: net spend, gross spend and tokens received over its
    counted purchases, tokens sold and quote received over its counted
    sales. *)
Theorem ledger_row_is_sum_of_own_trades
        (trades : list Trade.t) (projectId : string) (a : Address) :
  let mine := List.filter (traded projectId a) trades in
  match selectRow projectId a (updateAddressCosts trades []) with
  | None => mine = []
  | Some row =>
      mine <> []
      /\ rowKey row = (projectId, a)
      /\ AddressCost.spentQuoteGross row
         = amount Trade.quoteIn (List.filter countedBuy mine)
      /\ AddressCost.spentQuoteGrossActual row
         = amount grossOrNet (List.filter countedBuy mine)
      /\ AddressCost.tokensReceived row
         = amount Trade.tokenOut (List.filter countedBuy mine)
      /\ AddressCost.tokensSold row
         = amount Trade.tokenIn (List.filter countedSell mine)
      /\ AddressCost.quoteReceived row
         = amount Trade.quoteOut (List.filter countedSell mine)
  end.
Proof.
  cbv zeta. induction trades as [|t trades IH] using rev_ind.
  - reflexivity.
  - rewrite updateAddressCosts_snoc, List.filter_app. cbn [List.filter].
    destruct (traded projectId a t) eqn:Eown.
    + destruct (selectRow_own_trade projectId a t
                  (updateAddressCosts trades []) Eown)
        as (row & -> & Hk & Hfields).
      cbv zeta in Hfields.
      destruct Hfields as (H1 & H2 & H3 & H4 & H5 & _).
      split; [destruct (List.filter _ trades); discriminate|].
      split; [exact Hk|].
      rewrite !List.filter_app. cbn [List.filter].
      rewrite H1, H2, H3, H4, H5. clear H1 H2 H3 H4 H5.
      destruct (selectRow projectId a (updateAddressCosts trades [])) as [r|].
      * destruct IH as (_ & _ & -> & -> & -> & -> & ->).
        destruct (countedBuy t), (countedSell t);
          rewrite ?amount_snoc, ?app_nil_r; repeat split; lia.
      * rewrite IH. cbn [List.filter app].
        destruct (countedBuy t), (countedSell t); unfold amount, total;
          cbn [map fold_right]; repeat split; lia.
    + rewrite selectRow_other_trade by exact Eown. rewrite app_nil_r. exact IH.
Qed.

(** *** One row per address *)

Lemma updateAddressCost_keys (t : Trade.t) (tbl : Table) :
  List.NoDup (map rowKey tbl) ->
  List.NoDup (map rowKey (updateAddressCost t tbl)).
Proof.
  intros Hnd. destruct (updateAddressCost_shape t tbl) as (row & Hk & -> & _).
  destruct (selectRow _ _ tbl) eqn:E.
  - rewrite updateRow_keys. exact Hnd.
  - rewrite map_app. cbn [map]. apply List.NoDup_app; [exact Hnd| |].
    + constructor; [intros []|constructor].
    + intros k Hin [<-|[]]. apply selectRow_None in E. rewrite Hk in Hin.
      contradiction.
Qed.

(** X23.  [updateAddressCosts] keeps the ledger at one row per
    (project, address). *)
Theorem ledger_keeps_one_row_per_address
        (trades : list Trade.t) (tbl : Table) :
  List.NoDup (map rowKey tbl) ->
  List.NoDup (map rowKey (updateAddressCosts trades tbl)).
Proof.
  unfold updateAddressCosts. revert tbl.
  induction trades as [|t trades IH]; intros tbl Hnd; [exact Hnd|].
  cbn [fold_left]. apply IH, updateAddressCost_keys, Hnd.
Qed.

(** *** Holders only *)

(** X24.  When no address of the ledger holds a positive
    balance, [computeCostSummary] returns the empty summary, whatever
    the ledger rows say. *)
Theorem computeCostSummary_counts_holders_only
        (projectId : string) (tbl : Table) (balances : Balances) :
  (forall row, In row tbl ->
               default 0 (balances !! (AddressCost.projectId row,
                                       AddressCost.address row)) <= 0) ->
  computeCostSummary projectId tbl balances = Some emptySummary.
Proof.
  intros Hbal. unfold computeCostSummary.
  assert (Hrows : forall row, In row (costRowsOf projectId tbl) ->
                     default 0 (balances !! (AddressCost.projectId row,
                                             AddressCost.address row)) <= 0).
  { intros row Hr. apply Hbal. unfold costRowsOf in Hr.
    apply List.filter_In in Hr. tauto. }
  destruct (costRowsOf projectId tbl) as [|r rows] eqn:E; [reflexivity|].
  rewrite <- E in *. clear E.
  assert (Hacc : forall acc, accumulateFrom balances (costRowsOf projectId tbl) acc
                             = Some acc).
  { induction (costRowsOf projectId tbl) as [|x l IH]; intros acc;
      [reflexivity|].
    cbn [accumulateFrom]. unfold summaryStep.
    destruct (Z.leb_spec (default 0 (balances !! (AddressCost.projectId x,
                                                  AddressCost.address x))) 0)
      as [_|Hpos].
    - apply IH. intros row Hr. apply Hrows. right. exact Hr.
    - specialize (Hrows x (or_introl eq_refl)). lia. }
  unfold accumulate. rewrite Hacc. reflexivity.
Qed.

End LedgerFacts.

Section LedgerScenarios.
Import CostLedger LedgerSums.

Lemma ledger_keeps_one_row_per_address_witness :
  List.NoDup (map rowKey (updateAddressCosts
                            [Scenario.sampleTrade; Scenario.loneSell] [])).
Proof.
  apply (ledger_keeps_one_row_per_address
           [Scenario.sampleTrade; Scenario.loneSell] []).
  constructor.
Defined.

Lemma computeCostSummary_counts_holders_only_witness :
  computeCostSummary "p" (updateAddressCosts [Scenario.sampleTrade] []) ∅
  = Some emptySummary.
Proof.
  apply (computeCostSummary_counts_holders_only
           "p" (updateAddressCosts [Scenario.sampleTrade] []) ∅).
  intros row _. unfold Balances. rewrite lookup_empty. cbn. lia.
Defined.

End LedgerScenarios.

(** ** Indexer Orchestrator: the tables across runs *)

Section OrchestratorTables.
Import Orchestrator TableKeys TaxKeys.

(** *** The trade loop *)

Lemma insertAndEmit_step (projectId : string) (st : State)
      (ins : list Trade.t) (t : Trade.t) :
  insertAndEmit projectId (st, ins) t
  = match trades st !! tradeKey t with
    | Some _ =>
        (mkState (trades st) (taxInflows st) (addressCosts st)
                 (emitted st ++ eventsFor projectId t), ins)
    | None =>
        (mkState (<[tradeKey t := t]> (trades st)) (taxInflows st)
                 (addressCosts st) (emitted st ++ eventsFor projectId t),
         ins ++ [t])
    end.
Proof.
  unfold insertAndEmit, insertTrade, tradeKey.
  destruct (trades st !! (Trade.txHash t, Trade.logIndex t)); reflexivity.
Qed.

(** What the insert loop does to the tables and to the list of
    inserted trades. *)
Lemma insert_loop_spec (projectId : string) (allTrades : list Trade.t) :
  forall (st : State) (ins : list Trade.t),
    let r := fold_left (insertAndEmit projectId) allTrades (st, ins) in
    taxInflows (fst r) = taxInflows st
    /\ addressCosts (fst r) = addressCosts st
    /\ trades st ⊆ trades (fst r)
    /\ (forall t, In t allTrades -> is_Some (trades (fst r) !! tradeKey t))
    /\ exists new,
        snd r = ins ++ new
        /\ size (trades (fst r)) = (size (trades st) + length new)%nat
        /\ (forall t, In t new ->
                      trades st !! tradeKey t = None
                      /\ trades (fst r) !! tradeKey t = Some t)
        /\ ((forall t, In t allTrades -> is_Some (trades st !! tradeKey t))
            -> new = [] /\ trades (fst r) = trades st).
Proof.
  induction allTrades as [|t rest IH]; intros st ins; cbv zeta.
  - cbn [fold_left fst snd]. split; [reflexivity|]. split; [reflexivity|].
    split; [reflexivity|]. split; [intros t []|].
    exists []. rewrite app_nil_r. split; [reflexivity|].
    split; [cbn [length]; lia|]. split; [intros t []|].
    intros _. split; reflexivity.
  - cbn [fold_left]. rewrite insertAndEmit_step.
    destruct (trades st !! tradeKey t) as [old|] eqn:E.
    + specialize (IH (mkState (trades st) (taxInflows st) (addressCosts st)
                              (emitted st ++ eventsFor projectId t)) ins).
      cbv zeta in IH. cbn [trades taxInflows addressCosts] in IH.
      destruct IH as (H1 & H2 & H3 & H4 & new & H5 & H6 & H7 & H8).
      split; [exact H1|]. split; [exact H2|]. split; [exact H3|]. split.
      * intros x [<-|Hx]; [|auto].
        eapply lookup_weaken_is_Some; [|exact H3]. rewrite E. eauto.
      * exists new. split; [exact H5|]. split; [exact H6|]. split; [exact H7|].
        intros Hall. apply H8. intros x Hx. apply Hall. right. exact Hx.
    + specialize (IH (mkState (<[tradeKey t := t]> (trades st)) (taxInflows st)
                              (addressCosts st)
                              (emitted st ++ eventsFor projectId t))
                     (ins ++ [t])).
      cbv zeta in IH. cbn [trades taxInflows addressCosts] in IH.
      destruct IH as (H1 & H2 & H3 & H4 & new & H5 & H6 & H7 & H8).
      assert (Hsub : trades st ⊆ <[tradeKey t := t]> (trades st))
        by (apply insert_subseteq, E).
      split; [exact H1|]. split; [exact H2|].
      split; [etrans; eassumption|]. split.
      * intros x [<-|Hx]; [|auto].
        eapply lookup_weaken_is_Some; [|exact H3].
        rewrite lookup_insert_eq. eauto.
      * exists (t :: new). split; [rewrite H5, <- app_assoc; reflexivity|].
        split; [rewrite H6, map_size_insert_None by exact E; cbn [length]; lia|].
        split.
        -- intros x [<-|Hx].
           ++ split; [exact E|]. eapply lookup_weaken; [|exact H3].
              apply lookup_insert_eq.
           ++ destruct (H7 x Hx) as [Hn Hs]. split; [|exact Hs].
              destruct (trades st !! tradeKey x) eqn:Ex; [|reflexivity].
              eapply lookup_weaken in Ex; [|exact Hsub]. congruence.
        -- intros Hall. destruct (Hall t (or_introl eq_refl)) as [? Hsome].
           congruence.
Qed.

Lemma insertTrades_spec (projectId : string) (allTrades : list Trade.t)
      (st : State) :
  let r := insertTrades projectId allTrades st in
  taxInflows (fst r) = taxInflows st
  /\ addressCosts (fst r)
     = CostLedger.updateAddressCosts (snd r) (addressCosts st)
  /\ trades st ⊆ trades (fst r)
  /\ (forall t, In t allTrades -> is_Some (trades (fst r) !! tradeKey t))
  /\ size (trades (fst r)) = (size (trades st) + length (snd r))%nat
  /\ (forall t, In t (snd r) ->
                trades st !! tradeKey t = None
                /\ trades (fst r) !! tradeKey t = Some t)
  /\ ((forall t, In t allTrades -> is_Some (trades st !! tradeKey t))
      -> snd r = [] /\ trades (fst r) = trades st).
Proof.
  cbv zeta. unfold insertTrades.
  pose proof (insert_loop_spec projectId allTrades st []) as H.
  cbv zeta in H.
  destruct (fold_left (insertAndEmit projectId) allTrades (st, []))
    as [st1 inserted].
  cbn [fst snd app] in *.
  destruct H as (H1 & H2 & H3 & H4 & new & -> & H6 & H7 & H8).
  destruct new as [|t new]; cbn [fst snd trades taxInflows addressCosts].
  - split; [exact H1|]. split; [exact H2|]. split; [exact H3|].
    split; [exact H4|]. split; [exact H6|]. split; [exact H7|exact H8].
  - split; [exact H1|]. split; [rewrite H2; reflexivity|]. split; [exact H3|].
    split; [exact H4|]. split; [exact H6|]. split; [exact H7|exact H8].
Qed.

(** *** The tax-inflow loop *)

Lemma inflow_loop_spec (inflows : list TaxInflow.t) :
  forall tbl : gmap (string * Z) TaxInflow.t,
    let tbl' := fold_left (fun tbl inflow => insertTaxInflow inflow tbl)
                          inflows tbl in
    tbl ⊆ tbl'
    /\ (forall x, In x inflows -> is_Some (tbl' !! inflowKey x))
    /\ ((forall x, In x inflows -> is_Some (tbl !! inflowKey x)) -> tbl' = tbl).
Proof.
  induction inflows as [|x rest IH]; intros tbl; cbv zeta; cbn [fold_left].
  - split; [reflexivity|]. split; [intros x []|reflexivity].
  - unfold insertTaxInflow at 2 4 6. fold (inflowKey x).
    destruct (tbl !! inflowKey x) as [old|] eqn:E.
    + destruct (IH tbl) as (H1 & H2 & H3). split; [exact H1|]. split.
      * intros y [<-|Hy]; [|auto].
        eapply lookup_weaken_is_Some; [|exact H1]. rewrite E. eauto.
      * intros Hall. apply H3. intros y Hy. apply Hall. right. exact Hy.
    + destruct (IH (<[inflowKey x := x]> tbl)) as (H1 & H2 & H3).
      assert (Hsub : tbl ⊆ <[inflowKey x := x]> tbl) by (apply insert_subseteq, E).
      split; [etrans; eassumption|]. split.
      * intros y [<-|Hy]; [|auto].
        eapply lookup_weaken_is_Some; [|exact H1].
        rewrite lookup_insert_eq. eauto.
      * intros Hall. destruct (Hall x (or_introl eq_refl)) as [? Hsome].
        congruence.
Qed.

(** *** One block, then a range of blocks *)

(** One pass over a block only adds rows and counts the new trade
    rows; every later state that still holds them processes the
    block again without changing a table. *)
Lemma processBlock_spec (projectId : string) (tokenAddress : Address)
      (internalMarket : option Market) (taxRecipient : option Address)
      (block : BlockData) (st st' : State) (n : Z) :
  processBlock projectId tokenAddress internalMarket taxRecipient st block
  = Some (st', n) ->
  trades st ⊆ trades st'
  /\ taxInflows st ⊆ taxInflows st'
  /\ Z.of_nat (size (trades st')) = Z.of_nat (size (trades st)) + n
  /\ forall st0,
      trades st' ⊆ trades st0 -> taxInflows st' ⊆ taxInflows st0 ->
      exists st0',
        processBlock projectId tokenAddress internalMarket taxRecipient
                     st0 block = Some (st0', 0)
        /\ trades st0' = trades st0
        /\ taxInflows st0' = taxInflows st0
        /\ addressCosts st0' = addressCosts st0.
Proof.
  unfold processBlock.
  set (internalTrades :=
         match internalMarket with
         | Some market =>
             if marketCovers market (b_blockNumber block)
             then TradeParser.reconstructTrades
                    (b_tokenTransfers block) (b_virtualTransfers block)
                    (m_marketAddress market) tokenAddress projectId INTERNAL
                    (b_timestamp block)
             else Some []
         | None => Some []
         end).
  destruct internalTrades as [allTrades|]; [|discriminate].
  set (inflows st :=
         match taxRecipient with
         | Some recipient =>
             mkState (trades st)
               (fold_left (fun tbl inflow => insertTaxInflow inflow tbl)
                  (TaxTracker.extractTaxInflows
                     (b_tokenTransfers block) (b_virtualTransfers block)
                     recipient projectId (b_timestamp block))
                  (taxInflows st))
               (addressCosts st) (emitted st)
         | None => st
         end).
  change (match taxRecipient with
          | Some recipient => _
          | None => st
          end) with (inflows st).
  pose proof (insertTrades_spec projectId allTrades (inflows st)) as Hins.
  cbv zeta in Hins.
  destruct (insertTrades projectId allTrades (inflows st)) as [st2 inserted]
    eqn:E2.
  cbn [fst snd] in Hins.
  destruct Hins as (H1 & H2 & H3 & H4 & H5 & H6 & H7).
  intros [= <- <-].
  assert (Hinfl : trades (inflows st) = trades st
                  /\ taxInflows st ⊆ taxInflows (inflows st)
                  /\ forall st0,
                      taxInflows (inflows st) ⊆ taxInflows st0 ->
                      trades (inflows st0) = trades st0
                      /\ taxInflows (inflows st0) = taxInflows st0
                      /\ addressCosts (inflows st0) = addressCosts st0).
  { unfold inflows. destruct taxRecipient as [recipient|].
    - cbn [trades taxInflows addressCosts]. split; [reflexivity|].
      destruct (inflow_loop_spec
                  (TaxTracker.extractTaxInflows
                     (b_tokenTransfers block) (b_virtualTransfers block)
                     recipient projectId (b_timestamp block))
                  (taxInflows st)) as (Hsub & Hall & _).
      cbv zeta in Hsub, Hall. split; [exact Hsub|].
      intros st0 Hst0. split; [reflexivity|]. split; [|reflexivity].
      apply inflow_loop_spec. intros x Hx.
      eapply lookup_weaken_is_Some; [apply Hall, Hx|exact Hst0].
    - split; [reflexivity|]. split; [reflexivity|]. intros st0 _. auto. }
  destruct Hinfl as (Ht & Hi & Hagain).
  rewrite Ht in *.
  split; [exact H3|]. split; [rewrite H1; exact Hi|]. split; [lia|].
  intros st0 Hst0 Hist0.
  change (match taxRecipient with
          | Some recipient => _
          | None => st0
          end) with (inflows st0).
  destruct (Hagain st0) as (Ht0 & Hi0 & Hc0); [rewrite <- H1; exact Hist0|].
  pose proof (insertTrades_spec projectId allTrades (inflows st0)) as Hins0.
  cbv zeta in Hins0.
  destruct (insertTrades projectId allTrades (inflows st0)) as [st3 inserted0].
  cbn [fst snd] in Hins0.
  destruct Hins0 as (G1 & G2 & _ & _ & _ & _ & G7).
  destruct G7 as [-> G8].
  { intros t Hin. rewrite Ht0.
    eapply lookup_weaken_is_Some; [apply H4, Hin|exact Hst0]. }
  exists st3. split; [reflexivity|]. split; [congruence|].
  split; [congruence|]. rewrite G2. cbn. exact Hc0.
Qed.

Lemma processBlocks_spec (projectId : string) (tokenAddress : Address)
      (internalMarket : option Market) (taxRecipient : option Address)
      (blockData : list BlockData) :
  forall (st st' : State) (total total' : Z),
    processBlocks projectId tokenAddress internalMarket taxRecipient
                  blockData st total = Some (st', total') ->
    trades st ⊆ trades st'
    /\ taxInflows st ⊆ taxInflows st'
    /\ Z.of_nat (size (trades st'))
       = Z.of_nat (size (trades st)) + (total' - total)
    /\ forall st0 total0,
        trades st' ⊆ trades st0 -> taxInflows st' ⊆ taxInflows st0 ->
        exists st0',
          processBlocks projectId tokenAddress internalMarket taxRecipient
                        blockData st0 total0 = Some (st0', total0)
          /\ trades st0' = trades st0
          /\ taxInflows st0' = taxInflows st0
          /\ addressCosts st0' = addressCosts st0.
Proof.
  induction blockData as [|block rest IH]; intros st st' total total';
    cbn [processBlocks].
  - intros [= <- <-]. split; [reflexivity|]. split; [reflexivity|].
    split; [lia|]. intros st0 total0 _ _. exists st0. auto.
  - destruct (processBlock projectId tokenAddress internalMarket taxRecipient
                           st block) as [[st1 n]|] eqn:E1; [|discriminate].
    intros E. apply processBlock_spec in E1 as (B1 & B2 & B3 & B4).
    apply IH in E as (R1 & R2 & R3 & R4).
    split; [etrans; eassumption|]. split; [etrans; eassumption|].
    split; [lia|].
    intros st0 total0 Hst0 Hist0.
    destruct (B4 st0) as (st0' & -> & Et & Ei & Ec);
      [etrans; eassumption | etrans; eassumption |].
    destruct (R4 st0' (total0 + 0)) as (st0'' & E' & Et' & Ei' & Ec');
      [rewrite Et; exact Hst0 | rewrite Ei; exact Hist0 |].
    exists st0''. rewrite E', Z.add_0_r. split; [reflexivity|].
    split; [congruence|]. split; congruence.
Qed.

(** X25.  A run of the block loop never changes or removes a row
    of [trades] or [tax_inflows], and the count it returns is the
    number of rows it has added to [trades]. *)
Theorem processBlocks_counts_new_rows
        (projectId : string) (tokenAddress : Address)
        (internalMarket : option Market) (taxRecipient : option Address)
        (blockData : list BlockData) (st st' : State) (totalTrades : Z) :
  processBlocks projectId tokenAddress internalMarket taxRecipient
                blockData st 0 = Some (st', totalTrades) ->
  (forall key row, trades st !! key = Some row ->
                   trades st' !! key = Some row)
  /\ (forall key row, taxInflows st !! key = Some row ->
                      taxInflows st' !! key = Some row)
  /\ totalTrades = Z.of_nat (size (trades st')) - Z.of_nat (size (trades st)).
Proof.
  intros E. apply processBlocks_spec in E as (H1 & H2 & H3 & _).
  split; [intros key row Hk; eapply lookup_weaken; eassumption|].
  split; [intros key row Hk; eapply lookup_weaken; eassumption|]. lia.
Qed.

(** X26.  A second run of the block loop over the same blocks
    returns 0 and leaves [trades], [tax_inflows] and the cost ledger
    as the first run left them. *)
Theorem processBlocks_second_pass_changes_no_table
        (projectId : string) (tokenAddress : Address)
        (internalMarket : option Market) (taxRecipient : option Address)
        (blockData : list BlockData) (st st1 : State) (totalTrades : Z) :
  processBlocks projectId tokenAddress internalMarket taxRecipient
                blockData st 0 = Some (st1, totalTrades) ->
  exists st2,
    processBlocks projectId tokenAddress internalMarket taxRecipient
                  blockData st1 0 = Some (st2, 0)
    /\ trades st2 = trades st1
    /\ taxInflows st2 = taxInflows st1
    /\ addressCosts st2 = addressCosts st1.
Proof.
  intros E. apply processBlocks_spec in E as (_ & _ & _ & H).
  apply H; reflexivity.
Qed.

End OrchestratorTables.

Section OrchestratorTablesScenarios.
Import Orchestrator.

Lemma processBlocks_counts_new_rows_witness :
  (forall key row, trades emptyState !! key = Some row ->
                   trades Examples.afterSampleBlock !! key = Some row)
  /\ (forall key row, taxInflows emptyState !! key = Some row ->
                      taxInflows Examples.afterSampleBlock !! key = Some row)
  /\ 1 = Z.of_nat (size (trades Examples.afterSampleBlock))
         - Z.of_nat (size (trades emptyState)).
Proof.
  apply (processBlocks_counts_new_rows
           "p" Scenario.tokenAddress (Some Scenario.sampleMarket) None
           [Scenario.sampleBlock] emptyState Examples.afterSampleBlock 1).
  vm_compute. reflexivity.
Defined.

Lemma processBlocks_second_pass_changes_no_table_witness :
  exists st2,
    Scenario.processSampleBlock Examples.afterSampleBlock = Some (st2, 0)
    /\ trades st2 = trades Examples.afterSampleBlock
    /\ taxInflows st2 = taxInflows Examples.afterSampleBlock
    /\ addressCosts st2 = addressCosts Examples.afterSampleBlock.
Proof.
  apply (processBlocks_second_pass_changes_no_table
           "p" Scenario.tokenAddress (Some Scenario.sampleMarket) None
           [Scenario.sampleBlock] emptyState Examples.afterSampleBlock 1).
  vm_compute. reflexivity.
Defined.

End OrchestratorTablesScenarios.

(** ** Token balances *)

Section TokenBalanceFacts.
Import TokenBalance Sums.

(** *** The delta map *)

Lemma deltasGet_set (a b : Address) (v : Z) (d : Deltas) :
  deltasGet a (deltasSet b v d) = if N.eqb b a then v else deltasGet a d.
Proof.
  induction d as [|[k v0] d IH]; cbn [deltasSet deltasGet].
  - reflexivity.
  - destruct (N.eqb_spec k b) as [->|Hkb]; cbn [deltasGet].
    + destruct (N.eqb b a); reflexivity.
    + destruct (N.eqb_spec k a) as [->|Hka].
      * destruct (N.eqb_spec b a); [congruence|reflexivity].
      * exact IH.
Qed.

Lemma deltasSet_keys (b : Address) (v : Z) (d : Deltas) (k : Address) :
  In k (map fst (deltasSet b v d)) <-> k = b \/ In k (map fst d).
Proof.
  induction d as [|[k0 v0] d IH]; cbn [deltasSet map fst In].
  - intuition.
  - destruct (N.eqb_spec k0 b) as [->|Hne]; cbn [map fst In].
    + intuition.
    + rewrite IH. intuition.
Qed.

Lemma deltasSet_NoDup (b : Address) (v : Z) (d : Deltas) :
  List.NoDup (map fst d) -> List.NoDup (map fst (deltasSet b v d)).
Proof.
  induction d as [|[k0 v0] d IH]; cbn [deltasSet map fst]; intros Hnd.
  - constructor; [intros []|constructor].
  - apply List.NoDup_cons_iff in Hnd as [Hk Hnd].
    destruct (N.eqb_spec k0 b) as [->|Hne]; cbn [map fst].
    + constructor; assumption.
    + constructor; [|apply IH, Hnd].
      rewrite deltasSet_keys. intros [->|Hin]; [congruence|contradiction].
Qed.

Lemma deltasGet_absent (a : Address) (d : Deltas) :
  ~ In a (map fst d) -> deltasGet a d = 0.
Proof.
  induction d as [|[k v] d IH]; cbn [deltasGet map fst In]; intros H;
    [reflexivity|].
  destruct (N.eqb_spec k a) as [->|_]; [tauto|]. apply IH. tauto.
Qed.

Lemma deltasGet_In (a : Address) (v : Z) (d : Deltas) :
  List.NoDup (map fst d) -> In (a, v) d -> deltasGet a d = v.
Proof.
  induction d as [|[k v0] d IH]; cbn [deltasGet map fst In]; intros Hnd Hin;
    [destruct Hin|].
  apply List.NoDup_cons_iff in Hnd as [Hk Hnd].
  destruct Hin as [[= -> ->]|Hin].
  - rewrite N.eqb_refl. reflexivity.
  - destruct (N.eqb_spec k a) as [->|_]; [|apply IH; assumption].
    destruct Hk. apply in_map_iff. exists (a, v). auto.
Qed.

Lemma applyTransfer_get (a : Address) (d : Deltas) (t : ParsedTransfer) :
  a <> ZERO_ADDRESS ->
  deltasGet a (applyTransfer d t) = deltasGet a d + contribution a t.
Proof.
  intros Ha. unfold applyTransfer, contribution.
  destruct (Z.eqb_spec (value t) 0) as [->|_].
  { destruct (N.eqb (to t) a), (N.eqb (from t) a); lia. }
  set (d1 := if negb (N.eqb (from t) ZERO_ADDRESS)
             then deltasSet (from t) (deltasGet (from t) d - value t) d
             else d).
  assert (H1 : deltasGet a d1
               = deltasGet a d - (if N.eqb (from t) a then value t else 0)).
  { unfold d1. destruct (N.eqb_spec (from t) ZERO_ADDRESS) as [Ef|Ef];
      cbn [negb].
    - destruct (N.eqb_spec (from t) a); [congruence|lia].
    - rewrite deltasGet_set.
      destruct (N.eqb_spec (from t) a) as [->|_]; lia. }
  clearbody d1.
  destruct (N.eqb_spec (to t) ZERO_ADDRESS) as [Et|Et]; cbn [negb].
  - destruct (N.eqb_spec (to t) a); [congruence|lia].
  - rewrite deltasGet_set.
    destruct (N.eqb_spec (to t) a) as [->|_]; lia.
Qed.

Lemma applyTransfer_keys (d : Deltas) (t : ParsedTransfer) :
  (List.NoDup (map fst d) -> List.NoDup (map fst (applyTransfer d t)))
  /\ (~ In ZERO_ADDRESS (map fst d) ->
      ~ In ZERO_ADDRESS (map fst (applyTransfer d t))).
Proof.
  unfold applyTransfer.
  destruct (value t =? 0); [tauto|].
  destruct (N.eqb_spec (from t) ZERO_ADDRESS) as [Ef|Ef];
    destruct (N.eqb_spec (to t) ZERO_ADDRESS) as [Et|Et]; cbn [negb];
    split; intros H; rewrite ?deltasSet_keys;
    repeat apply deltasSet_NoDup; try assumption; intuition congruence.
Qed.

Lemma total_cons (x : Z) (xs : list Z) : total (x :: xs) = x + total xs.
Proof. reflexivity. Qed.

Lemma deltas_fold (a : Address) (ts : list ParsedTransfer) :
  a <> ZERO_ADDRESS ->
  forall d,
    deltasGet a (fold_left applyTransfer ts d) = deltasGet a d + netFlow a ts.
Proof.
  intros Ha. induction ts as [|t ts IH]; intros d; cbn [fold_left].
  - unfold netFlow, total. cbn. lia.
  - rewrite IH, applyTransfer_get by exact Ha.
    unfold netFlow. cbn [map]. rewrite total_cons. lia.
Qed.

Lemma deltas_fold_keys (ts : list ParsedTransfer) :
  forall d,
    List.NoDup (map fst d) -> ~ In ZERO_ADDRESS (map fst d) ->
    List.NoDup (map fst (fold_left applyTransfer ts d))
    /\ ~ In ZERO_ADDRESS (map fst (fold_left applyTransfer ts d)).
Proof.
  induction ts as [|t ts IH]; intros d Hnd Hz; cbn [fold_left]; [tauto|].
  destruct (applyTransfer_keys d t) as [H1 H2]. apply IH; auto.
Qed.

(** *** The flush *)

Lemma flushDelta_lookup (projectId : string) (maxBlock : Z) (tbl : Table)
      (a : Address) (delta : Z) (key : string * Address) :
  flushDelta projectId maxBlock tbl (a, delta) !! key
  = if decide (key = (projectId, a))
    then if delta =? 0 then tbl !! key
         else Some (flushed projectId maxBlock tbl a delta)
    else tbl !! key.
Proof.
  unfold flushDelta, flushed, balanceOf, Table in *.
  destruct (Z.eqb_spec delta 0) as [->|Hd].
  { destruct (decide _); reflexivity. }
  destruct (decide (key = (projectId, a))) as [->|Hne].
  - destruct (tbl !! (projectId, a)) as [existing|];
      rewrite lookup_insert_eq; f_equal; f_equal.
    + destruct (Z.ltb_spec (balance existing + delta) 0); lia.
    + destruct (Z.ltb_spec delta 0); lia.
  - destruct (tbl !! (projectId, a)) as [existing|];
      rewrite lookup_insert_ne by congruence; reflexivity.
Qed.

Lemma flush_lookup (projectId : string) (maxBlock : Z) (d : Deltas) :
  List.NoDup (map fst d) ->
  forall (tbl : Table) (pid : string) (a : Address),
    fold_left (flushDelta projectId maxBlock) d tbl !! (pid, a)
    = if decide (pid = projectId)
      then if deltasGet a d =? 0 then tbl !! (pid, a)
           else Some (flushed projectId maxBlock tbl a (deltasGet a d))
      else tbl !! (pid, a).
Proof.
  induction d as [|[k v] d IH]; intros Hnd tbl pid a; cbn [fold_left].
  - cbn [deltasGet]. destruct (decide _); reflexivity.
  - cbn [map fst] in Hnd. apply List.NoDup_cons_iff in Hnd as [Hk Hnd].
    rewrite (IH Hnd). cbn [deltasGet].
    destruct (decide (pid = projectId)) as [->|Hpid].
    + destruct (N.eqb_spec k a) as [->|Hka].
      * rewrite (deltasGet_absent a d Hk). cbn [Z.eqb].
        rewrite flushDelta_lookup.
        destruct (decide _) as [_|Hc]; [reflexivity|congruence].
      * rewrite flushDelta_lookup.
        destruct (decide ((projectId, a) = (projectId, k))) as [Hc|_];
          [congruence|].
        destruct (deltasGet a d =? 0); [reflexivity|].
        unfold flushed, balanceOf. rewrite flushDelta_lookup.
        destruct (decide ((projectId, a) = (projectId, k))) as [Hc|_];
          [congruence|reflexivity].
    + rewrite flushDelta_lookup.
      destruct (decide ((pid, a) = (projectId, k))) as [Hc|_];
        [congruence|reflexivity].
Qed.

(** *** The function *)

Lemma updateTokenBalances_lookup (projectId : string)
      (ts : list ParsedTransfer) (tbl : Table) (pid : string) (a : Address) :
  updateTokenBalances projectId ts tbl !! (pid, a)
  = if decide (pid = projectId /\ a <> ZERO_ADDRESS)
    then if netFlow a ts =? 0 then tbl !! (pid, a)
         else Some (flushed projectId (maxBlockOf ts) tbl a (netFlow a ts))
    else tbl !! (pid, a).
Proof.
  unfold updateTokenBalances.
  destruct ts as [|t0 ts0] eqn:Ets.
  { unfold netFlow, total. cbn. destruct (decide _); reflexivity. }
  rewrite <- Ets. clear Ets t0 ts0. cbv zeta.
  destruct (deltas_fold_keys ts []) as [Hnd Hz]; [constructor|intros []|].
  rewrite (flush_lookup projectId (maxBlockOf ts) _ Hnd).
  destruct (decide (pid = projectId)) as [->|Hpid].
  - destruct (N.eq_dec a ZERO_ADDRESS) as [->|Ha].
    + rewrite (deltasGet_absent _ _ Hz). cbn [Z.eqb].
      destruct (decide _) as [[_ Hc]|_]; [congruence|reflexivity].
    + rewrite deltas_fold by exact Ha. cbn [deltasGet Z.add].
      destruct (decide _) as [_|Hc]; [reflexivity|tauto].
  - destruct (decide _) as [[Hc _]|_]; [congruence|reflexivity].
Qed.

(** X27.  For an address other than the zero address,
    [updateTokenBalances] leaves the row alone when the transfers of
    the batch cancel out for it, and otherwise stores the old balance
    (zero when there was no row) plus the net flow of the batch,
    floored at zero, stamped with the highest block of the batch. *)
Theorem updateTokenBalances_applies_net_flow
        (projectId : string) (tokenTransfers : list ParsedTransfer)
        (tbl : Table) (a : Address) :
  a <> ZERO_ADDRESS ->
  updateTokenBalances projectId tokenTransfers tbl !! (projectId, a)
  = if netFlow a tokenTransfers =? 0 then tbl !! (projectId, a)
    else Some (mkRow (Z.max 0 (balanceOf projectId a tbl
                               + netFlow a tokenTransfers))
                     (maxBlockOf tokenTransfers)).
Proof.
  intros Ha. rewrite updateTokenBalances_lookup.
  destruct (decide _) as [_|Hc]; [reflexivity|tauto].
Qed.

(** X28.  [updateTokenBalances] keeps every stored balance
    non-negative, never writes a row for the zero address, and never
    touches a row of another project. *)
Theorem updateTokenBalances_keeps_balances_sound
        (projectId : string) (tokenTransfers : list ParsedTransfer)
        (tbl : Table) :
  let tbl' := updateTokenBalances projectId tokenTransfers tbl in
  ((forall key row, tbl !! key = Some row -> 0 <= balance row) ->
   forall key row, tbl' !! key = Some row -> 0 <= balance row)
  /\ tbl' !! (projectId, ZERO_ADDRESS) = tbl !! (projectId, ZERO_ADDRESS)
  /\ forall other a, other <> projectId ->
                     tbl' !! (other, a) = tbl !! (other, a).
Proof.
  cbv zeta. split; [|split].
  - intros Hnn [pid a] row. rewrite updateTokenBalances_lookup.
    destruct (decide _); [|apply Hnn].
    destruct (netFlow a tokenTransfers =? 0); [apply Hnn|].
    intros [= <-]. cbn. lia.
  - rewrite updateTokenBalances_lookup.
    destruct (decide _) as [[_ Hc]|_]; [congruence|reflexivity].
  - intros other a Hne. rewrite updateTokenBalances_lookup.
    destruct (decide _) as [[Hc _]|_]; [congruence|reflexivity].
Qed.

End TokenBalanceFacts.

Section TokenBalanceScenarios.
Import TokenBalance.

Lemma updateTokenBalances_applies_net_flow_witness :
  updateTokenBalances "p" Scenario.buyTokenTransfers Examples.oneHolder
    !! ("p"%string, Scenario.trader)
  = Some (mkRow 1005 77).
Proof.
  apply (updateTokenBalances_applies_net_flow
           "p" Scenario.buyTokenTransfers Examples.oneHolder Scenario.trader).
  intros H. discriminate H.
Defined.

Lemma updateTokenBalances_keeps_balances_sound_witness :
  0 <= balance (mkRow 1005 77).
Proof.
  apply (proj1 (updateTokenBalances_keeps_balances_sound
                  "p" Scenario.buyTokenTransfers Examples.oneHolder)
               ltac:(intros key row H; unfold Examples.oneHolder, Table in H;
                     apply lookup_insert_Some in H as [[_ <-]|[_ H]];
                     [cbn; lia | rewrite lookup_empty in H; discriminate H])
               ("p"%string, Scenario.trader)).
  vm_compute. reflexivity.
Defined.

End TokenBalanceScenarios.

(** ** Swap events as trades *)

Section ExternalParserFacts.
Import ExternalParser TradeShape.


End ExternalParserFacts.

Section ExternalParserScenarios.
Import ExternalParser TradeShape.


End ExternalParserScenarios.

(** ** Grouping by block *)

Section BlockScannerFacts.
Import Orchestrator BlockScanner.

(** *** The block map *)

Lemma blockMapHas_In (b : Z) (m : BlockMap) :
  blockMapHas b m = true <-> In b (map fst m).
Proof.
  induction m as [|[k blk] m IH]; cbn [blockMapHas map fst In].
  - split; [discriminate|intros []].
  - rewrite orb_true_iff, Z.eqb_eq, IH. tauto.
Qed.

Lemma blockMapUpdate_keys (b : Z) (f : BlockData -> BlockData) (m : BlockMap) :
  map fst (blockMapUpdate b f m) = map fst m.
Proof.
  induction m as [|[k blk] m IH]; cbn [blockMapUpdate map fst]; [reflexivity|].
  destruct (k =? b); cbn [map fst]; [reflexivity|]. rewrite IH. reflexivity.
Qed.

Lemma blockMapUpdate_In (b : Z) (f : BlockData -> BlockData) (m : BlockMap)
      (k : Z) (blk : BlockData) :
  List.NoDup (map fst m) ->
  In (k, blk) (blockMapUpdate b f m) ->
  (k = b /\ exists blk0, In (b, blk0) m /\ blk = f blk0)
  \/ (k <> b /\ In (k, blk) m).
Proof.
  induction m as [|[k0 blk0] m IH]; cbn [blockMapUpdate map fst];
    intros Hnd Hin; [destruct Hin|].
  apply List.NoDup_cons_iff in Hnd as [Hk Hnd].
  destruct (Z.eqb_spec k0 b) as [->|Hne].
  - destruct Hin as [[= <- <-]|Hin].
    + left. split; [reflexivity|]. exists blk0. split; [left|]; reflexivity.
    + right. split; [|right; exact Hin].
      intros ->. apply Hk. apply in_map_iff. exists (b, blk). auto.
  - destruct Hin as [[= <- <-]|Hin].
    + right. split; [exact Hne|left; reflexivity].
    + destruct (IH Hnd Hin) as [(-> & blk1 & Hin1 & ->)|[Hkb Hin1]].
      * left. split; [reflexivity|]. exists blk1. split; [right|]; auto.
      * right. split; [exact Hkb|right; exact Hin1].
Qed.

Lemma filter_snoc (p : ParsedTransfer -> bool) (l : list ParsedTransfer) t :
  List.filter p (l ++ [t]) = List.filter p l ++ (if p t then [t] else []).
Proof. rewrite List.filter_app. cbn [List.filter]. reflexivity. Qed.

Lemma filter_none (b : Z) (l : list ParsedTransfer) :
  (forall t, In t l -> blockNumber t <> b) -> List.filter (inBlock b) l = [].
Proof.
  induction l as [|x l IH]; intros H; [reflexivity|]. cbn [List.filter].
  unfold inBlock at 1.
  destruct (Z.eqb_spec (blockNumber x) b) as [E|_].
  - destruct (H x (or_introl eq_refl) E).
  - apply IH. intros t Ht. apply H. right. exact Ht.
Qed.

(** One push, of either kind: [entry'] says how the entry of the
    transfer's block changes, [ts'] and [vs'] are the pushed lists
    afterwards. *)
Lemma push_grouped (m : BlockMap) (ts vs ts' vs' : list ParsedTransfer)
      (t : ParsedTransfer) (f : BlockData -> BlockData) :
  grouped m ts vs ->
  (forall x, In x (ts' ++ vs') <-> x = t \/ In x (ts ++ vs)) ->
  (forall b, b <> blockNumber t -> entryOf b ts' vs' = entryOf b ts vs) ->
  f (entryOf (blockNumber t) ts vs) = entryOf (blockNumber t) ts' vs' ->
  grouped (blockMapUpdate (blockNumber t) f (ensureBlock (blockNumber t) m))
          ts' vs'.
Proof.
  intros (Hnd & Hent & Hkeys) Hmem Hother Hown.
  set (b := blockNumber t) in *.
  assert (He : grouped (ensureBlock b m) ts vs
               \/ (ensureBlock b m = m ++ [(b, entryOf b ts vs)]
                   /\ ~ In b (map fst m))).
  { unfold ensureBlock. destruct (blockMapHas b m) eqn:E.
    - left. repeat split; assumption || apply Hkeys.
    - right. assert (Hb : ~ In b (map fst m)).
      { intros Hin. apply blockMapHas_In in Hin. congruence. }
      split; [|exact Hb]. do 3 f_equal. unfold entryOf.
      rewrite !filter_none; [reflexivity| |].
      + intros x Hx Hxb. apply Hb, Hkeys. exists x.
        split; [apply in_or_app; right; exact Hx|exact Hxb].
      + intros x Hx Hxb. apply Hb, Hkeys. exists x.
        split; [apply in_or_app; left; exact Hx|exact Hxb]. }
  assert (Hnd' : List.NoDup (map fst (ensureBlock b m))).
  { destruct He as [(H & _)|[-> Hb]]; [exact H|].
    rewrite map_app. apply List.NoDup_app; [exact Hnd| |].
    - constructor; [intros []|constructor].
    - intros k Hk [<-|[]]. contradiction. }
  assert (Hent' : forall k blk, In (k, blk) (ensureBlock b m) ->
                                blk = entryOf k ts vs).
  { destruct He as [(_ & H & _)|[-> Hb]]; [exact H|].
    intros k blk Hin. apply in_app_or in Hin as [Hin|[[= <- <-]|[]]];
      [apply Hent, Hin|reflexivity]. }
  assert (Hkeys' : forall k, In k (map fst (ensureBlock b m))
                             <-> k = b \/ In k (map fst m)).
  { intros k. unfold ensureBlock. destruct (blockMapHas b m) eqn:E; cbv iota.
    - apply blockMapHas_In in E.
      split; [intros H; right; exact H|]. intros [->|H]; assumption.
    - rewrite map_app, in_app_iff. cbn [map fst In]. intuition. }
  split; [|split].
  - rewrite blockMapUpdate_keys. exact Hnd'.
  - intros k blk Hin.
    apply blockMapUpdate_In in Hin as [(-> & blk0 & Hin0 & ->)|[Hkb Hin0]];
      [| |exact Hnd'].
    + rewrite (Hent' _ _ Hin0). exact Hown.
    + rewrite (Hent' _ _ Hin0). symmetry. apply Hother, Hkb.
  - intros k. rewrite blockMapUpdate_keys, Hkeys', Hkeys. split.
    + intros [->|(x & Hx & Hxk)].
      * exists t. split; [apply Hmem; left; reflexivity|reflexivity].
      * exists x. split; [apply Hmem; right; exact Hx|exact Hxk].
    + intros (x & Hx & Hxk). apply Hmem in Hx as [->|Hx].
      * left. symmetry. exact Hxk.
      * right. exists x. auto.
Qed.

Lemma pushToken_grouped m ts vs t :
  grouped m ts vs -> grouped (pushToken m t) (ts ++ [t]) vs.
Proof.
  intros H. unfold pushToken. apply (push_grouped m ts vs); [exact H| | |].
  - intros x. rewrite !in_app_iff. cbn [In]. intuition congruence.
  - intros b Hb. unfold entryOf. rewrite filter_snoc.
    replace (inBlock b t) with false; [rewrite app_nil_r; reflexivity|].
    unfold inBlock. destruct (Z.eqb_spec (blockNumber t) b); congruence.
  - unfold entryOf.
    cbn [b_blockNumber b_timestamp b_tokenTransfers b_virtualTransfers].
    rewrite filter_snoc.
    replace (inBlock (blockNumber t) t) with true
      by (unfold inBlock; rewrite Z.eqb_refl; reflexivity).
    reflexivity.
Qed.

Lemma pushVirtual_grouped m ts vs v :
  grouped m ts vs -> grouped (pushVirtual m v) ts (vs ++ [v]).
Proof.
  intros H. unfold pushVirtual. apply (push_grouped m ts vs); [exact H| | |].
  - intros x. rewrite !in_app_iff. cbn [In]. intuition congruence.
  - intros b Hb. unfold entryOf. rewrite filter_snoc.
    replace (inBlock b v) with false; [rewrite app_nil_r; reflexivity|].
    unfold inBlock. destruct (Z.eqb_spec (blockNumber v) b); congruence.
  - unfold entryOf.
    cbn [b_blockNumber b_timestamp b_tokenTransfers b_virtualTransfers].
    rewrite filter_snoc.
    replace (inBlock (blockNumber v) v) with true
      by (unfold inBlock; rewrite Z.eqb_refl; reflexivity).
    reflexivity.
Qed.

Lemma blockMap_grouped (ts vs : list ParsedTransfer) :
  grouped (fold_left pushVirtual vs (fold_left pushToken ts [])) ts vs.
Proof.
  assert (Ht : forall l m done, grouped m done [] ->
                 grouped (fold_left pushToken l m) (done ++ l) []).
  { induction l as [|t l IH]; intros m done H; cbn [fold_left].
    - rewrite app_nil_r. exact H.
    - replace (done ++ t :: l) with ((done ++ [t]) ++ l)
        by (rewrite <- app_assoc; reflexivity).
      apply IH, pushToken_grouped, H. }
  assert (Hv : forall l m done, grouped m ts done ->
                 grouped (fold_left pushVirtual l m) ts (done ++ l)).
  { induction l as [|t l IH]; intros m done H; cbn [fold_left].
    - rewrite app_nil_r. exact H.
    - replace (done ++ t :: l) with ((done ++ [t]) ++ l)
        by (rewrite <- app_assoc; reflexivity).
      apply IH, pushVirtual_grouped, H. }
  apply (Hv vs _ []). apply (Ht ts [] []).
  split; [constructor|]. split; [intros b blk []|].
  intros b. cbn. split; [intros []|intros (t & [] & _)].
Qed.

(** *** Sorting by block number *)

Lemma insertBy_In {A} (le : A -> A -> bool) (x y : A) (l : list A) :
  In y (JsArray.insertBy le x l) <-> y = x \/ In y l.
Proof.
  induction l as [|z l IH]; cbn [JsArray.insertBy In].
  - intuition.
  - destruct (le x z); cbn [In]; [intuition|]. rewrite IH. intuition.
Qed.

Lemma sortBy_In {A} (le : A -> A -> bool) (y : A) (l : list A) :
  In y (JsArray.sortBy le l) <-> In y l.
Proof.
  unfold JsArray.sortBy. induction l as [|x l IH]; cbn [fold_right In];
    [tauto|].
  rewrite insertBy_In, IH. intuition.
Qed.

Lemma insertBy_ascending (x : BlockData) (l : list BlockData) :
  ~ In (b_blockNumber x) (map b_blockNumber l) ->
  ascending (map b_blockNumber l) ->
  ascending (map b_blockNumber (JsArray.insertBy byBlockNumber x l)).
Proof.
  induction l as [|z l IH]; cbn [JsArray.insertBy map ascending In];
    intros Hx Hasc.
  - split; [intros y []|exact I].
  - destruct Hasc as [Hz Hl]. unfold byBlockNumber at 1.
    destruct (Z.leb_spec (b_blockNumber x - b_blockNumber z) 0) as [Hle|Hgt];
      cbn [map ascending].
    + split; [|split; assumption].
      intros y [<-|Hy]; [lia|]. specialize (Hz y Hy). lia.
    + split.
      * intros y Hy. apply in_map_iff in Hy as (w & <- & Hw).
        apply insertBy_In in Hw as [->|Hw]; [lia|].
        apply Hz, in_map, Hw.
      * apply IH; [tauto|exact Hl].
Qed.

Lemma sortBy_ascending (l : list BlockData) :
  List.NoDup (map b_blockNumber l) ->
  ascending (map b_blockNumber (JsArray.sortBy byBlockNumber l)).
Proof.
  unfold JsArray.sortBy. induction l as [|x l IH]; cbn [fold_right map];
    intros Hnd; [exact I|].
  apply List.NoDup_cons_iff in Hnd as [Hx Hnd].
  apply insertBy_ascending; [|apply IH, Hnd].
  intros Hin. apply Hx. apply in_map_iff in Hin as (w & Ew & Hw).
  apply sortBy_In in Hw. apply in_map_iff. exists w. auto.
Qed.

(** X30.  The blocks [scanBlockRange] builds from the parsed
    transfers come in strictly ascending block order; each holds
    exactly the token and the quote transfers of its block, in input
    order, and at least one of them; every transfer of the input is in
    the block of its number. *)
Theorem groupByBlock_groups_in_chain_order
        (timestampOf : Z -> Z)
        (tokenTransfers virtualTransfers : list ParsedTransfer) :
  let blocks := groupByBlock timestampOf tokenTransfers virtualTransfers in
  ascending (map b_blockNumber blocks)
  /\ (forall blk, In blk blocks ->
        blk = mkBlock (b_blockNumber blk) (timestampOf (b_blockNumber blk))
                (List.filter (inBlock (b_blockNumber blk)) tokenTransfers)
                (List.filter (inBlock (b_blockNumber blk)) virtualTransfers)
        /\ exists t, In t (tokenTransfers ++ virtualTransfers)
                     /\ blockNumber t = b_blockNumber blk)
  /\ (forall t, In t (tokenTransfers ++ virtualTransfers) ->
        exists blk, In blk blocks /\ b_blockNumber blk = blockNumber t).
Proof.
  cbv zeta. unfold groupByBlock. cbv zeta.
  destruct (blockMap_grouped tokenTransfers virtualTransfers)
    as (Hnd & Hent & Hkeys).
  set (m := fold_left pushVirtual virtualTransfers
                      (fold_left pushToken tokenTransfers [])) in *.
  assert (Hnum : map b_blockNumber (map snd m) = map fst m).
  { rewrite map_map. apply map_ext_in. intros [b blk] Hin.
    rewrite (Hent b blk Hin). reflexivity. }
  split; [|split].
  - rewrite map_map. cbn [b_blockNumber].
    change (fun x => b_blockNumber x) with b_blockNumber.
    apply sortBy_ascending. rewrite Hnum. exact Hnd.
  - intros blk Hin. apply in_map_iff in Hin as (blk0 & <- & Hin).
    apply sortBy_In in Hin. apply in_map_iff in Hin as ([b e] & <- & Hin).
    cbn [snd b_blockNumber]. rewrite (Hent b e Hin). cbn. split; [reflexivity|].
    apply Hkeys. apply in_map_iff. exists (b, e). auto.
  - intros t Ht.
    assert (Hk : In (blockNumber t) (map fst m))
      by (apply Hkeys; exists t; auto).
    apply in_map_iff in Hk as ([b e] & Eb & Hin). cbn [fst] in Eb. subst b.
    eexists. split.
    + apply in_map_iff. exists e. split; [reflexivity|].
      apply sortBy_In, in_map_iff. exists (blockNumber t, e). auto.
    + cbn. rewrite (Hent _ e Hin). reflexivity.
Qed.

End BlockScannerFacts.

Section BlockScannerScenarios.
Import Orchestrator BlockScanner.

Lemma groupByBlock_groups_in_chain_order_witness :
  map b_blockNumber
      (groupByBlock (fun _ => 1700) Examples.twoBlockTokenTransfers
                    Scenario.buyVirtualTransfers)
  = [75; 77]
  /\ ascending [75; 77].
Proof.
  split; [vm_compute; reflexivity|].
  exact (proj1 (groupByBlock_groups_in_chain_order
                  (fun _ => 1700) Examples.twoBlockTokenTransfers
                  Scenario.buyVirtualTransfers)).
Defined.

End BlockScannerScenarios.
